(** * Article content pipeline of the blog page ([src/app/blog/[slug]/page.tsx])

    A shallow embedding of the article renderer: slug lookup, internal-link
    resolution, top-pick annotation, heading decoration, the sanitizer
    configuration, FAQ extraction and the product schema builder.

    JavaScript strings are modelled as lists of code units.  A code unit is an
    [ascii], i.e. the development covers text whose UTF-16 code units are
    below 256 (Latin-1); case mapping and the white-space class are the
    ECMAScript ones restricted to that range. *)

From Stdlib Require Import ZArith Ascii String List Bool Lia.
From stdpp Require Import base option list gmap strings.

Set Default Proof Using "Type".
Local Open Scope list_scope.

(** ** Strings *)

Module Js.

Abbreviation str := (list ascii).

(** String literals are read as code-unit lists. *)
Coercion list_ascii_of_string : string >-> list.

Definition code (c : ascii) : nat := nat_of_ascii c.

(** [WhiteSpace] and [LineTerminator] code points below 256: TAB, LF, VT, FF,
    CR, SP and NBSP.  This is the [\s] class and the set removed by [trim]. *)
Definition isWhiteSpace (c : ascii) : bool :=
  let n := code c in
  ((9 <=? n) && (n <=? 13)) || (n =? 32) || (n =? 160).

(** [.] without the [s] flag excludes line terminators (LF and CR here). *)
Definition isLineTerminator (c : ascii) : bool :=
  let n := code c in (n =? 10) || (n =? 13).

(** [toLowerCase] on one code unit: A-Z, and the Latin-1 capitals
    U+00C0..U+00DE except the multiplication sign U+00D7. *)
Definition lowerChar (c : ascii) : ascii :=
  let n := code c in
  if ((65 <=? n) && (n <=? 90))
     || ((192 <=? n) && (n <=? 222) && negb (n =? 215))
  then ascii_of_nat (n + 32) else c.

Definition toLowerCase (s : str) : str := map lowerChar s.

(** [Canonicalize] of a non-unicode, ignore-case regular expression: the
    simple upper-case mapping where it stays inside one code unit of the
    modelled range (a-z, and U+00E0..U+00FE except the division sign U+00F7).
    The units whose upper case leaves the range (U+00B5, U+00DF, U+00FF) have
    canonical forms that no other modelled unit shares, so keeping them fixed
    preserves canonical equality. *)
Definition canonChar (c : ascii) : ascii :=
  let n := code c in
  if ((97 <=? n) && (n <=? 122))
     || ((224 <=? n) && (n <=? 254) && negb (n =? 247))
  then ascii_of_nat (n - 32) else c.

Definition eqChar (ic : bool) (a b : ascii) : bool :=
  if ic then Ascii.eqb (canonChar a) (canonChar b) else Ascii.eqb a b.

Fixpoint dropWhile (p : ascii -> bool) (s : str) : str :=
  match s with
  | c :: s' => if p c then dropWhile p s' else s
  | [] => []
  end.

(** [String.prototype.trim] *)
Definition trimStart (s : str) : str := dropWhile isWhiteSpace s.
Definition trimEnd (s : str) : str := rev (dropWhile isWhiteSpace (rev s)).
Definition trim (s : str) : str := trimEnd (trimStart s).

(** [String.prototype.startsWith] *)
Fixpoint startsWith (s pre : str) : bool :=
  match pre, s with
  | [], _ => true
  | p :: pre', c :: s' => Ascii.eqb c p && startsWith s' pre'
  | _ :: _, [] => false
  end.

(** First offset at which [needle] occurs in [s]. *)
Fixpoint search (needle s : str) : option nat :=
  if startsWith s needle then Some 0
  else match s with
       | [] => None
       | _ :: s' => S <$> search needle s'
       end.

(** [String.prototype.includes] *)
Definition includes (s needle : str) : bool :=
  match search needle s with Some _ => true | None => false end.

(** [String.prototype.indexOf(needle, from)]: the start position is clamped to
    the string, the answer is [-1] when there is no occurrence. *)
Definition indexOf (s needle : str) (from : Z) : Z :=
  let start := Z.to_nat (Z.min (Z.max from 0) (Z.of_nat (length s))) in
  match search needle (drop start s) with
  | Some k => Z.of_nat (start + k)
  | None => (-1)%Z
  end.

(** [String.prototype.substring(a, b)]: both ends are clamped to the string
    and swapped when out of order. *)
Definition substring (s : str) (a b : Z) : str :=
  let clamp z := Z.to_nat (Z.min (Z.max z 0) (Z.of_nat (length s))) in
  let lo := Nat.min (clamp a) (clamp b) in
  let hi := Nat.max (clamp a) (clamp b) in
  take (hi - lo) (drop lo s).

(** Truthiness of a string value: only the empty string is falsy. *)
Definition truthy (s : str) : bool :=
  match s with [] => false | _ :: _ => true end.

End Js.

(** ** Regular expressions

    A backtracking matcher for the fragment of ECMAScript patterns that the
    page uses: pattern characters, character classes, sequencing, a greedy
    optional sub-pattern, greedy and lazy iteration of a one-character atom,
    capture groups and back-references.  Alternatives are tried in the
    priority order of the ECMAScript matcher; the first success wins. *)

Module Regex.
Import Js.

Inductive regex : Type :=
| Lit (l : str)                            (* pattern characters *)
| Cls (p : ascii -> bool)                  (* a class, or [.] *)
| Seq (r1 r2 : regex)
| Opt (r : regex)                          (* [r?] *)
| Star (greedy : bool) (p : ascii -> bool) (* [c*] and [c*?] for a class c *)
| Group (n : nat) (r : regex)              (* n-th capturing group *)
| Backref (n : nat).                       (* [\n] *)

(** [c+] *)
Definition Plus (p : ascii -> bool) : regex := Seq (Cls p) (Star true p).

Fixpoint seqs (rs : list regex) : regex :=
  match rs with
  | [] => Lit []
  | [r] => r
  | r :: rs' => Seq r (seqs rs')
  end.

(** Captures: group number to captured text; an absent key is [undefined]. *)
Abbreviation caps := (gmap nat str).

Definition outcome : Type := str * caps.
Definition cont : Type := str -> caps -> option outcome.

(** Consume the text [l] from the front of [s] (compared canonically when the
    [i] flag is set). *)
Fixpoint eat (ic : bool) (l s : str) : option str :=
  match l, s with
  | [], _ => Some s
  | a :: l', c :: s' => if eqChar ic c a then eat ic l' s' else None
  | _ :: _, [] => None
  end.

(** Greedy iteration takes the longest run first and gives characters back
    one at a time; lazy iteration tries the continuation first. *)
Fixpoint star (greedy : bool) (p : ascii -> bool) (s : str)
    (k : str -> option outcome) : option outcome :=
  match s with
  | c :: s' =>
      if p c then
        if greedy then
          match star greedy p s' k with
          | Some o => Some o
          | None => k s
          end
        else
          match k s with
          | Some o => Some o
          | None => star greedy p s' k
          end
      else k s
  | [] => k s
  end.

Fixpoint m (ic : bool) (r : regex) (s : str) (cs : caps) (k : cont)
    : option outcome :=
  match r with
  | Lit l =>
      match eat ic l s with
      | Some s' => k s' cs
      | None => None
      end
  | Cls p =>
      match s with
      | c :: s' => if p c then k s' cs else None
      | [] => None
      end
  | Seq r1 r2 => m ic r1 s cs (fun s' cs' => m ic r2 s' cs' k)
  | Opt r1 =>
      (* an iteration that consumes nothing is rejected *)
      match m ic r1 s cs (fun s' cs' =>
              if length s' =? length s then None else k s' cs') with
      | Some o => Some o
      | None => k s cs
      end
  | Star g p => star g p s (fun s' => k s' cs)
  | Group n r1 =>
      m ic r1 s cs (fun s' cs' =>
        k s' (<[n := take (length s - length s') s]> cs'))
  | Backref n =>
      match cs !! n with
      | None => k s cs
      | Some t =>
          match eat ic t s with
          | Some s' => k s' cs
          | None => None
          end
      end
  end.

(** One match attempt anchored at the front of [s]: the text after the match
    and the captures. *)
Definition exec (ic : bool) (r : regex) (s : str) : option outcome :=
  m ic r s ∅ (fun s' cs' => Some (s', cs')).

(** A global scan ([g] flag) visits the string from left to right; after a
    match it resumes at the end of the match, or one unit further when the
    match is empty. *)
Inductive piece : Type :=
| Keep (c : ascii)
| Hit (matched : str) (cs : caps).

Fixpoint scan (ic : bool) (r : regex) (skip : nat) (s : str) : list piece :=
  match skip with
  | S n =>
      match s with
      | [] => []
      | _ :: s' => scan ic r n s'
      end
  | 0 =>
      match exec ic r s with
      | Some (rest, cs) =>
          let matched := take (length s - length rest) s in
          Hit matched cs ::
            match s with
            | [] => []
            | c :: s' =>
                match matched with
                | [] => Keep c :: scan ic r 0 s'
                | _ :: t => scan ic r (length t) s'
                end
            end
      | None =>
          match s with
          | [] => []
          | c :: s' => Keep c :: scan ic r 0 s'
          end
      end
  end.

(** [String.prototype.replace(re, fn)] for a global [re]: the replacer gets
    the matched text and the captures, its result is inserted as it is. *)
Definition replace (ic : bool) (r : regex) (fn : str -> caps -> str)
    (s : str) : str :=
  flat_map (fun p => match p with
                     | Keep c => [c]
                     | Hit mt cs => fn mt cs
                     end) (scan ic r 0 s).

(** Replacement templates: literal text and [$n]; an unset group expands to
    the empty string. *)
Inductive tpl : Type :=
| TText (t : str)
| TGroup (n : nat).

Definition expand (t : list tpl) (mt : str) (cs : caps) : str :=
  flat_map (fun x => match x with
                     | TText t => t
                     | TGroup n => default [] (cs !! n)
                     end) t.

(** [String.prototype.match(re)] for a global [re], with [|| []]. *)
Definition matchAll (ic : bool) (r : regex) (s : str) : list str :=
  omap (fun p => match p with
                 | Keep _ => None
                 | Hit mt _ => Some mt
                 end) (scan ic r 0 s).

End Regex.

(** ** The page *)

Module Page.
Import Js Regex.
Local Open Scope string_scope.
Local Open Scope list_scope.

(** The double quote, for texts that contain one. *)
Definition dq : ascii := ascii_of_nat 34.
Definition quoted (s : str) : str := dq :: s ++ [dq].


(** *** Data ([typedBlogData]) *)

Record author : Type := {
  author_name : str;
  author_url : option str;
  author_image : option str;
  author_sameAs : option (list str)
}.

Record article : Type := {
  slug : str;
  pageTitle : str;
  description : str;
  metaDescription : str;
  featuredImageUrl : str;
  featuredImageAlt : str;
  mainCategorySlug : str;
  mainCategoryName : str;
  subCategorySlug : str;
  subCategoryName : str;
  htmlBody : str;
  isPreformatted : bool;
  amazon_link : option str;
  datePublished : str;
  dateModified : str;
  featuredImageHint : option str;
  titleTag : option str;
  articleAuthor : option author
}.

Record internalLink : Type := {
  id : str;
  url : str;
  text : str
}.

(** The category tables of the data file are not read by this page. *)
Record blogData : Type := {
  articles : list article;
  internalLinks : option (list internalLink)
}.

(** [a || b] on strings and on optional strings. *)
Definition orElse (a b : str) : str := if truthy a then a else b.
Definition optOrElse (a : option str) (b : str) : str :=
  match a with
  | Some x => orElse x b
  | None => b
  end.

(** *** Article lookup *)

(** [articles.find(item => item.slug.trim().toLowerCase() === slug)] with
    [slug = params.slug.trim().toLowerCase()]. *)
Definition normalizeSlug (s : str) : str := toLowerCase (trim s).

Definition findArticle (data : blogData) (requested : str) : option article :=
  let slug := normalizeSlug requested in
  find (fun item => bool_decide (normalizeSlug (Page.slug item) = slug))
       (articles data).

(** [generateStaticParams]: one parameter object per article, holding its
    slug as stored. *)
Definition generateStaticParams (data : blogData) : list str :=
  map slug (articles data).

(** *** Text transforms *)

(** [/(Pet Gadget Insider's Top Pick)/g] replaced by ['$1*']. *)
Definition topPickRegex : regex :=
  Group 1 (Lit "Pet Gadget Insider's Top Pick").

Definition addAsteriskToTopPick (html : str) : str :=
  replace false topPickRegex (expand [TGroup 1; TText "*"]) html.

(** The classes of the placeholder pattern: a quote (double or single), and
    anything but a quote, white space or [>]. *)
Definition isQuote (c : ascii) : bool :=
  Ascii.eqb c dq || Ascii.eqb c "'"%char.

Definition isIdChar (c : ascii) : bool :=
  negb (isQuote c || isWhiteSpace c || Ascii.eqb c ">"%char).

(** The pattern [<InternalLink \s+ id= (Q?) (I+) \1 \s* \/>] with flags [gi]
    (written with blanks between its parts; Q is the quote class and I the
    id class above). *)
Definition internalLinkRegex : regex :=
  seqs [ Lit "<InternalLink"; Plus isWhiteSpace; Lit "id=";
         Group 1 (Opt (Cls isQuote)); Group 2 (Plus isIdChar); Backref 1;
         Star true isWhiteSpace; Lit "/>" ].

(** [new Map(internalLinks.map(link => [link.id.toLowerCase(), link]))]:
    entries are inserted in order, a later entry replaces an earlier one with
    the same key. *)
Definition linkMap (links : list internalLink) : gmap str internalLink :=
  foldl (fun mp link => <[toLowerCase (id link) := link]> mp) ∅ links.

Definition brokenLink (i : str) : str :=
  "<span class=" ++ quoted "broken-link" ++ ">[Broken Link: " ++ i
    ++ "]</span>".

Definition anchor (link : internalLink) : str :=
  "<a href=" ++ quoted (url link) ++ " class=" ++ quoted "internal-link"
    ++ ">" ++ text link ++ "</a>".

(** The replacer [(_, quoteChar, id) => ...]. *)
Definition resolveLink (mp : gmap str internalLink) (i : str) : str :=
  let normalizedId := toLowerCase i in
  match mp !! normalizedId with
  | None => brokenLink i
  | Some link => anchor link
  end.

Definition parseInternalLinks (data : blogData) (html : str) : str :=
  let mp := linkMap (default [] (internalLinks data)) in
  replace true internalLinkRegex
    (fun _ cs => resolveLink mp (default [] (cs !! 2))) html.

(** The pattern [<h2 ( \s+ [^>]* )? >] with flags [gi] (written here with
    blanks between its parts), replaced by [<h2$1 class=DQ blog-heading DQ >]
    where DQ is the double quote. *)
Definition notGt (c : ascii) : bool := negb (Ascii.eqb c ">"%char).

Definition h2OpenRegex : regex :=
  seqs [ Lit "<h2"; Opt (Group 1 (Seq (Plus isWhiteSpace) (Star true notGt)));
         Lit ">" ].

Definition addHeadingClass (html : str) : str :=
  replace true h2OpenRegex
    (expand [TText "<h2"; TGroup 1;
             TText (" class=" ++ quoted "blog-heading" ++ ">")]) html.


(** *** FAQ schema *)

Definition dot (c : ascii) : bool := negb (isLineTerminator c).

(** The pattern [<h2 [^>]* > ( .*? ) <\/h2>] with flags [gi]. *)
Definition headingRegex : regex :=
  seqs [ Lit "<h2"; Star true notGt; Lit ">"; Group 1 (Star false dot);
         Lit "</h2>" ].

(** The pattern [< [^>]+ >] with flag [g]. *)
Definition tagRegex : regex := seqs [ Lit "<"; Plus notGt; Lit ">" ].

(** The pattern [\s+] with flag [g]. *)
Definition spacesRegex : regex := Plus isWhiteSpace.

Definition stripTags (by_ : str) (s : str) : str :=
  replace false tagRegex (expand [TText by_]) s.

Definition collapseSpaces (s : str) : str :=
  replace false spacesRegex (expand [TText " "]) s.

Record answer : Type := {
  answer_type : str;
  answer_text : str
}.

Record question : Type := {
  question_type : str;
  name : str;
  acceptedAnswer : answer
}.

Record faqPage : Type := {
  faq_context : str;
  faq_type : str;
  mainEntity : list question
}.

Definition mkQuestion (headingContent answerContent : str) : question :=
  {| question_type := "Question";
     name := headingContent;
     acceptedAnswer := {| answer_type := "Answer";
                          answer_text := answerContent |} |}.

(** One turn of the loop over [headingMatches], for index [i]. *)
Definition faqStep (body : str) (headingMatches : list str)
    (faqItems : list question) (i : nat) : list question :=
  let headingMatch := default [] (headingMatches !! i) in
  let headingContent := trim (stripTags "" headingMatch) in
  let startIndex :=
    (indexOf body headingMatch 0 + Z.of_nat (length headingMatch))%Z in
  let endIndex :=
    if (Z.of_nat i <? Z.of_nat (length headingMatches) - 1)%Z
    then indexOf body (default [] (headingMatches !! (i + 1))) startIndex
    else Z.of_nat (length body) in
  let answerContent :=
    trim (collapseSpaces (stripTags " " (substring body startIndex endIndex)))
  in
  if truthy answerContent
  then faqItems ++ [mkQuestion headingContent answerContent]
  else faqItems.

Definition faqItemsOf (body : str) : list question :=
  let headingMatches := matchAll true headingRegex body in
  foldl (faqStep body headingMatches) [] (seq 0 (length headingMatches)).

Definition generateFAQSchema (a : article) : option faqPage :=
  if negb (truthy (htmlBody a)) then None
  else
    let faqItems := faqItemsOf (htmlBody a) in
    if (0 <? length faqItems)%nat
    then Some {| faq_context := "https://schema.org";
                 faq_type := "FAQPage";
                 mainEntity := faqItems |}
    else None.

(** *** Product schema *)

(** [Array.prototype.join] *)
Fixpoint join (sep : str) (l : list str) : str :=
  match l with
  | [] => []
  | [x] => x
  | x :: l' => x ++ sep ++ join sep l'
  end.

Record organization : Type := {
  org_type : str;
  org_name : str
}.

Record offer : Type := {
  offer_type : str;
  offer_url : str;
  priceCurrency : str;
  price : str;
  availability : str;
  seller : organization
}.

Record brand : Type := {
  brand_type : str;
  brand_name : str
}.

Record product : Type := {
  product_context : str;
  product_type : str;
  product_name : str;
  product_description : str;
  product_image : str;
  product_keywords : str;
  offers : offer;
  product_brand : brand
}.

Section WithSeoUtils.

(** [getKeywords] of [@/lib/seo-utils], which is not part of the sources at
    hand: any function from the dog flag to a keyword list. *)
Variable getKeywords : bool -> list str.

Definition generateProductSchema (a : article) : option product :=
  match amazon_link a with
  | None => None
  | Some link =>
      if negb (truthy link) then None
      else
        let articleKeywords := getKeywords (includes (mainCategorySlug a) "dog") in
        Some {| product_context := "https://schema.org";
                product_type := "Product";
                product_name := pageTitle a;
                product_description := orElse (metaDescription a) (description a);
                product_image := featuredImageUrl a;
                product_keywords := join ", " articleKeywords;
                offers := {| offer_type := "Offer";
                             offer_url := link;
                             priceCurrency := "USD";
                             price := "0";
                             availability := "https://schema.org/InStock";
                             seller := {| org_type := "Organization";
                                          org_name := "Amazon" |} |};
                product_brand := {| brand_type := "Brand";
                                    brand_name := "Various Brands" |} |}
  end.

End WithSeoUtils.


(** *** Sanitizer configuration *)

(** Attributes of a tag as the parser hands them to [transformTags]: an
    object from attribute name to value. *)
Abbreviation attribs := (gmap str str).

(** The markup handled by the sanitizer, after parsing. *)
#[local] Unset Elimination Schemes.
Inductive node : Type :=
| Text (t : str)
| Element (tagName : str) (at_ : attribs) (children : list node).
#[local] Set Elimination Schemes.

Record options : Type := {
  allowedTags : list str;
  allowedAttributes : gmap str (list str);
  allowedIframeHostnames : list str;
  transformTags : gmap str (str -> attribs -> str * attribs)
}.

(** [transformTags['a']] *)
Definition transformAnchor (tagName : str) (at_ : attribs) : str * attribs :=
  match at_ !! ("href" : str) with
  | Some href =>
      if truthy href && startsWith href "http"
      then (("a" : str),
            <[("target" : str) := ("_blank" : str)]>
              (<[("rel" : str) := ("noopener noreferrer nofollow" : str)]> at_))
      else (tagName, at_)
  | None => (tagName, at_)
  end.

Definition strs (l : list string) : list str := map list_ascii_of_string l.

(** The tags the page adds to the default list. *)
Definition extraTags : list str :=
  strs ["img"; "svg"; "path"; "line"; "rect"; "circle"; "g"; "text"; "tspan"].

(** The per-tag attribute lists the page sets, in source order. *)
Definition allow (tag : string) (names : list string) : str * list str :=
  (list_ascii_of_string tag, strs names).

Definition extraAttributes : list (str * list str) :=
  [ allow "a" ["href"; "name"; "target"; "class"; "rel"];
    allow "img" ["src"; "alt"; "width"; "height"; "class"; "style"];
    allow "iframe" ["src"; "width"; "height"; "frameborder"; "allowfullscreen"];
    allow "div" ["class"; "style"];
    allow "span" ["class"; "style"];
    allow "h2" ["class"; "style"];
    allow "table" ["class"; "style"; "border"];
    allow "thead" ["class"; "style"; "border"];
    allow "tbody" ["class"; "style"; "border"];
    allow "tr" ["class"; "style"; "border"];
    allow "th" ["class"; "style"; "border"];
    allow "td" ["class"; "style"; "border"];
    allow "svg" ["width"; "height"; "viewbox"; "xmlns"; "class"; "style"];
    allow "path" ["d"; "fill"; "stroke"; "stroke-width"; "class"; "style"];
    allow "line"
      ["x1"; "y1"; "x2"; "y2"; "stroke"; "stroke-width"; "class"; "style"];
    allow "rect"
      ["x"; "y"; "width"; "height"; "rx"; "ry"; "fill"; "stroke";
       "stroke-width"; "class"; "style"];
    allow "circle"
      ["cx"; "cy"; "r"; "fill"; "stroke"; "stroke-width"; "class"; "style"];
    allow "g" ["transform"; "class"; "style"];
    allow "text" ["x"; "y"; "text-anchor"; "class"; "style"];
    allow "tspan" ["x"; "y"; "dx"; "dy"; "class"; "style"] ].

Section WithSanitizerDefaults.

(** [sanitizeHtml.defaults] belongs to the sanitize-html package, which is not
    part of the sources at hand: the default tag list and the default
    attribute table are arbitrary. *)
Variable defaultAllowedTags : list str.
Variable defaultAllowedAttributes : gmap str (list str).

(** The options object passed to [sanitizeHtml]; the spread of the default
    attribute table is followed by the page's own keys, which replace the
    default ones. *)
Definition sanitizeOptions : options :=
  {| allowedTags := defaultAllowedTags ++ extraTags;
     allowedAttributes :=
       foldl (fun mp kv => <[kv.1 := kv.2]> mp) defaultAllowedAttributes
             extraAttributes;
     allowedIframeHostnames := strs ["www.youtube.com"; "player.vimeo.com"];
     transformTags := {[ ("a" : str) := transformAnchor ]} |}.

End WithSanitizerDefaults.

(** *** The sanitizer

    The [sanitizeHtml] function belongs to the sanitize-html package, which
    is not part of the sources at hand.  Its contract in the specification is
    a strict allow-list filter: the output holds only allow-listed tags and,
    per tag, allow-listed attributes; what is not enumerated is dropped;
    embedded frames are restricted to the allowed host names; hyperlinks are
    rewritten by the tag transform, and the filter is the last step.  The
    definitions below follow that contract on parsed markup. *)

(** Modelled from the spec: the characters that end the host part of an
    address (URL parsing is missing from the sources). *)
Definition isHostEnd (c : ascii) : bool :=
  Ascii.eqb c "/"%char || Ascii.eqb c "?"%char || Ascii.eqb c "#"%char
  || Ascii.eqb c ":"%char.

(** Modelled from the spec: the leading part of a text up to the first
    character of a class (a helper of the missing URL parsing). *)
Fixpoint takeUntil (p : ascii -> bool) (s : str) : str :=
  match s with
  | c :: s' => if p c then [] else c :: takeUntil p s'
  | [] => []
  end.

(** Modelled from the spec: the host name of a frame source, i.e. the text
    after the first double slash up to the next path, query, fragment or port
    delimiter, in lower case (URL parsing is missing from the sources). *)
Definition hostnameOf (src : str) : option str :=
  match search "//" src with
  | Some k => Some (toLowerCase (takeUntil isHostEnd (drop (k + 2) src)))
  | None => None
  end.

(** Modelled from the spec: the host-name restriction of embedded frames,
    missing with the package; a frame is admitted when its source names one
    of the allowed hosts. *)
Definition frameAllowed (o : options) (at_ : attribs) : bool :=
  match at_ !! ("src" : str) with
  | Some src =>
      match hostnameOf src with
      | Some h => bool_decide (h ∈ allowedIframeHostnames o)
      | None => false
      end
  | None => true
  end.

(** Modelled from the spec: the per-tag attribute filter of the missing
    package; an attribute stays when the tag's list names it. *)
Definition keepAttributes (o : options) (tag : str) (at_ : attribs) : attribs :=
  filter (fun kv => kv.1 ∈ default [] (allowedAttributes o !! tag)) at_.

(** Modelled from the spec: the missing [sanitizeHtml] on one node.  The tag
    transform runs first; a tag outside the list is dropped and its
    sanitized content stays; a frame from another host is dropped
    altogether; an admitted tag keeps its allow-listed attributes. *)
Fixpoint sanitizeNode (o : options) (n : node) : list node :=
  match n with
  | Text t => [Text t]
  | Element tag at_ children =>
      let kids :=
        (fix go (l : list node) : list node :=
           match l with
           | [] => []
           | x :: l' => sanitizeNode o x ++ go l'
           end) children in
      let '(tag', at') :=
        match transformTags o !! tag with
        | Some f => f tag at_
        | None => (tag, at_)
        end in
      if negb (bool_decide (tag' ∈ allowedTags o)) then kids
      else if bool_decide (tag' = ("iframe" : str)) && negb (frameAllowed o at')
      then []
      else [Element tag' (keepAttributes o tag' at') kids]
  end.

(** Modelled from the spec: the missing [sanitizeHtml] on parsed markup. *)
Definition sanitizeNodes (o : options) (l : list node) : list node :=
  flat_map (sanitizeNode o) l.

(** The elements of a piece of markup, outermost first. *)
Fixpoint elementsOf (n : node) : list (str * attribs) :=
  match n with
  | Text _ => []
  | Element tag at_ children =>
      (tag, at_) ::
        (fix go (l : list node) : list (str * attribs) :=
           match l with
           | [] => []
           | x :: l' => elementsOf x ++ go l'
           end) children
  end.

Definition elements (l : list node) : list (str * attribs) :=
  flat_map elementsOf l.

(** *** Rendering the article body *)

(** A call either returns or throws. *)
Inductive result (A : Type) : Type :=
| Ok (a : A)
| Throw (e : str).
Arguments Ok {A} a.
Arguments Throw {A} e.

#[export] Instance result_ret : MRet result := fun A a => Ok a.
#[export] Instance result_bind : MBind result := fun A B f x =>
  match x with
  | Ok a => f a
  | Throw e => Throw e
  end.

(** What the content region shows: the sanitized markup, or the notice
    [Error loading content]. *)
Inductive element : Type :=
| ArticleHtml (html : str)
| ErrorNotice.

(** The region together with what was written to [console.error]. *)
Record rendered : Type := {
  region : element;
  consoleError : list str
}.

Section TryCatch.

(** The four steps of the [try] block, each of which may throw. *)
Variables resolveStep annotateStep decorateStep sanitizeStep : str -> result str.

Definition transformChain (a : article) : result str :=
  processedHtml ← (if isPreformatted a then Ok (htmlBody a)
                    else resolveStep (htmlBody a));
  processedHtml ← annotateStep processedHtml;
  processedHtml ← decorateStep processedHtml;
  sanitizeStep processedHtml.

Definition renderGuarded (a : article) : rendered :=
  match transformChain a with
  | Ok sanitizedHtml =>
      {| region := ArticleHtml sanitizedHtml; consoleError := [] |}
  | Throw error =>
      {| region := ErrorNotice; consoleError := [error] |}
  end.

End TryCatch.

(** *** Metadata and the page *)

Record openGraph : Type := {
  og_title : str;
  og_description : str;
  og_image : str;
  og_imageAlt : str;
  publishedTime : str;
  modifiedTime : str
}.

Record metadata : Type := {
  md_title : str;
  md_description : str;
  md_keywords : option (list str);
  md_openGraph : option openGraph
}.

Record blogPosting : Type := {
  headline : str;
  bp_description : str;
  bp_image : str;
  bp_caption : str;
  bp_datePublished : str;
  bp_dateModified : str;
  mainEntityOfPage : str;
  articleSection : str
}.

(** The regions of the rendered page, top to bottom. *)
Record page : Type := {
  articleScript : blogPosting;
  faqScript : option faqPage;
  productScript : option product;
  breadcrumbScript : list (nat * str * str);
  breadcrumbs : list (str * str);
  currentPage : str;
  headerTitle : str;
  headerPublished : str;
  headerUpdated : option str;
  featuredImage : str * str;
  intro : str;
  content : rendered;
  affiliate : option str
}.

(** [notFound()] leaves the page function; otherwise the page is returned. *)
Inductive response : Type :=
| NotFound
| Rendered (p : page).

Section WithExternals.

Variable getKeywords : bool -> list str.

(** [new Date(x).toLocaleDateString()]: the text shown for a stored date
    depends on the locale and the time zone of the runtime (and is
    [Invalid Date] for a text that is no date), so it is an arbitrary
    function of the stored text. *)
Variable toLocaleDateString : str -> str.

Variable defaultAllowedTags : list str.
Variable defaultAllowedAttributes : gmap str (list str).

(** [sanitizeHtml] itself, on strings; it may throw. *)
Variable sanitizeHtml : options -> str -> result str.

Variable typedBlogData : blogData.

Definition notFoundMetadata : metadata :=
  {| md_title := "Article Not Found";
     md_description := "The requested article could not be found";
     md_keywords := None;
     md_openGraph := None |}.

Definition generateMetadata (requested : str)
    (parentKeywords : option (list str)) : metadata :=
  match findArticle typedBlogData requested with
  | None => notFoundMetadata
  | Some a =>
      let previousKeywords := default [] parentKeywords in
      let articleKeywords := getKeywords (includes (mainCategorySlug a) "dog") in
      {| md_title := optOrElse (titleTag a) (pageTitle a);
         md_description := orElse (metaDescription a) (description a);
         md_keywords := Some (articleKeywords ++ previousKeywords);
         md_openGraph :=
           Some {| og_title := optOrElse (titleTag a) (pageTitle a);
                   og_description := orElse (metaDescription a) (description a);
                   og_image := featuredImageUrl a;
                   og_imageAlt := featuredImageAlt a;
                   publishedTime := datePublished a;
                   modifiedTime := orElse (dateModified a) (datePublished a) |} |}
  end.

Definition renderArticleContent (a : article) : rendered :=
  renderGuarded
    (fun html => Ok (parseInternalLinks typedBlogData html))
    (fun html => Ok (addAsteriskToTopPick html))
    (fun html => Ok (addHeadingClass html))
    (sanitizeHtml (sanitizeOptions defaultAllowedTags defaultAllowedAttributes))
    a.

Definition site : str := "https://petgadgetinsider.org".

Definition articlePage (a : article) (body : rendered) : page :=
  let categoryPath := "/blog/category/" ++ mainCategorySlug a in
  let subCategoryPath := categoryPath ++ "/" ++ subCategorySlug a in
  {| articleScript :=
       {| headline := pageTitle a;
          bp_description := orElse (metaDescription a) (description a);
          bp_image := featuredImageUrl a;
          bp_caption := featuredImageAlt a;
          bp_datePublished := datePublished a;
          bp_dateModified := orElse (dateModified a) (datePublished a);
          mainEntityOfPage := site ++ "/blog/" ++ slug a;
          articleSection := subCategoryName a |};
     faqScript := generateFAQSchema a;
     productScript := generateProductSchema getKeywords a;
     breadcrumbScript :=
       [ (1, "Home" : str, site);
         (2, "Pet Supplies Reviews" : str, site ++ "/blog");
         (3, mainCategoryName a, site ++ categoryPath);
         (4, subCategoryName a, site ++ subCategoryPath);
         (5, pageTitle a, site ++ "/blog/" ++ slug a) ];
     breadcrumbs :=
       [ ("/" : str, "Home" : str);
         ("/blog" : str, "Pet Supplies Reviews" : str);
         (categoryPath, mainCategoryName a);
         (subCategoryPath, subCategoryName a) ];
     currentPage := pageTitle a;
     headerTitle := pageTitle a;
     headerPublished := toLocaleDateString (datePublished a);
     headerUpdated :=
       if truthy (dateModified a)
       then Some (toLocaleDateString (dateModified a))
       else None;
     featuredImage := (featuredImageUrl a, featuredImageAlt a);
     intro := description a;
     content := body;
     affiliate :=
       match amazon_link a with
       | Some link => if truthy link then Some link else None
       | None => None
       end |}.

Definition BlogPostPage (requested : str) : response :=
  match findArticle typedBlogData requested with
  | None => NotFound
  | Some a => Rendered (articlePage a (renderArticleContent a))
  end.

End WithExternals.

End Page.

(** ** The search form ([src/components/SearchBar.tsx])

    The query is typed by the visitor, so it is modelled in full: a string is
    a list of UTF-16 code units, each a number below 65536, and may hold
    unpaired surrogates. *)

Module SearchBar.
Import Js Page.
Local Open Scope list_scope.
Local Open Scope N_scope.

Abbreviation ustr := (list N).

(** The code units of a string literal. *)
Definition unitsOf (s : string) : ustr :=
  map N_of_ascii (list_ascii_of_string s).

(** [WhiteSpace] and [LineTerminator]: TAB, LF, VT, FF, CR, SP, NBSP, the
    other space separators (U+1680, U+2000..U+200A, U+202F, U+205F, U+3000),
    the line and paragraph separators and the byte order mark. *)
Definition isWhiteSpace (u : N) : bool :=
  ((9 <=? u) && (u <=? 13)) || (u =? 32) || (u =? 0xA0) || (u =? 0x1680)
  || ((0x2000 <=? u) && (u <=? 0x200A)) || (u =? 0x2028) || (u =? 0x2029)
  || (u =? 0x202F) || (u =? 0x205F) || (u =? 0x3000) || (u =? 0xFEFF).

Fixpoint dropWhile (p : N -> bool) (s : ustr) : ustr :=
  match s with
  | c :: s' => if p c then dropWhile p s' else s
  | [] => []
  end.

(** [String.prototype.trim] *)
Definition trimStart (s : ustr) : ustr := dropWhile isWhiteSpace s.
Definition trimEnd (s : ustr) : ustr := rev (dropWhile isWhiteSpace (rev s)).
Definition trim (s : ustr) : ustr := trimEnd (trimStart s).

(** Truthiness of a string value: only the empty string is falsy. *)
Definition truthy (s : ustr) : bool :=
  match s with [] => false | _ :: _ => true end.

(** *** [encodeURIComponent]

    Letters, digits and the marks [- _ . ! ~ * ' ( )] stay.  Any other code
    unit is read as a code point, a leading surrogate together with the
    trailing surrogate after it, and written as the percent-escaped octets of
    the UTF-8 form of that code point; a surrogate without its partner makes
    the function throw [URIError]. *)
Definition isAlnum (u : N) : bool :=
  ((48 <=? u) && (u <=? 57)) || ((65 <=? u) && (u <=? 90))
  || ((97 <=? u) && (u <=? 122)).

Definition isMark (u : N) : bool := existsb (N.eqb u) (unitsOf "-_.!~*'()").

Definition isUnreserved (u : N) : bool := isAlnum u || isMark u.

Definition isLeadingSurrogate (u : N) : bool :=
  (0xD800 <=? u) && (u <=? 0xDBFF).
Definition isTrailingSurrogate (u : N) : bool :=
  (0xDC00 <=? u) && (u <=? 0xDFFF).

(** [UTF16SurrogatePairToCodePoint] *)
Definition codePoint (lead trail : N) : N :=
  (lead - 0xD800) * 0x400 + (trail - 0xDC00) + 0x10000.

(** The octets of the UTF-8 form of a code point. *)
Definition utf8 (cp : N) : list N :=
  if cp <? 0x80 then [cp]
  else if cp <? 0x800 then [0xC0 + cp / 0x40; 0x80 + cp mod 0x40]
  else if cp <? 0x10000
  then [0xE0 + cp / 0x1000; 0x80 + (cp / 0x40) mod 0x40; 0x80 + cp mod 0x40]
  else [0xF0 + cp / 0x40000; 0x80 + (cp / 0x1000) mod 0x40;
        0x80 + (cp / 0x40) mod 0x40; 0x80 + cp mod 0x40].

(** An upper-case hexadecimal digit. *)
Definition hexDigit (n : N) : N := if n <? 10 then 48 + n else 55 + n.

(** [%XX] *)
Definition percent (octet : N) : ustr :=
  [37; hexDigit (octet / 16); hexDigit (octet mod 16)].

Definition escape (cp : N) : ustr := flat_map percent (utf8 cp).

Definition uriError : str := "URIError: URI malformed".

Fixpoint encodeURIComponent (s : ustr) : result ustr :=
  match s with
  | [] => Ok []
  | c :: rest =>
      if isUnreserved c then
        match encodeURIComponent rest with
        | Ok r => Ok (c :: r)
        | Throw e => Throw e
        end
      else if isTrailingSurrogate c then Throw uriError
      else if isLeadingSurrogate c then
        match rest with
        | d :: rest' =>
            if isTrailingSurrogate d then
              match encodeURIComponent rest' with
              | Ok r => Ok (escape (codePoint c d) ++ r)
              | Throw e => Throw e
              end
            else Throw uriError
        | [] => Throw uriError
        end
      else
        match encodeURIComponent rest with
        | Ok r => Ok (escape c ++ r)
        | Throw e => Throw e
        end
  end.

(** *** The component state and the submit handler *)

Record state : Type := {
  query : ustr;
  isLoading : bool
}.

(** What a run of [handleSearch] leaves behind: the state after the batched
    updates, the paths with which [router.push] was called, the errors
    written to [console.error] and the values given to [setIsLoading], in
    order. *)
Record effects : Type := {
  final : state;
  pushed : list ustr;
  logged : list str;
  loadingUpdates : list bool
}.

Section WithRouter.

(** [router.push] of the framework; it may throw. *)
Variable push : ustr -> result unit.

(** The argument of [router.push] is evaluated inside the [try], so an error
    of [encodeURIComponent] is caught like one of the router, and the router
    is then not called. *)
Definition handleSearch (st : state) : effects :=
  let trimmedQuery := trim (query st) in
  if truthy trimmedQuery then
    let after := {| query := query st; isLoading := false |} in
    match encodeURIComponent trimmedQuery with
    | Throw error =>
        {| final := after; pushed := []; logged := [error];
           loadingUpdates := [true; false] |}
    | Ok encoded =>
        let target := unitsOf "/search?q=" ++ encoded in
        match push target with
        | Ok _ =>
            {| final := after; pushed := [target]; logged := [];
               loadingUpdates := [true; false] |}
        | Throw error =>
            {| final := after; pushed := [target]; logged := [error];
               loadingUpdates := [true; false] |}
        end
    end
  else
    {| final := st; pushed := []; logged := []; loadingUpdates := [] |}.

End WithRouter.

End SearchBar.
(** * Vocabulary of the properties and sample inputs *)

Import Js Regex Page.
Local Open Scope string_scope.
Local Open Scope list_scope.

Definition allSpace (w : str) : Prop := Forall (fun c => isWhiteSpace c = true) w.

(** A requested slug that is a stored slug up to letter case and surrounding
    white space. *)
Definition variantOf (requested stored : str) : Prop :=
  exists w1 core w2,
    requested = w1 ++ core ++ w2 /\ allSpace w1 /\ allSpace w2
    /\ toLowerCase core = toLowerCase stored.

(** Sample data used to run the lemmas on concrete inputs. *)
Definition sampleArticle : article :=
  {| slug := "Best-Feeder";
     pageTitle := "Best Feeder";
     description := "A review";
     metaDescription := "";
     featuredImageUrl := "/images/f.png";
     featuredImageAlt := "feeder";
     mainCategorySlug := "dog-feeders";
     mainCategoryName := "Dog Feeders";
     subCategorySlug := "timers";
     subCategoryName := "Timers";
     htmlBody := "<h2>Intro</h2><p>hello</p>";
     isPreformatted := false;
     amazon_link := Some ("https://www.amazon.com/dp/B0B1TMLL3F" : str);
     datePublished := "2025-01-01";
     dateModified := "";
     featuredImageHint := None;
     titleTag := None;
     articleAuthor := None |}.

Definition sampleData : blogData :=
  {| articles := [sampleArticle];
     internalLinks :=
       Some [ {| id := "about"; url := "/about"; text := "About Us" |} ] |}.

Definition sampleKeywords (dog : bool) : list str :=
  if dog then strs ["dog feeder"; "pet"] else strs ["cat feeder"; "pet"].

(** A date formatter for running the lemmas: the two dates of the samples in
    a day-month-year form, any other text as no date. *)
Definition sampleDate (stored : str) : str :=
  if bool_decide (stored = ("2025-01-01" : str)) then "1 Jan 2025"
  else if bool_decide (stored = ("2025-02-03" : str)) then "3 Feb 2025"
  else "Invalid Date".

(** A sanitizer that always throws, and one that returns its input. *)
Definition failingSanitizer (_ : options) (_ : str) : result str :=
  Throw "sanitizer failure".

Definition identitySanitizer (_ : options) (html : str) : result str :=
  Ok html.

Definition errorRegion (e : str) : rendered :=
  {| region := ErrorNotice; consoleError := [e] |}.

(** Some step of the chain throws [e]: the link resolution, or a later step
    on the text its predecessors returned. *)
Section Steps.

Variables resolveStep annotateStep decorateStep sanitizeStep : str -> result str.

Definition entry (a : article) : result str :=
  if isPreformatted a then Ok (htmlBody a) else resolveStep (htmlBody a).

Definition someStepThrows (a : article) (e : str) : Prop :=
  entry a = Throw e
  \/ (exists h1, entry a = Ok h1 /\ annotateStep h1 = Throw e)
  \/ (exists h1 h2,
        entry a = Ok h1 /\ annotateStep h1 = Ok h2 /\ decorateStep h2 = Throw e)
  \/ (exists h1 h2 h3,
        entry a = Ok h1 /\ annotateStep h1 = Ok h2 /\ decorateStep h2 = Ok h3
        /\ sanitizeStep h3 = Throw e).

End Steps.

(** The regions of the page [p] of article [a] around the content region,
    as they are on every render: the three structured-data scripts, the
    breadcrumbs (script and trail), the header with title and dates, the
    featured image, the introduction and the affiliate block. *)
Definition aroundContent (getKeywords : bool -> list str)
    (toLocaleDateString : str -> str) (a : article) (p : page) : Prop :=
  let home : str := "https://petgadgetinsider.org" in
  let category : str := "/blog/category/" ++ mainCategorySlug a in
  let subCategory : str := category ++ "/" ++ subCategorySlug a in
  articleScript p
    = {| headline := pageTitle a;
         bp_description := orElse (metaDescription a) (description a);
         bp_image := featuredImageUrl a;
         bp_caption := featuredImageAlt a;
         bp_datePublished := datePublished a;
         bp_dateModified := orElse (dateModified a) (datePublished a);
         mainEntityOfPage := home ++ "/blog/" ++ slug a;
         articleSection := subCategoryName a |}
  /\ faqScript p = generateFAQSchema a
  /\ productScript p = generateProductSchema getKeywords a
  /\ breadcrumbScript p
       = [ (1, "Home" : str, home);
           (2, "Pet Supplies Reviews" : str, home ++ "/blog");
           (3, mainCategoryName a, home ++ category);
           (4, subCategoryName a, home ++ subCategory);
           (5, pageTitle a, home ++ "/blog/" ++ slug a) ]
  /\ breadcrumbs p
       = [ ("/" : str, "Home" : str);
           ("/blog" : str, "Pet Supplies Reviews" : str);
           (category, mainCategoryName a);
           (subCategory, subCategoryName a) ]
  /\ currentPage p = pageTitle a
  /\ headerTitle p = pageTitle a
  /\ headerPublished p = toLocaleDateString (datePublished a)
  /\ (headerUpdated p
        = if truthy (dateModified a)
          then Some (toLocaleDateString (dateModified a)) else None)
  /\ featuredImage p = (featuredImageUrl a, featuredImageAlt a)
  /\ intro p = description a
  /\ (affiliate p
        = match amazon_link a with
          | Some link => if truthy link then Some link else None
          | None => None
          end).

(** The tag transform as the sanitizer applies it to one element. *)
Definition applyTransform (o : options) (tag : str) (at_ : attribs)
    : str * attribs :=
  match transformTags o !! tag with
  | Some f => f tag at_
  | None => (tag, at_)
  end.

(** The text nodes of a piece of markup, in document order. *)
Fixpoint textsOf (n : node) : list str :=
  match n with
  | Text t => [t]
  | Element _ _ children =>
      (fix go (l : list node) : list str :=
         match l with
         | [] => []
         | x :: l' => textsOf x ++ go l'
         end) children
  end.

Definition texts (l : list node) : list str := flat_map textsOf l.

(** Modelled from the spec: the missing [sanitizeHtml] on strings, which is
    the filter between the parser and the serializer of the package; the two
    are arbitrary functions here. *)
Definition sanitizeWith (parseHtml : str -> list node)
    (serialize : list node -> str) (o : options) (html : str) : result str :=
  Ok (serialize (sanitizeNodes o (parseHtml html))).

(** The text the page hands to the sanitizer. *)
Definition processedHtml (data : blogData) (a : article) : str :=
  addHeadingClass (addAsteriskToTopPick
    (if isPreformatted a then htmlBody a
     else parseInternalLinks data (htmlBody a))).

(** An external-looking address: one that begins with the text [http]. *)
Definition externalHref (href : str) : bool :=
  truthy href && startsWith href "http".

(** A default tag list without frames, for running the lemmas. *)
Definition sampleDefaultTags : list str :=
  strs ["p"; "a"; "h2"; "div"; "span"; "table"; "tr"; "td"; "ul"; "li"].

Definition youtubeAttribs : attribs :=
  <[("src" : str) := ("https://www.youtube.com/embed/abc" : str)]>
    (<[("width" : str) := ("560" : str)]>
       (<[("height" : str) := ("315" : str)]> ∅)).

Definition youtubeFrame : node := Element "iframe" youtubeAttribs [].

Definition sampleMarkup : list node :=
  [ Element "marquee" ∅
      [ Element "a"
          (<[("href" : str) := ("https://example.com/x" : str)]>
             (<[("onclick" : str) := ("steal()" : str)]> ∅))
          [Text "shop"] ] ].

Definition sampleAnchorAttribs : attribs :=
  <[("target" : str) := ("_blank" : str)]>
    (<[("rel" : str) := ("noopener noreferrer nofollow" : str)]>
       (<[("href" : str) := ("https://example.com/x" : str)]> ∅)).

(** The attributes of an anchor that has nothing but its address. *)
Definition linkTo (href : string) : attribs :=
  {[ ("href" : str) := (href : str) ]}.

(** A link table with an id of two words. *)
Definition spacedData : blogData :=
  {| articles := [];
     internalLinks :=
       Some [ {| id := "about us"; url := "/about-us"; text := "About Us" |};
              {| id := "about"; url := "/about"; text := "About" |} ] |}.

(** *** Vocabulary for patterns *)

(** [l'] is the text [l] up to the canonical comparison of the [i] flag. *)
Definition sameText (ic : bool) (l' l : str) : Prop :=
  Forall2 (fun c a => eqChar ic c a = true) l' l.

Definition allOf (p : ascii -> bool) (w : str) : Prop :=
  Forall (fun c => p c = true) w.

(** The text [s] does not continue a run of [p]. *)
Definition stops (p : ascii -> bool) (s : str) : Prop :=
  match s with
  | [] => True
  | c :: _ => p c = false
  end.

(** No match of [r] begins inside [pre] when [pre] is followed by [rest]. *)
Definition clearOf (ic : bool) (r : regex) (pre rest : str) : Prop :=
  forall p1 c p2, pre = p1 ++ c :: p2 -> exec ic r (c :: p2 ++ rest) = None.

(** The shapes of an internal-link placeholder: the tag name in any letter
    case, white space, [id=] in any letter case, the id between two equal
    quotes or without quotes, optional white space. *)
Record shape : Type := {
  tagText : str;
  gap : str;
  keyText : str;
  quote : str;
  idText : str;
  tail : str
}.

Definition wellFormed (p : shape) : Prop :=
  sameText true (tagText p) "<InternalLink"
  /\ gap p <> [] /\ allOf isWhiteSpace (gap p)
  /\ sameText true (keyText p) "id="
  /\ (quote p = [] \/ quote p = [dq] \/ quote p = ["'"%char])
  /\ idText p <> [] /\ allOf isIdChar (idText p)
  /\ allOf isWhiteSpace (tail p).

(** The opening of a placeholder, up to and including the closing quote and
    the white space after it. *)
Definition opening (p : shape) : str :=
  tagText p ++ gap p ++ keyText p ++ quote p ++ idText p ++ quote p ++ tail p.

(** With the self-closing slash, and without it. *)
Definition placeholder (p : shape) : str := opening p ++ "/>".
Definition unclosed (p : shape) : str := opening p ++ ">".

(** What a placeholder with id [i] resolves to. *)
Definition resolution (data : blogData) (i : str) : str :=
  resolveLink (linkMap (default [] (internalLinks data))) i.

Definition aboutShape : shape :=
  {| tagText := "<InternalLink"; gap := " "; keyText := "id=";
     quote := [dq]; idText := "about"; tail := [] |}.

Definition bareShape : shape :=
  {| tagText := "<internallink"; gap := "  "; keyText := "ID=";
     quote := []; idText := "Missing/Page"; tail := [] |}.

(** Number of places at which [needle] occurs in [s]. *)
Fixpoint occurrences (needle s : str) : nat :=
  (if startsWith s needle then 1 else 0)
  + match s with
    | [] => 0
    | _ :: s' => occurrences needle s'
    end.

(** The class declaration the decorator writes. *)
Definition headingClass : str := " class=" ++ quoted "blog-heading".

Definition articleWithBody (body : str) : article :=
  {| slug := slug sampleArticle;
     pageTitle := pageTitle sampleArticle;
     description := description sampleArticle;
     metaDescription := metaDescription sampleArticle;
     featuredImageUrl := featuredImageUrl sampleArticle;
     featuredImageAlt := featuredImageAlt sampleArticle;
     mainCategorySlug := mainCategorySlug sampleArticle;
     mainCategoryName := mainCategoryName sampleArticle;
     subCategorySlug := subCategorySlug sampleArticle;
     subCategoryName := subCategoryName sampleArticle;
     htmlBody := body;
     isPreformatted := false;
     amazon_link := None;
     datePublished := datePublished sampleArticle;
     dateModified := dateModified sampleArticle;
     featuredImageHint := None;
     titleTag := None;
     articleAuthor := None |}.

(** The end of the placeholder pattern: the back-reference to the quote, white
    space and the closing [/>]. *)
Definition closing : regex :=
  Seq (Backref 1) (Seq (Star true isWhiteSpace) (Lit "/>")).

(** The part of the placeholder pattern after [id=]. *)
Definition afterKey : regex :=
  Seq (Group 1 (Opt (Cls isQuote))) (Seq (Group 2 (Plus isIdChar)) closing).

(** *** What a pattern accepts

    [Matches ic r cs s cs'] says that the pattern [r] accepts exactly the
    text [s], turning the captures [cs] into [cs']. *)
Fixpoint Matches (ic : bool) (r : regex) (cs : caps) (s : str) (cs' : caps)
    : Prop :=
  match r with
  | Lit l => sameText ic s l /\ cs' = cs
  | Cls p => (exists c, s = [c] /\ p c = true) /\ cs' = cs
  | Seq r1 r2 =>
      exists s1 s2 cs1,
        s = s1 ++ s2 /\ Matches ic r1 cs s1 cs1 /\ Matches ic r2 cs1 s2 cs'
  | Opt r1 => (s <> [] /\ Matches ic r1 cs s cs') \/ (s = [] /\ cs' = cs)
  | Star _ p => allOf p s /\ cs' = cs
  | Group n r1 => exists cs1, Matches ic r1 cs s cs1 /\ cs' = <[n := s]> cs1
  | Backref n =>
      match cs !! n with
      | None => s = []
      | Some t => sameText ic s t
      end /\ cs' = cs
  end.

(** The text a list of scan pieces was read from. *)
Definition sourceOf (ps : list piece) : str :=
  flat_map (fun p => match p with
                     | Keep c => [c]
                     | Hit mt _ => mt
                     end) ps.

(** The output of the resolver for a list of scan pieces. *)
Definition resolvePieces (data : blogData) (ps : list piece) : str :=
  flat_map (fun p => match p with
                     | Keep c => [c]
                     | Hit _ cs => resolution data (default [] (cs !! 2))
                     end) ps.

(** Characters that are neither quotes, white space, [<], [>] nor [/]. *)
Definition plainChar (c : ascii) : bool :=
  isIdChar c && negb (Ascii.eqb c "<"%char) && negb (Ascii.eqb c "/"%char).

Definition notLt (c : ascii) : bool := negb (Ascii.eqb c "<"%char).

(** *** Vocabulary for the FAQ extraction *)

(** A body cut at its headings: the text before the first heading, then each
    heading with the text that follows it. *)
Definition bodyOf (lead : str) (segs : list (str * str)) : str :=
  lead ++ flat_map (fun hb => hb.1 ++ hb.2) segs.

(** The position at which the [i]-th heading begins. *)
Definition offsetOf (lead : str) (segs : list (str * str)) (i : nat) : nat :=
  length (bodyOf lead (take i segs)).

(** The item a heading and the text after it give, if any. *)
Definition faqOf (hb : str * str) : option question :=
  let answerContent := trim (collapseSpaces (stripTags " " hb.2)) in
  if truthy answerContent
  then Some (mkQuestion (trim (stripTags "" hb.1)) answerContent)
  else None.

(** Every heading text occurs in the body for the first time at the place of
    its own heading. *)
Definition firstAtOwnPlace (lead : str) (segs : list (str * str)) : Prop :=
  forall i hb, segs !! i = Some hb ->
    indexOf (bodyOf lead segs) hb.1 0 = Z.of_nat (offsetOf lead segs i).

(** The example body of the specification, cut at its headings. *)
Definition exampleSegs : list (str * str) :=
  [ ("<h2>Intro</h2>" : str, "<p>hello</p>" : str);
    ("<h2>FAQ</h2>" : str, "<p>ans</p>" : str) ].

(** Two articles whose slugs agree up to letter case: the second one is
    shadowed by the first. *)
Definition shadowedData : blogData :=
  {| articles := [sampleArticle; articleWithBody "<p>second</p>"];
     internalLinks := None |}.

(** A scan piece of the resolver is a kept character or a well-formed
    placeholder with its id in group 2. *)
Definition placeholderPiece (pc : piece) : Prop :=
  match pc with
  | Keep _ => True
  | Hit mt cs =>
      exists p, wellFormed p /\ mt = placeholder p /\ cs !! 2 = Some (idText p)
  end.

Definition noLt (s : str) : Prop := Forall (fun c => c <> "<"%char) s.

(** The phrase the annotator looks for. *)
Definition topPickPhrase : str := "Pet Gadget Insider's Top Pick".

(** The annotator's output for a list of scan pieces. *)
Definition annotatePieces (ps : list piece) : str :=
  flat_map (fun p => match p with
                     | Keep c => [c]
                     | Hit mt _ => mt ++ "*"
                     end) ps.

(** The attribute text of an opening tag: nothing, or white space followed
    by anything but [>]. *)
Definition attributeText (attrs : str) : Prop :=
  allOf notGt attrs /\ match attrs with
                       | [] => True
                       | c :: _ => isWhiteSpace c = true
                       end.

(** *** Normal form of extracted text *)

(** Every white-space character is a single space followed by something that
    is not white space. *)
Fixpoint singleSpaced (s : str) : Prop :=
  match s with
  | [] => True
  | c :: s' =>
      (isWhiteSpace c = true -> c = " "%char /\ stops isWhiteSpace s')
      /\ singleSpaced s'
  end.

(** No white space at either end. *)
Definition trimmed (s : str) : Prop :=
  stops isWhiteSpace s /\ stops isWhiteSpace (rev s).

Definition normalizedText (s : str) : Prop :=
  s <> [] /\ trimmed s /\ singleSpaced s.

(** *** Headings *)

(** No part of [s] begins with the text [l], compared as under the [i]
    flag. *)
Fixpoint freeOf (l s : str) : bool :=
  match eat true l s with
  | Some _ => false
  | None =>
      match s with
      | [] => true
      | _ :: s' => freeOf l s'
      end
  end.

(** A heading as it is written in a body: the opening tag name, the
    attribute text, the text between the tags and the closing tag. *)
Record headingShape : Type := {
  openText : str;
  attrText : str;
  innerText : str;
  closeText : str
}.

Definition headingText (h : headingShape) : str :=
  openText h ++ attrText h ++ ">" ++ innerText h ++ closeText h.

(** The tag names in any letter case, no [>] in the attribute text, no line
    break and no closing tag between the tags. *)
Definition wellFormedHeading (h : headingShape) : Prop :=
  sameText true (openText h) "<h2"
  /\ allOf notGt (attrText h)
  /\ allOf dot (innerText h)
  /\ freeOf "</h2>" (innerText h) = true
  /\ sameText true (closeText h) "</h2>".

(** The headings of a body with the text after each of them. *)
Definition cut (hs : list (headingShape * str)) : list (str * str) :=
  map (fun ha => (headingText ha.1, ha.2)) hs.

Definition exampleHeadings : list (headingShape * str) :=
  [ ({| openText := "<H2"; attrText := " id=" ++ quoted "q1";
        innerText := "Is it <em>safe</em>?"; closeText := "</H2>" |},
     "<p>Yes,   for <b>most</b> pets.</p><h3>Note</h3>" : str);
    ({| openText := "<h2"; attrText := []; innerText := "Empty";
        closeText := "</h2>" |},
     " <br> " : str);
    ({| openText := "<h2"; attrText := []; innerText := "How long?";
        closeText := "</h2>" |},
     "<p>Two weeks.</p>" : str) ].

(** An anchor that already carries a relation of its own. *)
Definition sponsoredAnchor : attribs :=
  <[("href" : str) := ("https://example.com/x" : str)]>
    (<[("rel" : str) := ("sponsored" : str)]>
       (<[("class" : str) := ("cta" : str)]> ∅)).

(** A default attribute table with an image entry, for running the lemmas. *)
Definition sampleDefaultAttributes : gmap str (list str) :=
  <[("img" : str) := strs ["src"; "srcset"; "alt"; "title"; "loading"]]>
    (<[("p" : str) := strs ["lang"]]> ∅).

Definition preformattedArticle : article :=
  {| slug := slug sampleArticle;
     pageTitle := pageTitle sampleArticle;
     description := description sampleArticle;
     metaDescription := metaDescription sampleArticle;
     featuredImageUrl := featuredImageUrl sampleArticle;
     featuredImageAlt := featuredImageAlt sampleArticle;
     mainCategorySlug := mainCategorySlug sampleArticle;
     mainCategoryName := mainCategoryName sampleArticle;
     subCategorySlug := subCategorySlug sampleArticle;
     subCategoryName := subCategoryName sampleArticle;
     htmlBody := placeholder aboutShape;
     isPreformatted := true;
     amazon_link := None;
     datePublished := datePublished sampleArticle;
     dateModified := dateModified sampleArticle;
     featuredImageHint := None;
     titleTag := None;
     articleAuthor := None |}.

(** An article that was updated after its publication. *)
Definition updatedArticle : article :=
  {| slug := "feeder-update";
     pageTitle := pageTitle sampleArticle;
     description := description sampleArticle;
     metaDescription := metaDescription sampleArticle;
     featuredImageUrl := featuredImageUrl sampleArticle;
     featuredImageAlt := featuredImageAlt sampleArticle;
     mainCategorySlug := mainCategorySlug sampleArticle;
     mainCategoryName := mainCategoryName sampleArticle;
     subCategorySlug := subCategorySlug sampleArticle;
     subCategoryName := subCategoryName sampleArticle;
     htmlBody := htmlBody sampleArticle;
     isPreformatted := false;
     amazon_link := None;
     datePublished := "2025-01-01";
     dateModified := "2025-02-03";
     featuredImageHint := None;
     titleTag := None;
     articleAuthor := None |}.

Definition updatedData : blogData :=
  {| articles := [updatedArticle]; internalLinks := None |}.

(** *** Vocabulary for the search form *)

(** A string of UTF-16 code units: every unit is below 65536. *)
Definition utf16 (s : SearchBar.ustr) : Prop := Forall (fun u => (u < 0x10000)%N) s.

Definition blank (s : SearchBar.ustr) : Prop :=
  Forall (fun u => SearchBar.isWhiteSpace u = true) s.

(** The code units an encoded component is made of. *)
Definition urlSafe (u : N) : bool := SearchBar.isUnreserved u || (u =? 37)%N.

(** Code units that would end or split the query parameter. *)
Definition isDelimiter (u : N) : bool :=
  SearchBar.isWhiteSpace u || existsb (N.eqb u) (SearchBar.unitsOf "&#?=/+").

(** The value of a hexadecimal digit, and of two of them. *)
Definition hexValue (h : N) : N := (if h <? 58 then h - 48 else h - 55)%N.
Definition octetOf (h1 h2 : N) : N := (16 * hexValue h1 + hexValue h2)%N.

(** Reading back the first escape or plain unit of an encoded component: the
    code units it stands for and the rest of the text.  The first octet tells
    how many octets belong together; a code point above U+FFFF is split into
    its surrogates again. *)
Definition decodeHead (e : SearchBar.ustr)
    : option (SearchBar.ustr * SearchBar.ustr) :=
  match e with
  | [] => None
  | c :: rest =>
      if (c =? 37)%N then
        match rest with
        | h1 :: h2 :: r1 =>
            let b1 := octetOf h1 h2 in
            if (b1 <? 0x80)%N then Some ([b1], r1)
            else
              match r1 with
              | _ :: h3 :: h4 :: r2 =>
                  let b2 := octetOf h3 h4 in
                  if (b1 <? 0xE0)%N
                  then Some ([(b1 - 0xC0) * 0x40 + (b2 - 0x80)]%N, r2)
                  else
                    match r2 with
                    | _ :: h5 :: h6 :: r3 =>
                        let b3 := octetOf h5 h6 in
                        if (b1 <? 0xF0)%N
                        then Some ([(b1 - 0xE0) * 0x1000 + (b2 - 0x80) * 0x40
                                    + (b3 - 0x80)]%N, r3)
                        else
                          match r3 with
                          | _ :: h7 :: h8 :: r4 =>
                              let b4 := octetOf h7 h8 in
                              let cp := ((b1 - 0xF0) * 0x40000
                                         + (b2 - 0x80) * 0x1000
                                         + (b3 - 0x80) * 0x40 + (b4 - 0x80))%N in
                              Some ([0xD800 + (cp - 0x10000) / 0x400;
                                     0xDC00 + (cp - 0x10000) mod 0x400]%N, r4)
                          | _ => None
                          end
                    | _ => None
                    end
              | _ => None
              end
        | _ => None
        end
      else Some ([c], rest)
  end.

Fixpoint unescape (steps : nat) (e : SearchBar.ustr) : SearchBar.ustr :=
  match steps with
  | O => []
  | S n =>
      match decodeHead e with
      | Some (units, rest) => units ++ unescape n rest
      | None => []
      end
  end.

Definition idle (st : SearchBar.state) : SearchBar.effects :=
  {| SearchBar.final := st; SearchBar.pushed := [];
     SearchBar.logged := []; SearchBar.loadingUpdates := [] |}.

Definition failingPush (_ : SearchBar.ustr) : result unit :=
  Throw "navigation failed".
Definition workingPush (_ : SearchBar.ustr) : result unit := Ok tt.

Definition typed (q : SearchBar.ustr) : SearchBar.state :=
  {| SearchBar.query := q; SearchBar.isLoading := false |}.

(** A query that ends in a leading surrogate without its partner. *)
Definition brokenQuery : SearchBar.ustr :=
  SearchBar.unitsOf "toy " ++ [0xD83D%N].

(** The query [cat], a space and U+1F408 (a surrogate pair), with white space
    around it. *)
Definition catQuery : SearchBar.ustr :=
  [0x2003; 0x63; 0x61; 0x74; 0x20; 0xD83D; 0xDC08; 0x0A]%N.
(** * Properties *)

(** A decidable closed statement, settled by evaluation. *)
Ltac decide_by_compute := apply (bool_decide_unpack _); vm_compute; exact I.

(** ** Strings *)

Section StringFacts.

Lemma lowerChar_space c : isWhiteSpace (lowerChar c) = isWhiteSpace c.
Proof. destruct c as [[] [] [] [] [] [] [] []]; reflexivity. Qed.

Lemma dropWhile_lower s :
  dropWhile isWhiteSpace (toLowerCase s) = toLowerCase (dropWhile isWhiteSpace s).
Proof.
  induction s as [|c s IH]; simpl; [done|].
  rewrite lowerChar_space. destruct (isWhiteSpace c); [apply IH | done].
Qed.

Lemma trim_lower s : trim (toLowerCase s) = toLowerCase (trim s).
Proof.
  unfold trim, trimEnd, trimStart.
  rewrite (dropWhile_lower s). unfold toLowerCase at 1. rewrite <- map_rev.
  fold (toLowerCase (rev (dropWhile isWhiteSpace s))).
  rewrite dropWhile_lower. unfold toLowerCase. by rewrite map_rev.
Qed.

Lemma dropWhile_allSpace w s :
  allSpace w -> dropWhile isWhiteSpace (w ++ s) = dropWhile isWhiteSpace s.
Proof.
  induction 1 as [|c w Hc _ IH]; simpl; [done|]. by rewrite Hc.
Qed.

Lemma dropWhile_app_keep s w :
  dropWhile isWhiteSpace s <> [] ->
  dropWhile isWhiteSpace (s ++ w) = dropWhile isWhiteSpace s ++ w.
Proof.
  induction s as [|c s IH]; simpl; [done|].
  destruct (isWhiteSpace c); [apply IH | done].
Qed.

Lemma dropWhile_all s w :
  dropWhile isWhiteSpace s = [] -> allSpace w ->
  dropWhile isWhiteSpace (s ++ w) = [].
Proof.
  induction s as [|c s IH]; simpl.
  - intros _ Hw. rewrite <- (app_nil_r w). rewrite dropWhile_allSpace; done.
  - destruct (isWhiteSpace c); [apply IH | done].
Qed.

Lemma trimEnd_allSpace s w : allSpace w -> trimEnd (s ++ w) = trimEnd s.
Proof.
  intros Hw. unfold trimEnd. rewrite rev_app_distr.
  rewrite dropWhile_allSpace; [done|]. by apply Forall_rev.
Qed.

(** Padding a text with white space on either side does not change its
    trimmed form. *)
Lemma trim_padding w1 s w2 :
  allSpace w1 -> allSpace w2 -> trim (w1 ++ s ++ w2) = trim s.
Proof.
  intros H1 H2. unfold trim, trimStart. rewrite dropWhile_allSpace by done.
  destruct (dropWhile isWhiteSpace s) as [|c t] eqn:E.
  - by rewrite dropWhile_all.
  - rewrite dropWhile_app_keep by (rewrite E; done).
    rewrite E. by apply trimEnd_allSpace.
Qed.

End StringFacts.

(** ** Article lookup *)

Lemma normalizeSlug_variant requested stored :
  variantOf requested stored -> normalizeSlug requested = normalizeSlug stored.
Proof.
  intros (w1 & core & w2 & -> & H1 & H2 & Hc). unfold normalizeSlug.
  rewrite trim_padding by done. by rewrite <- !trim_lower, Hc.
Qed.

Lemma findArticle_Some data requested a :
  findArticle data requested = Some a ->
  a ∈ articles data /\ normalizeSlug (slug a) = normalizeSlug requested.
Proof.
  unfold findArticle. intros H. apply find_some in H as [Hin Hb].
  split; [by apply list_elem_of_In | by apply bool_decide_eq_true in Hb].
Qed.

Lemma findArticle_None data requested :
  findArticle data requested = None ->
  forall a, a ∈ articles data ->
            normalizeSlug (slug a) <> normalizeSlug requested.
Proof.
  unfold findArticle. intros H a Hin Heq.
  apply list_elem_of_In in Hin.
  pose proof (find_none _ _ H a Hin) as Hb. simpl in Hb.
  by apply bool_decide_eq_false in Hb.
Qed.

Lemma findArticle_iff data requested :
  is_Some (findArticle data requested) <->
  exists a, a ∈ articles data
            /\ normalizeSlug (slug a) = normalizeSlug requested.
Proof.
  split.
  - intros [a Ha]. exists a. by apply findArticle_Some.
  - intros (a & Hin & Heq).
    destruct (findArticle data requested) eqn:E; [by eexists|].
    by destruct (findArticle_None _ _ E a Hin).
Qed.

(** C10: the lookup compares the trimmed, lower-cased requested slug with the
    trimmed, lower-cased stored slugs.  It succeeds exactly when some stored
    slug agrees with the request after that normalization, the article found
    is such an article, a request that differs from a stored slug only in
    letter case or surrounding white space is found, and without a match the
    page answers not-found and the metadata is the "Article Not Found"
    fallback.  The page and the metadata use that lookup: for a found article
    the page is the article's page and the metadata is the article's, not the
    fallback; so a request that is a stored slug up to letter case and
    surrounding white space gets a page and proper metadata. *)
Theorem C10_slug_lookup_normalized
    (getKeywords : bool -> list str) (toLocaleDateString : str -> str)
    (dTags : list str) (dAttrs : gmap str (list str))
    (sanitizeHtml : options -> str -> result str)
    (data : blogData) (requested : str) :
  (is_Some (findArticle data requested) <->
     exists a, a ∈ articles data
               /\ toLowerCase (trim (slug a)) = toLowerCase (trim requested))
  /\ (forall a, findArticle data requested = Some a ->
        a ∈ articles data
        /\ toLowerCase (trim (slug a)) = toLowerCase (trim requested))
  /\ (forall a, a ∈ articles data -> variantOf requested (slug a) ->
        is_Some (findArticle data requested))
  /\ (findArticle data requested = None ->
        BlogPostPage getKeywords toLocaleDateString dTags dAttrs sanitizeHtml
          data requested = NotFound
        /\ forall parentKeywords,
             generateMetadata getKeywords data requested parentKeywords
               = notFoundMetadata
             /\ md_title notFoundMetadata = "Article Not Found")
  /\ (forall a, findArticle data requested = Some a ->
        (exists p,
           BlogPostPage getKeywords toLocaleDateString dTags dAttrs
             sanitizeHtml data requested = Rendered p
           /\ headerTitle p = pageTitle a
           /\ headline (articleScript p) = pageTitle a
           /\ mainEntityOfPage (articleScript p)
                = "https://petgadgetinsider.org/blog/" ++ slug a
           /\ intro p = description a
           /\ content p
                = renderArticleContent dTags dAttrs sanitizeHtml data a)
        /\ forall parentKeywords,
             let md :=
               generateMetadata getKeywords data requested parentKeywords in
             md_title md = optOrElse (titleTag a) (pageTitle a)
             /\ md_description md
                  = orElse (metaDescription a) (description a)
             /\ (exists og, md_openGraph md = Some og
                            /\ og_image og = featuredImageUrl a
                            /\ publishedTime og = datePublished a)
             /\ md <> notFoundMetadata)
  /\ ((exists a, a ∈ articles data /\ variantOf requested (slug a)) ->
        BlogPostPage getKeywords toLocaleDateString dTags dAttrs sanitizeHtml
          data requested <> NotFound
        /\ forall parentKeywords,
             generateMetadata getKeywords data requested parentKeywords
               <> notFoundMetadata).
Proof.
  split; [apply findArticle_iff|].
  split; [apply findArticle_Some|].
  assert (Hv : forall a, a ∈ articles data -> variantOf requested (slug a) ->
                 is_Some (findArticle data requested)).
  { intros a Hin Hv. apply findArticle_iff. exists a. split; [done|].
    symmetry. by apply normalizeSlug_variant. }
  split; [exact Hv|]. split; [|split].
  - intros HN. unfold BlogPostPage, generateMetadata. rewrite HN. done.
  - intros a Hf. unfold BlogPostPage, generateMetadata. rewrite Hf. split.
    + eexists. split; [reflexivity|]. cbn. done.
    + intros pk. cbn. repeat split; [by eexists | discriminate].
  - intros (a & Hin & Hva). destruct (Hv a Hin Hva) as [a' Hf].
    unfold BlogPostPage, generateMetadata. rewrite Hf. split; [done|].
    intros pk. discriminate.
Qed.

Lemma C10_slug_lookup_normalized_witness :
  BlogPostPage sampleKeywords sampleDate [] ∅ identitySanitizer sampleData
    "  BEST-feeder " <> NotFound
  /\ forall parentKeywords,
       generateMetadata sampleKeywords sampleData "  BEST-feeder "
         parentKeywords <> notFoundMetadata.
Proof.
  apply (proj2 (proj2 (proj2 (proj2 (proj2
    (C10_slug_lookup_normalized sampleKeywords sampleDate [] ∅
       identitySanitizer sampleData "  BEST-feeder ")))))).
  exists sampleArticle. split.
  - apply list_elem_of_In. simpl. left. reflexivity.
  - exists ("  " : str), ("BEST-feeder" : str), (" " : str).
    split; [reflexivity|]. split; [|split].
    + repeat constructor.
    + repeat constructor.
    + reflexivity.
Defined.

(** ** Product schema *)

Lemma generateProductSchema_None getKeywords a :
  generateProductSchema getKeywords a = None <->
  amazon_link a = None \/ amazon_link a = Some [].
Proof.
  unfold generateProductSchema.
  destruct (amazon_link a) as [[|c l]|]; simpl; split; intros H;
    try done; auto; destruct H; done.
Qed.

(** C8: the product schema is absent exactly when the article has no affiliate
    link (the field is missing or is the empty string, the two values the
    guard treats as absent); with a link the record's offer url is the link
    and its price is the fixed text "0". *)
Theorem C8_product_schema_presence
    (getKeywords : bool -> list str) (a : article) :
  (generateProductSchema getKeywords a = None <->
     amazon_link a = None \/ amazon_link a = Some [])
  /\ (forall link, amazon_link a = Some link -> link <> [] ->
        exists p, generateProductSchema getKeywords a = Some p
                  /\ offer_url (offers p) = link
                  /\ price (offers p) = "0").
Proof.
  split; [apply generateProductSchema_None|].
  intros link Hl Hne. unfold generateProductSchema. rewrite Hl.
  destruct link as [|c l]; [done|]. simpl. eexists. split; [reflexivity|].
  simpl. done.
Qed.

Lemma C8_product_schema_presence_witness :
  exists p, generateProductSchema sampleKeywords sampleArticle = Some p
            /\ offer_url (offers p) = "https://www.amazon.com/dp/B0B1TMLL3F"
            /\ price (offers p) = "0".
Proof.
  apply (proj2 (C8_product_schema_presence sampleKeywords sampleArticle)
           ("https://www.amazon.com/dp/B0B1TMLL3F" : str)).
  - reflexivity.
  - discriminate.
Defined.

(** ** The guarded render *)

Section Guard.

Variables resolveStep annotateStep decorateStep sanitizeStep : str -> result str.

Lemma renderGuarded_throw a e :
  transformChain resolveStep annotateStep decorateStep sanitizeStep a = Throw e ->
  renderGuarded resolveStep annotateStep decorateStep sanitizeStep a
    = errorRegion e.
Proof. unfold renderGuarded. by intros ->. Qed.

Lemma renderGuarded_ok a html :
  transformChain resolveStep annotateStep decorateStep sanitizeStep a = Ok html ->
  renderGuarded resolveStep annotateStep decorateStep sanitizeStep a
    = {| region := ArticleHtml html; consoleError := [] |}.
Proof. unfold renderGuarded. by intros ->. Qed.

(** Each step that throws makes the chain throw the same error. *)
Lemma chain_throw_resolve a e :
  isPreformatted a = false -> resolveStep (htmlBody a) = Throw e ->
  transformChain resolveStep annotateStep decorateStep sanitizeStep a = Throw e.
Proof. unfold transformChain. by intros -> ->. Qed.

Lemma chain_throw_annotate a h e :
  (if isPreformatted a then Ok (htmlBody a) else resolveStep (htmlBody a)) = Ok h ->
  annotateStep h = Throw e ->
  transformChain resolveStep annotateStep decorateStep sanitizeStep a = Throw e.
Proof. unfold transformChain. intros -> H. simpl. by rewrite H. Qed.

Lemma chain_throw_decorate a h1 h2 e :
  (if isPreformatted a then Ok (htmlBody a) else resolveStep (htmlBody a)) = Ok h1 ->
  annotateStep h1 = Ok h2 -> decorateStep h2 = Throw e ->
  transformChain resolveStep annotateStep decorateStep sanitizeStep a = Throw e.
Proof. unfold transformChain. intros -> H1 H2. simpl. rewrite H1. simpl. by rewrite H2. Qed.

Lemma chain_throw_sanitize a h1 h2 h3 e :
  (if isPreformatted a then Ok (htmlBody a) else resolveStep (htmlBody a)) = Ok h1 ->
  annotateStep h1 = Ok h2 -> decorateStep h2 = Ok h3 ->
  sanitizeStep h3 = Throw e ->
  transformChain resolveStep annotateStep decorateStep sanitizeStep a = Throw e.
Proof.
  unfold transformChain. intros -> H1 H2 H3. simpl. rewrite H1. simpl.
  rewrite H2. simpl. done.
Qed.

(** The chain throws exactly when one of its steps does. *)
Lemma chain_throws a e :
  someStepThrows resolveStep annotateStep decorateStep sanitizeStep a e ->
  transformChain resolveStep annotateStep decorateStep sanitizeStep a = Throw e.
Proof.
  unfold someStepThrows, entry.
  intros [H | [(h1 & H1 & H) | [(h1 & h2 & H1 & H2 & H)
    | (h1 & h2 & h3 & H1 & H2 & H3 & H)]]].
  - unfold transformChain. by rewrite H.
  - by apply (chain_throw_annotate a h1).
  - by apply (chain_throw_decorate a h1 h2).
  - by apply (chain_throw_sanitize a h1 h2 h3).
Qed.

Lemma chain_throws_inv a e :
  transformChain resolveStep annotateStep decorateStep sanitizeStep a = Throw e ->
  someStepThrows resolveStep annotateStep decorateStep sanitizeStep a e.
Proof.
  unfold transformChain, someStepThrows, entry.
  destruct (if isPreformatted a then _ else _) as [h1|e1] eqn:E1; simpl.
  - intros H. right. destruct (annotateStep h1) as [h2|e2] eqn:E2; simpl in H.
    + right. destruct (decorateStep h2) as [h3|e3] eqn:E3; simpl in H.
      * right. by exists h1, h2, h3.
      * left. exists h1, h2. by injection H as ->.
    + left. exists h1. by injection H as ->.
  - intros [= ->]. by left.
Qed.

End Guard.

(** The text handed to the sanitizer. *)
Lemma renderArticleContent_chain dT dA sanitizeHtml data a :
  renderArticleContent dT dA sanitizeHtml data a =
  match sanitizeHtml (sanitizeOptions dT dA)
          (addHeadingClass (addAsteriskToTopPick
             (if isPreformatted a then htmlBody a
              else parseInternalLinks data (htmlBody a)))) with
  | Ok html => {| region := ArticleHtml html; consoleError := [] |}
  | Throw e => errorRegion e
  end.
Proof.
  unfold renderArticleContent, renderGuarded, transformChain.
  destruct (isPreformatted a); reflexivity.
Qed.

(** C9: whichever step of the chain throws, the render of the content region
    returns the error notice, the error going to the console and not to the
    caller; the page built around that region has the notice as its content
    and its structured-data scripts, breadcrumbs, header and affiliate block
    as for any render.  For the page function itself: when the sanitizer
    throws (the three steps before it are string replacements) or, however
    it came about, the content region shows the notice, the response is a
    rendered page, not an error, with the notice in the content region and
    everything around it in place. *)
Theorem C9_transform_failure_is_contained
    (resolveStep annotateStep decorateStep sanitizeStep : str -> result str)
    (getKeywords : bool -> list str) (toLocaleDateString : str -> str)
    (dTags : list str) (dAttrs : gmap str (list str))
    (sanitizeHtml : options -> str -> result str)
    (data : blogData) (requested : str) (a : article) (e : str) :
  (someStepThrows resolveStep annotateStep decorateStep sanitizeStep a e ->
     let body :=
       renderGuarded resolveStep annotateStep decorateStep sanitizeStep a in
     let p := articlePage getKeywords toLocaleDateString a body in
     body = errorRegion e
     /\ region (content p) = ErrorNotice
     /\ consoleError (content p) = [e]
     /\ aroundContent getKeywords toLocaleDateString a p)
  /\ (findArticle data requested = Some a ->
      sanitizeHtml (sanitizeOptions dTags dAttrs)
        (addHeadingClass (addAsteriskToTopPick
           (if isPreformatted a then htmlBody a
            else parseInternalLinks data (htmlBody a)))) = Throw e ->
      exists p,
        BlogPostPage getKeywords toLocaleDateString dTags dAttrs sanitizeHtml
          data requested = Rendered p
        /\ region (content p) = ErrorNotice
        /\ consoleError (content p) = [e]
        /\ aroundContent getKeywords toLocaleDateString a p)
  /\ (findArticle data requested = Some a ->
      region (renderArticleContent dTags dAttrs sanitizeHtml data a)
        = ErrorNotice ->
      exists p e',
        BlogPostPage getKeywords toLocaleDateString dTags dAttrs sanitizeHtml
          data requested = Rendered p
        /\ content p = errorRegion e'
        /\ aroundContent getKeywords toLocaleDateString a p)
  /\ (findArticle data requested = Some a ->
      someStepThrows
        (fun html => Ok (parseInternalLinks data html))
        (fun html => Ok (addAsteriskToTopPick html))
        (fun html => Ok (addHeadingClass html))
        (sanitizeHtml (sanitizeOptions dTags dAttrs)) a e ->
      exists p,
        BlogPostPage getKeywords toLocaleDateString dTags dAttrs sanitizeHtml
          data requested = Rendered p
        /\ content p = errorRegion e
        /\ aroundContent getKeywords toLocaleDateString a p).
Proof.
  assert (Har : forall body,
            aroundContent getKeywords toLocaleDateString a
              (articlePage getKeywords toLocaleDateString a body)).
  { intros body. unfold aroundContent. cbn. repeat split. }
  split; [|split; [|split]].
  - intros H. cbv zeta. cbn [content articlePage].
    rewrite (renderGuarded_throw _ _ _ _ a e) by (by apply chain_throws).
    split; [reflexivity|]. split; [reflexivity|]. split; [reflexivity|].
    apply Har.
  - intros Hf Hs. unfold BlogPostPage. rewrite Hf.
    rewrite renderArticleContent_chain, Hs. eexists.
    split; [reflexivity|]. cbn [content articlePage].
    split; [reflexivity|]. split; [reflexivity|]. apply Har.
  - intros Hf Hr. unfold BlogPostPage. rewrite Hf.
    rewrite renderArticleContent_chain in Hr |- *.
    destruct (sanitizeHtml _ _) as [html|e']; [discriminate Hr|].
    eexists; exists e'. split; [reflexivity|]. split; [done|]. apply Har.
  - intros Hf H. unfold BlogPostPage. rewrite Hf. eexists.
    split; [reflexivity|]. split; [|apply Har]. cbn [content articlePage].
    unfold renderArticleContent. apply renderGuarded_throw.
    by apply chain_throws.
Qed.

Lemma C9_transform_failure_is_contained_witness :
  exists p,
    BlogPostPage sampleKeywords sampleDate [] ∅ failingSanitizer sampleData
      "best-feeder" = Rendered p
    /\ region (content p) = ErrorNotice
    /\ consoleError (content p) = [("sanitizer failure" : str)]
    /\ aroundContent sampleKeywords sampleDate sampleArticle p.
Proof.
  apply (proj1 (proj2
    (C9_transform_failure_is_contained Ok Ok Ok
       (failingSanitizer (sanitizeOptions [] ∅))
       sampleKeywords sampleDate [] ∅ failingSanitizer sampleData
       "best-feeder" sampleArticle "sanitizer failure"))).
  - vm_compute. reflexivity.
  - reflexivity.
Defined.

(** ** The sanitizer *)

Section NodeInduction.

Variable P : node -> Prop.
Hypothesis HText : forall t, P (Text t).
Hypothesis HElement :
  forall tag at_ children, Forall P children -> P (Element tag at_ children).

Lemma node_induction : forall n, P n.
Proof using HText HElement.
  fix IH 1. intros [t|tag at_ children]; [apply HText|].
  apply HElement. induction children as [|x l IHl]; constructor;
    [apply IH | apply IHl].
Qed.

End NodeInduction.

Lemma sanitizeNode_Element o tag at_ children :
  sanitizeNode o (Element tag at_ children) =
  let kids := sanitizeNodes o children in
  let '(tag', at') := applyTransform o tag at_ in
  if negb (bool_decide (tag' ∈ allowedTags o)) then kids
  else if bool_decide (tag' = ("iframe" : str)) && negb (frameAllowed o at')
       then []
       else [Element tag' (keepAttributes o tag' at') kids].
Proof.
  simpl. unfold applyTransform, sanitizeNodes.
  assert ((fix go (l : list node) : list node :=
             match l with
             | [] => []
             | x :: l' => sanitizeNode o x ++ go l'
             end) children = flat_map (sanitizeNode o) children) as ->.
  { induction children as [|x l IH]; simpl; [done | by rewrite IH]. }
  done.
Qed.

Lemma elementsOf_Element tag at_ children :
  elementsOf (Element tag at_ children) = (tag, at_) :: elements children.
Proof. reflexivity. Qed.

Lemma elements_single tag at_ children :
  elements [Element tag at_ children] = (tag, at_) :: elements children.
Proof. unfold elements at 1. simpl. by rewrite app_nil_r. Qed.

Lemma elements_app l1 l2 : elements (l1 ++ l2) = elements l1 ++ elements l2.
Proof. unfold elements. by rewrite flat_map_app. Qed.

Lemma elem_of_elements_flat (f : node -> list node) l x :
  x ∈ elements (flat_map f l) -> exists n, n ∈ l /\ x ∈ elements (f n).
Proof.
  induction l as [|n l IH]; simpl.
  - intros H. by apply elem_of_nil in H.
  - rewrite elements_app, elem_of_app. intros [H|H].
    + exists n. split; [left | done].
    + destruct (IH H) as (n' & Hin & Hx). exists n'. split; [by right | done].
Qed.

(** Every element of the output stems from an element of the input: its tag
    is the transformed tag, which is allow-listed, and its attributes are the
    allow-listed ones among the transformed attributes. *)
Lemma sanitize_origin o n tag at_ :
  (tag, at_) ∈ elements (sanitizeNode o n) ->
  exists tag0 at0 at',
    (tag0, at0) ∈ elementsOf n
    /\ applyTransform o tag0 at0 = (tag, at')
    /\ at_ = keepAttributes o tag at'
    /\ tag ∈ allowedTags o.
Proof.
  revert tag at_. induction n as [t|tag0 at0 children IH] using node_induction;
    intros tag at_.
  - simpl. unfold elements. simpl. intros H. by apply elem_of_nil in H.
  - rewrite sanitizeNode_Element, elementsOf_Element. cbv zeta.
    assert (Hkids : (tag, at_) ∈ elements (sanitizeNodes o children) ->
      exists tag1 at1 at', (tag1, at1) ∈ (tag0, at0) :: elements children
        /\ applyTransform o tag1 at1 = (tag, at')
        /\ at_ = keepAttributes o tag at' /\ tag ∈ allowedTags o).
    { intros H. apply elem_of_elements_flat in H as (n & Hn & Hx).
      rewrite Forall_forall in IH.
      destruct (IH n Hn tag at_ Hx) as (t1 & a1 & a' & Hin & Ht & Ha & Hal).
      exists t1, a1, a'. split; [|done]. right. unfold elements.
      apply list_elem_of_In, in_flat_map. exists n.
      split; by apply list_elem_of_In. }
    destruct (applyTransform o tag0 at0) as [tag' at'] eqn:Etr.
    case_bool_decide as Hallowed; simpl; [|exact Hkids].
    destruct (bool_decide _ && negb (frameAllowed o at')).
    + unfold elements. simpl. intros H. by apply elem_of_nil in H.
    + rewrite elements_single. intros H. apply elem_of_cons in H as [H|H].
      * injection H as -> ->. exists tag0, at0, at'. split; [left|done].
      * apply Hkids. exact H.
Qed.

Lemma sanitizeNodes_origin o l tag at_ :
  (tag, at_) ∈ elements (sanitizeNodes o l) ->
  exists tag0 at0 at',
    (tag0, at0) ∈ elements l
    /\ applyTransform o tag0 at0 = (tag, at')
    /\ at_ = keepAttributes o tag at'
    /\ tag ∈ allowedTags o.
Proof.
  intros H. apply elem_of_elements_flat in H as (n & Hn & Hx).
  destruct (sanitize_origin o n tag at_ Hx) as (t0 & a0 & a' & Hin & Ht & Ha & Hal).
  exists t0, a0, a'. split; [|done]. unfold elements.
  apply list_elem_of_In, in_flat_map. exists n. split; by apply list_elem_of_In.
Qed.

Lemma keepAttributes_lookup o tag at_ k v :
  keepAttributes o tag at_ !! k = Some v <->
  at_ !! k = Some v /\ k ∈ default [] (allowedAttributes o !! tag).
Proof.
  unfold keepAttributes. split; intros H.
  - by apply map_lookup_filter_Some in H.
  - by apply map_lookup_filter_Some.
Qed.

Lemma foldl_insert_other (k : str) (l : list (str * list str))
    (mp : gmap str (list str)) :
  k ∉ l.*1 ->
  foldl (fun mp kv => <[kv.1 := kv.2]> mp) mp l !! k = mp !! k.
Proof.
  revert mp. induction l as [|[k' v] l IH]; intros mp Hk; simpl; [done|].
  rewrite fmap_cons, not_elem_of_cons in Hk. destruct Hk as [Hne Hk].
  rewrite IH by done. simpl in Hne. by rewrite lookup_insert_ne.
Qed.

Lemma foldl_insert_first (k : str) (v : list str) (l : list (str * list str))
    (mp : gmap str (list str)) :
  k ∉ l.*1 ->
  foldl (fun mp kv => <[kv.1 := kv.2]> mp) mp ((k, v) :: l) !! k = Some v.
Proof.
  intros Hk. simpl. rewrite foldl_insert_other by done.
  by rewrite lookup_insert_eq.
Qed.

Lemma foldl_insert_mid (k : str) (v : list str) (l1 l2 : list (str * list str))
    (mp : gmap str (list str)) :
  k ∉ l2.*1 ->
  foldl (fun mp kv => <[kv.1 := kv.2]> mp) mp (l1 ++ (k, v) :: l2) !! k = Some v.
Proof. intros Hk. rewrite foldl_app. by apply foldl_insert_first. Qed.

Section Configured.

Variable dTags : list str.
Variable dAttrs : gmap str (list str).

Let opts : options := sanitizeOptions dTags dAttrs.

Lemma anchor_attributes :
  allowedAttributes opts !! ("a" : str)
    = Some (strs ["href"; "name"; "target"; "class"; "rel"]).
Proof.
  unfold opts, sanitizeOptions, allowedAttributes, extraAttributes.
  apply foldl_insert_first. decide_by_compute.
Qed.

Lemma iframe_attributes :
  allowedAttributes opts !! ("iframe" : str)
    = Some (strs ["src"; "width"; "height"; "frameborder"; "allowfullscreen"]).
Proof.
  unfold opts, sanitizeOptions, allowedAttributes.
  apply (foldl_insert_mid _ _ (take 2 extraAttributes) (drop 3 extraAttributes)).
  decide_by_compute.
Qed.

Lemma applyTransform_anchor at_ :
  applyTransform opts "a" at_ = transformAnchor "a" at_.
Proof.
  unfold applyTransform, opts, sanitizeOptions. cbn [transformTags].
  by rewrite lookup_singleton_eq.
Qed.

Lemma applyTransform_other tag at_ :
  tag <> ("a" : str) -> applyTransform opts tag at_ = (tag, at_).
Proof.
  intros Hne. unfold applyTransform, opts, sanitizeOptions. cbn [transformTags].
  by rewrite lookup_singleton_ne.
Qed.

(** The transform: an external-looking address gets the relation and the
    target, every other attribute staying as it was; anything else is
    returned unchanged. *)
Lemma transformAnchor_external tagName at_ href :
  at_ !! ("href" : str) = Some href -> externalHref href = true ->
  transformAnchor tagName at_ =
    (("a" : str),
     <[("target" : str) := ("_blank" : str)]>
       (<[("rel" : str) := ("noopener noreferrer nofollow" : str)]> at_)).
Proof.
  unfold transformAnchor, externalHref. intros -> H. by rewrite H.
Qed.

Lemma transformAnchor_internal tagName at_ :
  (forall href, at_ !! ("href" : str) = Some href -> externalHref href = false) ->
  transformAnchor tagName at_ = (tagName, at_).
Proof.
  unfold transformAnchor, externalHref. intros H.
  destruct (at_ !! ("href" : str)) as [href|]; [|done].
  by rewrite (H href eq_refl).
Qed.

Lemma startsWith_http_truthy href :
  startsWith href "http" = true -> externalHref href = true.
Proof. unfold externalHref. by destruct href. Qed.

Lemma sanitized_allowed (l : list node) tag at_ :
  (tag, at_) ∈ elements (sanitizeNodes opts l) ->
  tag ∈ allowedTags opts
  /\ forall k v, at_ !! k = Some v ->
                 k ∈ default [] (allowedAttributes opts !! tag).
Proof.
  intros H. apply sanitizeNodes_origin in H as (t0 & a0 & a' & _ & _ & -> & Hal).
  split; [done|]. intros k v Hk. by apply keepAttributes_lookup in Hk as [_ ?].
Qed.

Lemma sanitized_anchor (l : list node) at_ href :
  (("a" : str), at_) ∈ elements (sanitizeNodes opts l) ->
  at_ !! ("href" : str) = Some href -> startsWith href "http" = true ->
  at_ !! ("rel" : str) = Some ("noopener noreferrer nofollow" : str)
  /\ at_ !! ("target" : str) = Some ("_blank" : str).
Proof.
  intros H Hh Hs.
  apply sanitizeNodes_origin in H as (t0 & a0 & a' & _ & Htr & -> & _).
  apply keepAttributes_lookup in Hh as [Hh _].
  assert (Hkeep : forall k v, k ∈ strs ["href"; "name"; "target"; "class"; "rel"] ->
            a' !! k = Some v -> keepAttributes opts "a" a' !! k = Some v).
  { intros k v Hk Hv. apply keepAttributes_lookup. split; [done|].
    by rewrite anchor_attributes. }
  destruct (decide (t0 = ("a" : str))) as [->|Hne].
  - rewrite applyTransform_anchor in Htr.
    destruct (a0 !! ("href" : str)) as [h0|] eqn:E0.
    + destruct (externalHref h0) eqn:Ex.
      * rewrite (transformAnchor_external _ _ _ E0 Ex) in Htr.
        injection Htr as <-. split; apply Hkeep.
        -- decide_by_compute.
        -- rewrite lookup_insert_ne by discriminate. apply lookup_insert_eq.
        -- decide_by_compute.
        -- apply lookup_insert_eq.
      * rewrite transformAnchor_internal in Htr.
        2:{ intros h Hh'. congruence. }
        injection Htr as <-. rewrite E0 in Hh. injection Hh as ->.
        rewrite startsWith_http_truthy in Ex; done.
    + rewrite transformAnchor_internal in Htr.
      2:{ intros h Hh'. congruence. }
      injection Htr as <-. congruence.
  - rewrite applyTransform_other in Htr by done. injection Htr as -> _. done.
Qed.

Lemma iframe_listed : ("iframe" : str) ∈ allowedTags opts <-> ("iframe" : str) ∈ dTags.
Proof.
  unfold opts, sanitizeOptions. cbn [allowedTags]. rewrite elem_of_app.
  split; [|auto]. intros [H|H]; [done|]. exfalso. revert H.
  decide_by_compute.
Qed.

Lemma iframe_dropped at_ children :
  ("iframe" : str) ∉ dTags ->
  sanitizeNodes opts [Element "iframe" at_ children] = sanitizeNodes opts children.
Proof.
  intros Hno. unfold sanitizeNodes at 1. cbn [flat_map]. rewrite app_nil_r.
  rewrite sanitizeNode_Element. cbv zeta.
  rewrite applyTransform_other by discriminate.
  rewrite bool_decide_eq_false_2; [done|]. by rewrite iframe_listed.
Qed.

(** Had the tag list named the frame tag, a frame from an allowed host would
    stay, with its listed attributes. *)
Lemma iframe_kept_when_listed :
  ("iframe" : str) ∈ dTags ->
  sanitizeNodes opts [youtubeFrame]
    = [Element "iframe" (keepAttributes opts "iframe" youtubeAttribs) []]
  /\ keepAttributes opts "iframe" youtubeAttribs = youtubeAttribs.
Proof.
  intros Hin. split.
  - unfold sanitizeNodes, youtubeFrame. cbn [flat_map]. rewrite app_nil_r.
    rewrite sanitizeNode_Element. cbv zeta.
    rewrite applyTransform_other by discriminate.
    rewrite bool_decide_eq_true_2 by (by apply iframe_listed).
    reflexivity.
  - apply map_filter_id. intros k v Hk. cbn [fst].
    rewrite iframe_attributes. cbn [default from_option Datatypes.id].
    unfold youtubeAttribs in Hk.
    apply lookup_insert_Some in Hk as [[<- _] | [_ Hk]]; [decide_by_compute|].
    apply lookup_insert_Some in Hk as [[<- _] | [_ Hk]]; [decide_by_compute|].
    apply lookup_insert_Some in Hk as [[<- _] | [_ Hk]]; [decide_by_compute|].
    by rewrite lookup_empty in Hk.
Qed.

End Configured.

Lemma textsOf_Element tag at_ children :
  textsOf (Element tag at_ children) = texts children.
Proof.
  simpl. unfold texts.
  induction children as [|x l IH]; simpl; [done | by rewrite IH].
Qed.

Lemma texts_single tag at_ children :
  texts [Element tag at_ children] = texts children.
Proof. unfold texts at 1. cbn [flat_map]. by rewrite app_nil_r, textsOf_Element. Qed.

Lemma texts_app l1 l2 : texts (l1 ++ l2) = texts l1 ++ texts l2.
Proof. unfold texts. by rewrite flat_map_app. Qed.

(** The filter makes no text: the text nodes of the output are text nodes of
    the input, in their order. *)
Lemma sanitizeNode_texts o n : texts (sanitizeNode o n) `sublist_of` textsOf n.
Proof.
  induction n as [t|tag at_ children IH] using node_induction.
  - simpl. unfold texts. simpl. done.
  - rewrite sanitizeNode_Element, textsOf_Element. cbv zeta.
    assert (Hkids : texts (sanitizeNodes o children) `sublist_of` texts children).
    { unfold sanitizeNodes. induction IH as [|x l Hx _ IHl]; [done|].
      cbn [flat_map]. rewrite texts_app. unfold texts at 3. cbn [flat_map].
      by apply sublist_app. }
    destruct (applyTransform o tag at_) as [tag' at'].
    destruct (negb (bool_decide (tag' ∈ allowedTags o))); [done|].
    destruct (bool_decide _ && negb (frameAllowed o at')).
    + apply sublist_nil_l.
    + by rewrite texts_single.
Qed.

Lemma sanitizeNodes_texts o l : texts (sanitizeNodes o l) `sublist_of` texts l.
Proof.
  unfold sanitizeNodes. induction l as [|x l IH]; [done|].
  cbn [flat_map]. rewrite texts_app. unfold texts at 3. cbn [flat_map].
  apply sublist_app; [apply sanitizeNode_texts | done].
Qed.

Lemma unlisted_dropped o tag at_ children :
  (applyTransform o tag at_).1 ∉ allowedTags o ->
  sanitizeNodes o [Element tag at_ children] = sanitizeNodes o children.
Proof.
  intros Hno. unfold sanitizeNodes at 1. cbn [flat_map]. rewrite app_nil_r.
  rewrite sanitizeNode_Element. cbv zeta.
  destruct (applyTransform o tag at_) as [tag' at']. cbn [fst] in Hno.
  by rewrite bool_decide_eq_false_2.
Qed.

(** C4: whatever the parser makes of the text the page hands over (the parser
    and the serializer are arbitrary), the content region is the serialized
    output of the filter, and in that output every element, at any depth,
    has a tag of the configured tag list and only attributes of the
    configured attribute list of that tag; it stems from an element of the
    input whose transformed attributes it keeps in part.  What is not
    enumerated is dropped and not turned into text: every text node of the
    output is a text node of the input, in the same order, and an element
    whose tag is not listed leaves nothing but its own sanitized content. *)
Theorem C4_output_within_allow_lists
    (dTags : list str) (dAttrs : gmap str (list str))
    (parseHtml : str -> list node) (serialize : list node -> str)
    (data : blogData) (a : article) :
  let o := sanitizeOptions dTags dAttrs in
  let input := parseHtml (processedHtml data a) in
  let output := sanitizeNodes o input in
  renderArticleContent dTags dAttrs (sanitizeWith parseHtml serialize) data a
    = {| region := ArticleHtml (serialize output); consoleError := [] |}
  /\ (forall tag at_, (tag, at_) ∈ elements output ->
        tag ∈ allowedTags o
        /\ (forall k v, at_ !! k = Some v ->
              k ∈ default [] (allowedAttributes o !! tag))
        /\ exists tag0 at0,
             (tag0, at0) ∈ elements input
             /\ tag = (applyTransform o tag0 at0).1
             /\ forall k v, at_ !! k = Some v ->
                  (applyTransform o tag0 at0).2 !! k = Some v)
  /\ texts output `sublist_of` texts input
  /\ (forall tag at_ children,
        (applyTransform o tag at_).1 ∉ allowedTags o ->
        sanitizeNodes o [Element tag at_ children] = sanitizeNodes o children
        /\ texts (sanitizeNodes o [Element tag at_ children])
             `sublist_of` texts children).
Proof.
  cbv zeta. split; [|split; [|split]].
  - rewrite renderArticleContent_chain. reflexivity.
  - intros tag at_ H. split; [|split].
    + by apply sanitized_allowed in H as [? _].
    + by apply sanitized_allowed in H as [_ ?].
    + apply sanitizeNodes_origin in H as (t0 & a0 & a' & Hin & Htr & -> & _).
      exists t0, a0. rewrite Htr. split; [done|]. split; [done|].
      intros k v Hk. by apply keepAttributes_lookup in Hk as [? _].
  - apply sanitizeNodes_texts.
  - intros tag at_ children Hno. rewrite unlisted_dropped by done.
    split; [done | apply sanitizeNodes_texts].
Qed.

Lemma C4_output_within_allow_lists_witness :
  ("a" : str) ∈ allowedTags (sanitizeOptions sampleDefaultTags ∅)
  /\ (forall k v, sampleAnchorAttribs !! k = Some v ->
        k ∈ default [] (allowedAttributes (sanitizeOptions sampleDefaultTags ∅)
                          !! ("a" : str)))
  /\ exists tag0 at0,
       (tag0, at0) ∈ elements sampleMarkup
       /\ ("a" : str)
            = (applyTransform (sanitizeOptions sampleDefaultTags ∅) tag0 at0).1
       /\ forall k v, sampleAnchorAttribs !! k = Some v ->
            (applyTransform (sanitizeOptions sampleDefaultTags ∅) tag0 at0).2
              !! k = Some v.
Proof.
  apply (proj1 (proj2 (C4_output_within_allow_lists sampleDefaultTags ∅
           (fun _ => sampleMarkup) (fun _ => [])
           sampleData sampleArticle))).
  decide_by_compute.
Defined.

(** C5: in the sanitized markup every anchor whose address begins with the
    text [http] carries the relation [noopener noreferrer nofollow] and the
    target [_blank]; and the transform returns an anchor whose address is
    missing or does not begin so exactly as it received it. *)
Theorem C5_external_anchor_rewritten
    (dTags : list str) (dAttrs : gmap str (list str))
    (parseHtml : str -> list node) (html : str) (at_ : attribs) (href : str) :
  ((("a" : str), at_) ∈ elements (sanitizeNodes (sanitizeOptions dTags dAttrs)
                                    (parseHtml html)) ->
   at_ !! ("href" : str) = Some href -> startsWith href "http" = true ->
   at_ !! ("rel" : str) = Some ("noopener noreferrer nofollow" : str)
   /\ at_ !! ("target" : str) = Some ("_blank" : str))
  /\ (forall tagName,
        at_ !! ("href" : str) = None
        \/ (at_ !! ("href" : str) = Some href /\ startsWith href "http" = false) ->
        transformAnchor tagName at_ = (tagName, at_)).
Proof.
  split; [apply sanitized_anchor|].
  intros tagName H. apply transformAnchor_internal. intros h Hh.
  destruct H as [H|[H Hs]]; [congruence|].
  rewrite H in Hh. injection Hh as <-. unfold externalHref. rewrite Hs.
  by destruct (truthy href).
Qed.

Lemma C5_external_anchor_rewritten_witness :
  sampleAnchorAttribs !! ("rel" : str)
    = Some ("noopener noreferrer nofollow" : str)
  /\ sampleAnchorAttribs !! ("target" : str) = Some ("_blank" : str).
Proof.
  apply (proj1 (C5_external_anchor_rewritten sampleDefaultTags ∅
           (fun _ => sampleMarkup) "<marquee><a href=x onclick=y>shop</a></marquee>"
           sampleAnchorAttribs "https://example.com/x")).
  - decide_by_compute.
  - reflexivity.
  - reflexivity.
Defined.

(** C5 as stated fails: the test is for the text [http], not for a scheme.
    An anchor to an [ftp:] address, and one whose [HTTPS:] is written in
    capitals, come out of the sanitizer without relation and target, although
    their addresses begin with a scheme; and the relative address
    [httpfoo/page.html], which has no scheme, gets both. *)
Lemma C5_scheme_is_not_what_is_tested :
  let o := sanitizeOptions sampleDefaultTags ∅ in
  (exists at_,
     sanitizeNodes o [Element "a" (linkTo "ftp://example.com/file.zip") []]
       = [Element "a" at_ []]
     /\ at_ !! ("href" : str) = Some ("ftp://example.com/file.zip" : str)
     /\ at_ !! ("rel" : str) = None /\ at_ !! ("target" : str) = None)
  /\ (exists at_,
        sanitizeNodes o [Element "a" (linkTo "HTTPS://EXAMPLE.COM/") []]
          = [Element "a" at_ []]
        /\ at_ !! ("href" : str) = Some ("HTTPS://EXAMPLE.COM/" : str)
        /\ at_ !! ("rel" : str) = None /\ at_ !! ("target" : str) = None)
  /\ (exists at_,
        sanitizeNodes o [Element "a" (linkTo "httpfoo/page.html") []]
          = [Element "a" at_ []]
        /\ at_ !! ("href" : str) = Some ("httpfoo/page.html" : str)
        /\ at_ !! ("rel" : str) = Some ("noopener noreferrer nofollow" : str)
        /\ at_ !! ("target" : str) = Some ("_blank" : str)).
Proof.
  cbv zeta. split; [|split]; eexists; (split; [reflexivity|]);
    repeat split; vm_compute; reflexivity.
Qed.

(** C6: the page adds attribute and host-name settings for frames but does not
    add the frame tag to the tag list, so frames are admitted only if the
    package defaults already list them; with a default list that has no
    frame tag, a frame from www.youtube.com is removed from the output
    although its host is one of the two allowed ones. *)
Theorem C6_youtube_frame_removed
    (dTags : list str) (dAttrs : gmap str (list str)) :
  ("iframe" : str) ∉ dTags ->
  (("iframe" : str) ∉ allowedTags (sanitizeOptions dTags dAttrs))
  /\ frameAllowed (sanitizeOptions dTags dAttrs) youtubeAttribs = true
  /\ sanitizeNodes (sanitizeOptions dTags dAttrs) [youtubeFrame] = [].
Proof.
  intros Hno. split; [by rewrite iframe_listed|]. split.
  - vm_compute. reflexivity.
  - unfold youtubeFrame. by rewrite iframe_dropped.
Qed.

Lemma C6_youtube_frame_removed_witness :
  sanitizeNodes (sanitizeOptions sampleDefaultTags ∅) [youtubeFrame] = [].
Proof.
  apply (C6_youtube_frame_removed sampleDefaultTags ∅).
  decide_by_compute.
Defined.

(** ** The matcher *)

Section Matcher.

Variable ic : bool.

Lemma eat_same l' l s : sameText ic l' l -> eat ic l (l' ++ s) = Some s.
Proof.
  induction 1 as [|c a l' l Hc _ IH]; simpl; [by destruct s | by rewrite Hc].
Qed.

Lemma eat_nil s : eat ic [] s = Some s.
Proof. by destruct s. Qed.

Lemma m_Lit l' l s cs k :
  sameText ic l' l -> m ic (Lit l) (l' ++ s) cs k = k s cs.
Proof. intros H. simpl. by rewrite (eat_same _ _ _ H). Qed.

Lemma star_stops g p s k : stops p s -> star g p s k = k s.
Proof. destruct s as [|c s]; simpl; [done | by intros ->]. Qed.

(** A greedy run ends where the class ends, if the continuation accepts
    there. *)
Lemma star_greedy_run p w s k o :
  allOf p w -> stops p s -> k s = Some o -> star true p (w ++ s) k = Some o.
Proof.
  intros Hw Hs Hk. induction Hw as [|c w Hc _ IH]; simpl.
  - by rewrite star_stops.
  - by rewrite Hc, IH.
Qed.

(** When the continuation refuses the end of the run, the last character of
    the run is given back first. *)
Lemma star_greedy_back p w c s k o :
  allOf p w -> p c = true -> stops p s -> k s = None -> k (c :: s) = Some o ->
  star true p (w ++ c :: s) k = Some o.
Proof.
  intros Hw Hc Hs Hn Hk. induction Hw as [|c' w Hc' _ IH]; simpl.
  - by rewrite Hc, star_stops, Hn.
  - by rewrite Hc', IH.
Qed.

(** A lazy run hands over to the continuation at the first place where the
    continuation accepts. *)
Lemma star_lazy_first p w s k o :
  allOf p w -> k s = Some o ->
  (forall w1 c w2, w = w1 ++ c :: w2 -> k (c :: w2 ++ s) = None) ->
  star false p (w ++ s) k = Some o.
Proof.
  intros Hw Hk. induction Hw as [|c w Hc _ IH]; intros Hno; simpl.
  - destruct s as [|c s]; simpl; [done|]. destruct (p c); [by rewrite Hk | done].
  - rewrite Hc, (Hno [] c w eq_refl). apply IH. intros w1 c' w2 ->.
    apply (Hno (c :: w1) c' w2). done.
Qed.

Lemma m_Plus_run p c w s cs k o :
  p c = true -> allOf p w -> stops p s -> k s cs = Some o ->
  m ic (Plus p) (c :: w ++ s) cs k = Some o.
Proof.
  intros Hc Hw Hs Hk. simpl. rewrite Hc. by apply star_greedy_run.
Qed.

Lemma m_Star_run p w s cs k o :
  allOf p w -> stops p s -> k s cs = Some o ->
  m ic (Star true p) (w ++ s) cs k = Some o.
Proof. intros Hw Hs Hk. simpl. by apply star_greedy_run. Qed.

(** *** The global scan *)

Variable r : regex.

Lemma scan_skip t rest : scan ic r (length t) (t ++ rest) = scan ic r 0 rest.
Proof. induction t as [|c t IH]; simpl; [by destruct rest | done]. Qed.

Lemma scan_hit mt rest cs :
  mt <> [] -> exec ic r (mt ++ rest) = Some (rest, cs) ->
  scan ic r 0 (mt ++ rest) = Hit mt cs :: scan ic r 0 rest.
Proof.
  intros Hne He. destruct mt as [|c t]; [done|].
  change (scan ic r 0 ((c :: t) ++ rest)) with
    (match exec ic r ((c :: t) ++ rest) with
     | Some (rest', cs') =>
         let matched := take (length ((c :: t) ++ rest) - length rest')
                             ((c :: t) ++ rest) in
         Hit matched cs' ::
           match matched with
           | [] => Keep c :: scan ic r 0 (t ++ rest)
           | _ :: t' => scan ic r (length t') (t ++ rest)
           end
     | None => Keep c :: scan ic r 0 (t ++ rest)
     end).
  rewrite He. cbv zeta.
  replace (length ((c :: t) ++ rest) - length rest) with (length (c :: t))
    by (rewrite length_app; lia).
  rewrite take_app_length. by rewrite scan_skip.
Qed.

Lemma scan_miss c s :
  exec ic r (c :: s) = None -> scan ic r 0 (c :: s) = Keep c :: scan ic r 0 s.
Proof. intros He. simpl. by rewrite He. Qed.

Lemma scan_clear pre rest :
  clearOf ic r pre rest ->
  scan ic r 0 (pre ++ rest) = map Keep pre ++ scan ic r 0 rest.
Proof.
  induction pre as [|c pre IH]; intros Hc; [done|].
  change ((c :: pre) ++ rest) with (c :: pre ++ rest).
  rewrite scan_miss by (apply (Hc [] c pre); done).
  simpl. f_equal. apply IH. intros p1 c' p2 ->. apply (Hc (c :: p1) c' p2). done.
Qed.

Lemma replace_hit fn mt rest cs :
  mt <> [] -> exec ic r (mt ++ rest) = Some (rest, cs) ->
  replace ic r fn (mt ++ rest) = fn mt cs ++ replace ic r fn rest.
Proof. intros Hne He. unfold replace. by rewrite (scan_hit _ _ cs). Qed.

Lemma replace_miss fn c s :
  exec ic r (c :: s) = None ->
  replace ic r fn (c :: s) = c :: replace ic r fn s.
Proof. intros He. unfold replace. by rewrite scan_miss. Qed.

Lemma replace_clear fn pre rest :
  clearOf ic r pre rest ->
  replace ic r fn (pre ++ rest) = pre ++ replace ic r fn rest.
Proof.
  intros Hc. unfold replace. rewrite scan_clear by done.
  rewrite flat_map_app. f_equal. clear Hc.
  induction pre as [|c pre IH]; simpl; [done | by rewrite IH].
Qed.

Lemma matchAll_hit mt rest cs :
  mt <> [] -> exec ic r (mt ++ rest) = Some (rest, cs) ->
  matchAll ic r (mt ++ rest) = mt :: matchAll ic r rest.
Proof. intros Hne He. unfold matchAll. by rewrite (scan_hit _ _ cs). Qed.

Lemma matchAll_miss c s :
  exec ic r (c :: s) = None -> matchAll ic r (c :: s) = matchAll ic r s.
Proof. intros He. unfold matchAll. by rewrite scan_miss. Qed.

End Matcher.

(** ** Internal links *)

Lemma m_Seq ic r1 r2 s cs k :
  m ic (Seq r1 r2) s cs k = m ic r1 s cs (fun s' cs' => m ic r2 s' cs' k).
Proof. reflexivity. Qed.

Lemma m_Group ic n r s cs k :
  m ic (Group n r) s cs k =
  m ic r s cs (fun s' cs' => k s' (<[n := take (length s - length s') s]> cs')).
Proof. reflexivity. Qed.

Lemma m_Cls_hit ic p c s cs k :
  p c = true -> m ic (Cls p) (c :: s) cs k = k s cs.
Proof. simpl. by intros ->. Qed.

Lemma m_Opt_taken ic r s cs k o :
  m ic r s cs (fun s' cs' => if (length s' =? length s)%nat then None else k s' cs')
    = Some o ->
  m ic (Opt r) s cs k = Some o.
Proof. simpl. by intros ->. Qed.

Lemma m_Opt_skipped ic r s cs k :
  m ic r s cs (fun s' cs' => if (length s' =? length s)%nat then None else k s' cs')
    = None ->
  m ic (Opt r) s cs k = k s cs.
Proof. simpl. by intros ->. Qed.

Lemma m_Plus_back ic p c w c' s cs k o :
  p c = true -> allOf p w -> p c' = true -> stops p s ->
  k s cs = None -> k (c' :: s) cs = Some o ->
  m ic (Plus p) (c :: w ++ c' :: s) cs k = Some o.
Proof.
  intros Hc Hw Hc' Hs Hn Hk. simpl. rewrite Hc. by apply star_greedy_back.
Qed.

Lemma take_consumed (x rest : str) :
  take (length (x ++ rest) - length rest) (x ++ rest) = x.
Proof.
  replace (length (x ++ rest) - length rest) with (length x)
    by (rewrite length_app; lia).
  apply take_app_length.
Qed.

Lemma sameText_refl ic l : sameText ic l l.
Proof.
  induction l as [|c l IH]; constructor; [|done].
  unfold eqChar. destruct ic; apply Ascii.eqb_refl.
Qed.

Lemma canonChar_space c : isWhiteSpace (canonChar c) = isWhiteSpace c.
Proof. destruct c as [[] [] [] [] [] [] [] []]; reflexivity. Qed.

Lemma eqChar_canon c a : eqChar true c a = true -> canonChar c = canonChar a.
Proof. unfold eqChar. apply Ascii.eqb_eq. Qed.

Lemma eqChar_true_space c a :
  eqChar true c a = true -> isWhiteSpace c = isWhiteSpace a.
Proof.
  intros H. apply eqChar_canon in H.
  by rewrite <- (canonChar_space c), H, canonChar_space.
Qed.

Lemma m_closing q w post (cs : caps) k o :
  cs !! 1 = Some q -> allOf isWhiteSpace w -> k post cs = Some o ->
  m true closing (q ++ w ++ "/>" ++ post) cs k = Some o.
Proof.
  intros Hq Hw Hk. unfold closing. cbn [m]. rewrite Hq.
  rewrite (eat_same _ _ _ _ (sameText_refl true q)).
  apply star_greedy_run; [done | done |].
  change ("/>" ++ post) with (("/>" : str) ++ post).
  by rewrite (eat_same _ _ _ _ (sameText_refl true "/>")).
Qed.

Lemma m_closing_refused post (cs : caps) k :
  cs !! 1 = Some [] -> m true closing (">"%char :: post) cs k = None.
Proof. intros Hq. simpl. by rewrite Hq. Qed.


Lemma isIdChar_not_quote c : isIdChar c = true -> isQuote c = false.
Proof.
  unfold isIdChar. destruct (isQuote c); [discriminate | done].
Qed.

Lemma sameText_cons_inv ic c l' a l :
  sameText ic (c :: l') (a :: l) -> eqChar ic c a = true /\ sameText ic l' l.
Proof. intros H. by inversion H. Qed.

Lemma sameText_head_space l' l s :
  sameText true l' l -> stops isWhiteSpace l -> l <> [] ->
  stops isWhiteSpace (l' ++ s).
Proof.
  intros H Hs Hne. destruct H as [|c a l' l Hc _]; [done|].
  simpl in *. by rewrite (eqChar_true_space _ _ Hc).
Qed.

Lemma m_idGroup_run c i rest (cs : caps) k o :
  isIdChar c = true -> allOf isIdChar i -> stops isIdChar rest ->
  k rest (<[2 := c :: i]> cs) = Some o ->
  m true (Group 2 (Plus isIdChar)) (c :: i ++ rest) cs k = Some o.
Proof.
  intros Hc Hi Hs Hk. rewrite m_Group. apply m_Plus_run; [done..|].
  change (c :: i ++ rest) with ((c :: i) ++ rest). by rewrite take_consumed.
Qed.

Lemma m_idGroup_back c i c' rest (cs : caps) k o :
  isIdChar c = true -> allOf isIdChar i -> isIdChar c' = true ->
  stops isIdChar rest ->
  k rest (<[2 := c :: i ++ [c']]> cs) = None ->
  k (c' :: rest) (<[2 := c :: i]> cs) = Some o ->
  m true (Group 2 (Plus isIdChar)) (c :: i ++ c' :: rest) cs k = Some o.
Proof.
  intros Hc Hi Hc' Hs Hn Hk. rewrite m_Group. apply m_Plus_back; [done..| |].
  - replace (c :: i ++ c' :: rest) with ((c :: i ++ [c']) ++ rest)
      by (simpl; by rewrite <- app_assoc).
    by rewrite take_consumed.
  - change (c :: i ++ c' :: rest) with ((c :: i) ++ c' :: rest).
    by rewrite take_consumed.
Qed.


Lemma space_not_idChar c : isWhiteSpace c = true -> isIdChar c = false.
Proof.
  unfold isIdChar. intros ->. by rewrite orb_true_r.
Qed.

Lemma allOf_space_stops_id w s :
  allOf isWhiteSpace w -> w <> [] -> stops isIdChar (w ++ s).
Proof.
  intros [|c w' Hc _] Hne; [done|]. simpl. by apply space_not_idChar.
Qed.

Lemma take_one (x : ascii) (s : str) :
  take (length (x :: s) - length s) (x :: s) = [x].
Proof.
  replace (length (x :: s) - length s) with 1 by (simpl; lia). done.
Qed.

Lemma m_afterKey_bare c i w post (cs : caps) k o :
  isIdChar c = true -> allOf isIdChar i -> allOf isWhiteSpace w ->
  k post (<[2 := c :: i]> (<[1 := []]> cs)) = Some o ->
  m true afterKey ((c :: i) ++ w ++ "/>" ++ post) cs k = Some o.
Proof.
  intros Hc Hi Hw Hk. unfold afterKey. rewrite m_Seq, m_Group.
  rewrite m_Opt_skipped.
  2:{ simpl. by rewrite (isIdChar_not_quote c). }
  cbv beta. rewrite Nat.sub_diag. cbn [take]. rewrite m_Seq.
  assert (Hq : (<[2 := c :: i]> (<[1 := []]> cs) : caps) !! 1 = Some []).
  { rewrite lookup_insert_ne by done. apply lookup_insert_eq. }
  destruct w as [|c' w].
  - change ((c :: i) ++ [] ++ "/>" ++ post)
      with (c :: i ++ "/"%char :: ">"%char :: post).
    apply m_idGroup_back; [done | done | done | done | |].
    + apply m_closing_refused. rewrite lookup_insert_ne by done.
      apply lookup_insert_eq.
    + by apply (m_closing [] [] post).
  - change ((c :: i) ++ (c' :: w) ++ "/>" ++ post)
      with (c :: i ++ (c' :: w) ++ "/>" ++ post).
    apply m_idGroup_run; [done | done | by apply allOf_space_stops_id |].
    by apply (m_closing [] (c' :: w) post).
Qed.

Lemma m_afterKey_quoted x c i w post (cs : caps) k o :
  isQuote x = true ->
  isIdChar c = true -> allOf isIdChar i -> allOf isWhiteSpace w ->
  k post (<[2 := c :: i]> (<[1 := [x]]> cs)) = Some o ->
  m true afterKey ([x] ++ (c :: i) ++ [x] ++ w ++ "/>" ++ post) cs k = Some o.
Proof.
  intros Hx Hc Hi Hw Hk. unfold afterKey. rewrite m_Seq, m_Group.
  apply m_Opt_taken. cbn [app]. rewrite (m_Cls_hit _ _ _ _ _ _ Hx).
  rewrite (proj2 (Nat.eqb_neq _ _)) by (simpl; lia).
  rewrite take_one. rewrite m_Seq.
  assert (Hq : (<[2 := c :: i]> (<[1 := [x]]> cs) : caps) !! 1 = Some [x]).
  { rewrite lookup_insert_ne by done. apply lookup_insert_eq. }
  apply m_idGroup_run; [done | done | |].
  - simpl. unfold isIdChar. by rewrite Hx.
  - by apply (m_closing [x] w post).
Qed.


Lemma internalLinkRegex_parts :
  internalLinkRegex =
  Seq (Lit "<InternalLink")
      (Seq (Plus isWhiteSpace) (Seq (Lit "id=") afterKey)).
Proof. reflexivity. Qed.

Lemma allOf_cons_inv p c (w : str) :
  allOf p (c :: w) -> p c = true /\ allOf p w.
Proof. intros H. by inversion H. Qed.

(** At a well-formed placeholder the pattern matches exactly the placeholder,
    with the quote in group 1 and the id in group 2. *)
Lemma exec_placeholder p post :
  wellFormed p ->
  exec true internalLinkRegex (placeholder p ++ post)
    = Some (post, <[2 := idText p]> (<[1 := quote p]> ∅)).
Proof.
  destruct p as [t g kx q i w]. unfold wellFormed, placeholder, opening.
  cbn [tagText gap keyText quote idText tail].
  intros (Ht & Hg & Hga & Hk & Hq & Hi & Hia & Hw).
  rewrite <- !app_assoc. unfold exec. rewrite internalLinkRegex_parts.
  rewrite m_Seq, (m_Lit _ _ _ _ _ _ Ht). rewrite m_Seq.
  destruct g as [|c g]; [done|]. apply allOf_cons_inv in Hga as [Hc Hga].
  change ((c :: g) ++ ?x) with (c :: g ++ x).
  apply m_Plus_run; [done | done | |].
  { by apply (sameText_head_space _ ("id=" : str)). }
  rewrite m_Seq, (m_Lit _ _ _ _ _ _ Hk).
  destruct i as [|ci i]; [done|]. apply allOf_cons_inv in Hia as [Hci Hia].
  destruct Hq as [-> | [-> | ->]].
  - by apply m_afterKey_bare.
  - by apply (m_afterKey_quoted dq).
  - by apply (m_afterKey_quoted "'"%char).
Qed.

Lemma placeholder_nonempty p : wellFormed p -> placeholder p <> [].
Proof.
  destruct p as [t g kx q i w]. unfold wellFormed, placeholder, opening.
  cbn [tagText gap keyText quote idText tail]. intros (Ht & _).
  inversion Ht; subst. done.
Qed.

Lemma parse_at_placeholder data p post :
  wellFormed p ->
  parseInternalLinks data (placeholder p ++ post)
    = resolution data (idText p) ++ parseInternalLinks data post.
Proof.
  intros Hp. unfold parseInternalLinks.
  rewrite (replace_hit _ _ _ _ _ _ (placeholder_nonempty p Hp)
             (exec_placeholder p post Hp)).
  by rewrite lookup_insert_eq.
Qed.

Lemma parse_clear data pre rest :
  clearOf true internalLinkRegex pre rest ->
  parseInternalLinks data (pre ++ rest) = pre ++ parseInternalLinks data rest.
Proof. intros H. unfold parseInternalLinks. by rewrite replace_clear. Qed.

(** The pattern can only match at a [<]. *)
Lemma exec_needs_lt c s :
  c <> "<"%char -> exec true internalLinkRegex (c :: s) = None.
Proof.
  intros Hc. unfold exec. rewrite internalLinkRegex_parts, m_Seq.
  cbn [m]. change ("<InternalLink" : str) with ("<"%char :: ("InternalLink" : str)).
  cbn [eat]. replace (eqChar true c "<") with false; [done|].
  revert Hc. destruct c as [[] [] [] [] [] [] [] []]; intros Hc;
    try reflexivity. by destruct Hc.
Qed.

Lemma clearOf_no_lt pre rest :
  Forall (fun c => c <> "<"%char) pre ->
  clearOf true internalLinkRegex pre rest.
Proof.
  intros H p1 c p2 ->. apply exec_needs_lt.
  apply Forall_app in H as [_ H]. by inversion H.
Qed.

(** The table: a later entry replaces an earlier one with the same key, so an
    entry is what its key finds when no later entry shares the key. *)
Lemma linkMap_app (l1 l2 : list internalLink) :
  linkMap (l1 ++ l2)
    = foldl (fun mp link => <[toLowerCase (id link) := link]> mp) (linkMap l1) l2.
Proof. unfold linkMap. by rewrite foldl_app. Qed.

Lemma foldl_link_other (key : str) (l : list internalLink) (mp : gmap str internalLink) :
  (forall x, x ∈ l -> toLowerCase (id x) <> key) ->
  foldl (fun mp link => <[toLowerCase (id link) := link]> mp) mp l !! key
    = mp !! key.
Proof.
  revert mp. induction l as [|x l IH]; intros mp H; simpl; [done|].
  rewrite IH by (intros y Hy; apply H; by right).
  rewrite lookup_insert_ne; [done|]. apply H. by left.
Qed.

Lemma linkMap_entry (l1 : list internalLink) (link : internalLink) (l2 : list internalLink) :
  (forall x, x ∈ l2 -> toLowerCase (id x) <> toLowerCase (id link)) ->
  linkMap (l1 ++ link :: l2) !! toLowerCase (id link) = Some link.
Proof.
  intros H. rewrite linkMap_app. simpl. rewrite foldl_link_other by done.
  apply lookup_insert_eq.
Qed.

Lemma linkMap_absent (links : list internalLink) (key : str) :
  (forall x, x ∈ links -> toLowerCase (id x) <> key) ->
  linkMap links !! key = None.
Proof. intros H. unfold linkMap. by rewrite foldl_link_other. Qed.

Lemma aboutShape_wellFormed : wellFormed aboutShape.
Proof.
  unfold wellFormed, aboutShape. cbn [tagText gap keyText quote idText tail].
  split; [apply sameText_refl|]. split; [done|].
  split; [repeat constructor|]. split; [apply sameText_refl|].
  split; [right; left; reflexivity|]. split; [done|].
  split; repeat constructor.
Qed.

Lemma bareShape_wellFormed : wellFormed bareShape.
Proof.
  unfold wellFormed, bareShape. cbn [tagText gap keyText quote idText tail].
  split; [repeat constructor|]. split; [done|].
  split; [repeat constructor|]. split; [repeat constructor|].
  split; [left; reflexivity|]. split; [done|].
  split; repeat constructor.
Qed.

Lemma parse_placeholder_in_context data pre p post :
  wellFormed p ->
  clearOf true internalLinkRegex pre (placeholder p ++ post) ->
  parseInternalLinks data (pre ++ placeholder p ++ post)
    = pre ++ resolution data (idText p) ++ parseInternalLinks data post.
Proof.
  intros Hp Hc. rewrite parse_clear by done. by rewrite parse_at_placeholder.
Qed.

(** ** Heading decoration *)

(** A text splits into its leading white space and a rest that does not
    begin with white space. *)
Lemma span_space (w : str) :
  exists w1 w2, w = w1 ++ w2 /\ allOf isWhiteSpace w1 /\ stops isWhiteSpace w2.
Proof.
  induction w as [|c w (w1 & w2 & -> & H1 & H2)].
  - exists [], []. repeat split; constructor.
  - destruct (isWhiteSpace c) eqn:E.
    + exists (c :: w1), w2. repeat split; [by constructor | done].
    + exists [], (c :: w1 ++ w2). repeat split; [constructor | done].
Qed.

Lemma h2OpenRegex_parts :
  h2OpenRegex =
  Seq (Lit "<h2")
      (Seq (Opt (Group 1 (Seq (Plus isWhiteSpace) (Star true notGt))))
           (Lit ">")).
Proof. reflexivity. Qed.

Lemma exec_h2_attributes t c w rest :
  sameText true t "<h2" -> isWhiteSpace c = true -> allOf notGt w ->
  exec true h2OpenRegex (t ++ (c :: w) ++ ">" ++ rest)
    = Some (rest, <[1 := c :: w]> ∅).
Proof.
  intros Ht Hc Hw. unfold exec. rewrite h2OpenRegex_parts.
  rewrite m_Seq, (m_Lit _ _ _ _ _ _ Ht), m_Seq.
  apply m_Opt_taken. rewrite m_Group, m_Seq.
  destruct (span_space w) as (w1 & w2 & -> & H1 & H2).
  apply Forall_app in Hw as [_ Hw2].
  replace ((c :: w1 ++ w2) ++ ">" ++ rest)
    with (c :: w1 ++ (w2 ++ ">" ++ rest)) by (simpl; by rewrite <- app_assoc).
  apply m_Plus_run; [done | done | |].
  { destruct w2; [done | exact H2]. }
  apply m_Star_run; [done | done |].
  replace (c :: w1 ++ w2 ++ ">" ++ rest)
    with ((c :: w1 ++ w2) ++ ">"%char :: rest) by (simpl; by rewrite <- app_assoc).
  rewrite take_consumed.
  rewrite (proj2 (Nat.eqb_neq _ _)) by (rewrite !length_app; simpl; lia).
  change (">"%char :: rest) with ((">" : str) ++ rest).
  by rewrite m_Lit by apply sameText_refl.
Qed.

Lemma exec_h2_plain t rest :
  sameText true t "<h2" ->
  exec true h2OpenRegex (t ++ ">" ++ rest) = Some (rest, ∅).
Proof.
  intros Ht. unfold exec. rewrite h2OpenRegex_parts.
  rewrite m_Seq, (m_Lit _ _ _ _ _ _ Ht), m_Seq.
  rewrite m_Opt_skipped by reflexivity.
  by rewrite m_Lit by apply sameText_refl.
Qed.

Lemma sameText_nonempty ic t l : sameText ic t l -> l <> [] -> t <> [].
Proof. intros H Hl. by destruct H. Qed.

(** The decorator keeps the attribute text of an opening tag as it is and
    writes its class declaration after it, whether or not the text already
    declares a class. *)
Lemma addHeadingClass_attributes t c w rest :
  sameText true t "<h2" -> isWhiteSpace c = true -> allOf notGt w ->
  addHeadingClass (t ++ (c :: w) ++ ">" ++ rest)
    = "<h2" ++ (c :: w) ++ headingClass ++ ">" ++ addHeadingClass rest.
Proof.
  intros Ht Hc Hw. unfold addHeadingClass.
  replace (t ++ (c :: w) ++ ">" ++ rest)
    with ((t ++ (c :: w) ++ ">") ++ rest) by (by rewrite <- !app_assoc).
  rewrite (replace_hit _ _ _ _ _ (<[1 := c :: w]> ∅)).
  - unfold expand. cbn [flat_map]. rewrite lookup_insert_eq. cbn [default].
    unfold headingClass. cbn [from_option Datatypes.id].
    rewrite app_nil_r, <- !app_assoc. reflexivity.
  - apply (sameText_nonempty true) in Ht; [|done]. by destruct t.
  - rewrite <- !app_assoc. by apply exec_h2_attributes.
Qed.

Lemma addHeadingClass_plain t rest :
  sameText true t "<h2" ->
  addHeadingClass (t ++ ">" ++ rest)
    = "<h2" ++ headingClass ++ ">" ++ addHeadingClass rest.
Proof.
  intros Ht. unfold addHeadingClass.
  replace (t ++ ">" ++ rest) with ((t ++ ">") ++ rest)
    by (by rewrite <- !app_assoc).
  rewrite (replace_hit _ _ _ _ _ ∅).
  - unfold expand. cbn [flat_map]. rewrite lookup_empty.
    unfold headingClass. cbn [default from_option Datatypes.id app].
    rewrite app_nil_r, <- !app_assoc. reflexivity.
  - apply (sameText_nonempty true) in Ht; [|done]. by destruct t.
  - rewrite <- !app_assoc. by apply exec_h2_plain.
Qed.

(** C7, at an opening tag that already declares a class: the decorator leaves
    the declaration in place and writes a second one after it, so the tag
    carries two class attributes and not one attribute with both tokens. *)
Theorem C7_existing_class_gets_second_declaration :
  addHeadingClass ("<h2 class=" ++ quoted "intro" ++ ">Title</h2>")
    = "<h2 class=" ++ quoted "intro" ++ " class=" ++ quoted "blog-heading"
        ++ ">Title</h2>"
  /\ occurrences " class="
       (addHeadingClass ("<h2 class=" ++ quoted "intro" ++ ">Title</h2>")) = 2.
Proof. split; vm_compute; reflexivity. Qed.

(** ** FAQ extraction *)

Lemma generateFAQSchema_None a :
  generateFAQSchema a = None <->
  htmlBody a = [] \/ faqItemsOf (htmlBody a) = [].
Proof.
  unfold generateFAQSchema. destruct (htmlBody a) as [|c s] eqn:E; simpl.
  - split; auto.
  - destruct (faqItemsOf (c :: s)) as [|q l]; simpl; split; intros H;
      try done; auto. by destruct H.
Qed.

(** The example of the specification. *)
Lemma faq_example :
  faqItemsOf "<h2>Intro</h2><p>hello</p><h2>FAQ</h2><p>ans</p>"
    = [mkQuestion "Intro" "hello"; mkQuestion "FAQ" "ans"].
Proof. vm_compute. reflexivity. Qed.

(** A heading directly followed by the next heading contributes no item, and
    a body without headings yields no result. *)
Lemma faq_empty_answer_skipped :
  faqItemsOf "<h2>One</h2><h2>Two</h2><p>text</p>" = [mkQuestion "Two" "text"]
  /\ generateFAQSchema (articleWithBody "<p>no headings</p>") = None.
Proof. split; vm_compute; reflexivity. Qed.

(** C3, at a body in which a heading text occurs twice: the start of the
    second answer is looked up from the beginning of the body, where the
    first occurrence of the heading is found, so the second answer is not
    the text after the second heading ("y") but everything after the first
    one. *)
Theorem C3_repeated_heading_answer_misplaced :
  generateFAQSchema (articleWithBody "<h2>A</h2>x<h2>A</h2>y")
    = Some {| faq_context := "https://schema.org";
              faq_type := "FAQPage";
              mainEntity := [mkQuestion "A" "x"; mkQuestion "A" "x A y"] |}
  /\ faqItemsOf "<h2>A</h2>x<h2>A</h2>y"
       <> [mkQuestion "A" "x"; mkQuestion "A" "y"].
Proof. split; vm_compute; [reflexivity | discriminate]. Qed.

(** ** Soundness of the matcher *)

Section Soundness.

Variable ic : bool.

Lemma eat_sound l s s' :
  eat ic l s = Some s' -> exists s1, s = s1 ++ s' /\ sameText ic s1 l.
Proof.
  revert s. induction l as [|a l IH]; intros s; simpl.
  - destruct s; intros [= <-]; exists []; split; done || constructor.
  - destruct s as [|c s]; [done|]. destruct (eqChar ic c a) eqn:E; [|done].
    intros H. destruct (IH _ H) as (s1 & -> & Hs). exists (c :: s1).
    split; [done | by constructor].
Qed.

Lemma star_sound g p s k o :
  star g p s k = Some o ->
  exists s1 s2, s = s1 ++ s2 /\ allOf p s1 /\ k s2 = Some o.
Proof.
  induction s as [|c s IH]; simpl.
  - intros H. exists [], []. repeat split; [constructor | done].
  - assert (Hhere : k (c :: s) = Some o ->
      exists s1 s2, c :: s = s1 ++ s2 /\ allOf p s1 /\ k s2 = Some o).
    { intros H. exists [], (c :: s). repeat split; [constructor | done]. }
    assert (Hmore : star g p s k = Some o -> p c = true ->
      exists s1 s2, c :: s = s1 ++ s2 /\ allOf p s1 /\ k s2 = Some o).
    { intros H Hc. destruct (IH H) as (s1 & s2 & -> & H1 & H2).
      exists (c :: s1), s2. repeat split; [by constructor | done]. }
    destruct (p c) eqn:Hc; [|exact Hhere]. destruct g.
    + destruct (star true p s k) eqn:E; [|exact Hhere].
      intros [= ->]. by apply Hmore.
    + destruct (k (c :: s)) eqn:E; [intros [= ->]; by apply Hhere|].
      intros H. by apply Hmore.
Qed.

Lemma m_sound r : forall s cs k o,
  m ic r s cs k = Some o ->
  exists s1 s2 cs',
    s = s1 ++ s2 /\ Matches ic r cs s1 cs' /\ k s2 cs' = Some o.
Proof.
  induction r as [l|p|r1 IH1 r2 IH2|r1 IH1|g p|n r1 IH1|n]; intros s cs k o;
    cbn [m Matches].
  - destruct (eat ic l s) as [s'|] eqn:E; [|done]. intros Hk.
    destruct (eat_sound _ _ _ E) as (s1 & -> & Hs). by exists s1, s', cs.
  - destruct s as [|c s]; [done|]. destruct (p c) eqn:Hc; [|done]. intros Hk.
    exists [c], s, cs. repeat split; [|done]. by exists c.
  - intros H. apply IH1 in H as (s1 & s2 & cs1 & -> & M1 & H).
    apply IH2 in H as (s3 & s4 & cs2 & -> & M2 & H).
    exists (s1 ++ s3), s4, cs2. rewrite <- app_assoc. repeat split; [|done].
    by exists s1, s3, cs1.
  - destruct (m ic r1 s cs _) as [o'|] eqn:E.
    + intros [= ->]. apply IH1 in E as (s1 & s2 & cs1 & -> & M1 & H).
      destruct (length s2 =? length (s1 ++ s2))%nat eqn:El; [done|].
      exists s1, s2, cs1. repeat split; [|done]. left. split; [|done].
      intros ->. by rewrite Nat.eqb_refl in El.
    + intros H. exists [], s, cs. repeat split; [|done]. by right.
  - intros H. apply star_sound in H as (s1 & s2 & -> & H1 & H2).
    by exists s1, s2, cs.
  - intros H. apply IH1 in H as (s1 & s2 & cs1 & -> & M1 & H).
    rewrite take_consumed in H. exists s1, s2, (<[n := s1]> cs1).
    repeat split; [|done]. by exists cs1.
  - destruct (cs !! n) as [t|] eqn:E.
    + destruct (eat ic t s) as [s'|] eqn:Ee; [|done]. intros Hk.
      destruct (eat_sound _ _ _ Ee) as (s1 & -> & Hs). by exists s1, s', cs.
    + intros Hk. by exists [], s, cs.
Qed.

Lemma exec_sound r s rest cs :
  exec ic r s = Some (rest, cs) ->
  exists mt, s = mt ++ rest /\ Matches ic r ∅ mt cs.
Proof.
  unfold exec. intros H. apply m_sound in H as (s1 & s2 & cs' & -> & M & [= -> ->]).
  by exists s1.
Qed.

End Soundness.


(** ** Every match of the placeholder pattern is a well-formed placeholder *)

Lemma eqChar_fixed c a :
  canonChar a = a -> (forall x, canonChar x = a -> x = a) ->
  eqChar true c a = true -> c = a.
Proof.
  intros Ha Hx H. apply eqChar_canon in H. rewrite Ha in H. by apply Hx.
Qed.

Lemma canon_is_lt x : canonChar x = "<"%char -> x = "<"%char.
Proof. destruct x as [[] [] [] [] [] [] [] []]; vm_compute; congruence. Qed.

Lemma canon_is_gt x : canonChar x = ">"%char -> x = ">"%char.
Proof. destruct x as [[] [] [] [] [] [] [] []]; vm_compute; congruence. Qed.

Lemma canon_is_slash x : canonChar x = "/"%char -> x = "/"%char.
Proof. destruct x as [[] [] [] [] [] [] [] []]; vm_compute; congruence. Qed.

Lemma canon_is_dq x : canonChar x = dq -> x = dq.
Proof. destruct x as [[] [] [] [] [] [] [] []]; vm_compute; congruence. Qed.

Lemma canon_is_sq x : canonChar x = "'"%char -> x = "'"%char.
Proof. destruct x as [[] [] [] [] [] [] [] []]; vm_compute; congruence. Qed.

Lemma isQuote_cases x : isQuote x = true -> x = dq \/ x = "'"%char.
Proof.
  unfold isQuote. intros H. apply orb_true_iff in H as [H|H];
    apply Ascii.eqb_eq in H; auto.
Qed.

Lemma eqChar_quote x' x : isQuote x = true -> eqChar true x' x = true -> x' = x.
Proof.
  intros Hq H. destruct (isQuote_cases _ Hq) as [-> | ->].
  - by apply (eqChar_fixed _ dq eq_refl canon_is_dq).
  - by apply (eqChar_fixed _ "'"%char eq_refl canon_is_sq).
Qed.

Lemma sameText_slash_gt z : sameText true z "/>" -> z = "/>".
Proof.
  intros H. inversion H as [|c1 a1 z1 l1 H1 Hz1]; subst.
  inversion Hz1 as [|c2 a2 z2 l2 H2 Hz2]; subst. inversion Hz2; subst.
  apply (eqChar_fixed _ "/"%char eq_refl canon_is_slash) in H1 as ->.
  by apply (eqChar_fixed _ ">"%char eq_refl canon_is_gt) in H2 as ->.
Qed.

Lemma match_is_placeholder s rest cs :
  exec true internalLinkRegex s = Some (rest, cs) ->
  exists p, wellFormed p /\ s = placeholder p ++ rest
            /\ cs = <[2 := idText p]> (<[1 := quote p]> ∅).
Proof.
  intros H. apply exec_sound in H as (mt & -> & M).
  rewrite internalLinkRegex_parts in M. unfold afterKey, closing, Plus in M.
  cbn [Matches] in M.
  destruct M as (T & s1 & c1 & -> & [HT ->] & M).
  destruct M as (W & s2 & c2 & -> & MW & M).
  destruct MW as (w0 & W' & c3 & -> & [(cw & -> & Hcw) ->] & [HW' ->]).
  destruct M as (K & s3 & c4 & -> & [HK ->] & M).
  destruct M as (Q & s4 & c5 & -> & (c6 & MQ & ->) & M).
  destruct M as (I & s5 & c7 & -> & (c8 & MI & ->) & M).
  destruct MI as (i0 & I' & c9 & -> & [(ci & -> & Hci) ->] & [HI' ->]).
  destruct M as (Q' & s6 & c10 & -> & [MQ' ->] & M).
  destruct M as (V & Z & c11 & -> & [HV ->] & [HZ ->]).
  apply sameText_slash_gt in HZ as ->.
  rewrite lookup_insert_ne, lookup_insert_eq in MQ' by done.
  assert (HQ : (Q = [] \/ Q = [dq] \/ Q = ["'"%char]) /\ c6 = ∅ /\ Q' = Q).
  { destruct MQ as [[_ [(x & -> & Hx) ->]] | [-> ->]].
    - inversion MQ' as [|x' a q' l Hxx Hq']; subst. inversion Hq'; subst.
      apply (eqChar_quote _ _ Hx) in Hxx as ->.
      repeat split. destruct (isQuote_cases _ Hx) as [-> | ->]; auto.
    - inversion MQ'; subst. auto. }
  destruct HQ as (HQ & -> & ->).
  exists {| tagText := T; gap := [cw] ++ W'; keyText := K; quote := Q;
            idText := [ci] ++ I'; tail := V |}.
  unfold wellFormed, placeholder, opening.
  cbn [tagText gap keyText quote idText tail]. split; [|split].
  - repeat split; try done; by constructor.
  - by rewrite <- !app_assoc.
  - done.
Qed.


(** ** A match never reaches into a later placeholder *)

Lemma plainChar_canon c : plainChar (canonChar c) = plainChar c.
Proof. destruct c as [[] [] [] [] [] [] [] []]; reflexivity. Qed.

Lemma sameText_class (P : ascii -> bool) l' l :
  (forall c, P (canonChar c) = P c) ->
  sameText true l' l -> allOf P l -> allOf P l'.
Proof.
  intros HP H. induction H as [|c a l' l Hc _ IH]; intros Hl; [constructor|].
  apply allOf_cons_inv in Hl as [Ha Hl]. constructor; [|by apply IH].
  apply eqChar_canon in Hc. by rewrite <- HP, Hc, HP.
Qed.

Lemma plain_notLt c : plainChar c = true -> notLt c = true.
Proof.
  unfold plainChar, notLt. intros H.
  apply andb_true_iff in H as [H _]. by apply andb_true_iff in H as [_ H].
Qed.

Lemma plain_idChar c : plainChar c = true -> isIdChar c = true.
Proof.
  unfold plainChar. intros H.
  apply andb_true_iff in H as [H _]. by apply andb_true_iff in H as [H _].
Qed.

Lemma plain_not_slash c : plainChar c = true -> c <> "/"%char.
Proof. intros H ->. discriminate H. Qed.

Lemma space_not_plain c : isWhiteSpace c = true -> plainChar c = false.
Proof. unfold plainChar. intros H. by rewrite (space_not_idChar c H). Qed.

Lemma quote_not_plain c : isQuote c = true -> plainChar c = false.
Proof. unfold plainChar, isIdChar. by intros ->. Qed.

Lemma space_notLt c : isWhiteSpace c = true -> notLt c = true.
Proof. destruct c as [[] [] [] [] [] [] [] []]; vm_compute; congruence. Qed.

Lemma quote_notLt c : isQuote c = true -> notLt c = true.
Proof. intros H. by destruct (isQuote_cases _ H) as [-> | ->]. Qed.

Lemma space_not_quote c : isWhiteSpace c = true -> isQuote c = false.
Proof. destruct c as [[] [] [] [] [] [] [] []]; vm_compute; congruence. Qed.

Lemma allOf_impl (P Q : ascii -> bool) (w : str) :
  (forall c, P c = true -> Q c = true) -> allOf P w -> allOf Q w.
Proof. intros H Hw. eapply Forall_impl; [exact Hw | exact H]. Qed.

(** A [<] that lies in [A ++ B] lies in [B] when [A] has none. *)
Lemma lt_beyond (A B u v : str) :
  allOf notLt A -> u ++ "<"%char :: v = A ++ B ->
  exists u', u = A ++ u' /\ B = u' ++ "<"%char :: v.
Proof.
  intros HA. revert u. induction HA as [|a A Ha _ IH]; intros u H.
  - by exists u.
  - destruct u as [|u0 u]; simpl in H.
    + injection H as <- _. discriminate Ha.
    + injection H as -> H. destruct (IH _ H) as (u' & -> & ->). by exists u'.
Qed.

(** Two maximal runs of one class that begin at the same place are equal. *)
Lemma run_unique (P : ascii -> bool) (V W a b : str) :
  allOf P V -> allOf P W -> stops P a -> stops P b ->
  V ++ a = W ++ b -> V = W /\ a = b.
Proof.
  intros HV. revert W. induction HV as [|c V Hc _ IH]; intros W HW Ha Hb H.
  - destruct HW as [|d W Hd _]; [done|]. simpl in H. subst a. simpl in Ha.
    congruence.
  - destruct HW as [|d W Hd HW]; simpl in H.
    + subst b. simpl in Hb. congruence.
    + injection H as -> H. destruct (IH W HW Ha Hb H) as [-> ->]. done.
Qed.

(** The parts of a well-formed placeholder, with their character classes. *)
Lemma sameText_cons_r ic l' a l :
  sameText ic l' (a :: l) ->
  exists c l1, l' = c :: l1 /\ eqChar ic c a = true /\ sameText ic l1 l.
Proof. intros H. inversion H; subst. eauto. Qed.

Lemma wellFormed_parts p :
  wellFormed p ->
  exists T1 w0 W1 k1 K1,
    tagText p = "<"%char :: T1 /\ allOf plainChar T1
    /\ gap p = w0 :: W1 /\ isWhiteSpace w0 = true /\ allOf isWhiteSpace W1
    /\ keyText p = k1 :: K1 /\ plainChar k1 = true /\ allOf plainChar K1.
Proof.
  intros (HT & Hg & Hga & HK & _).
  change ("<InternalLink" : str) with ("<"%char :: ("InternalLink" : str)) in HT.
  apply sameText_cons_r in HT as (t0 & T1 & ET & Ht0 & HT1).
  apply (eqChar_fixed _ "<"%char eq_refl canon_is_lt) in Ht0 as ->.
  apply (sameText_class plainChar _ _ plainChar_canon) in HT1;
    [|repeat constructor].
  destruct (gap p) as [|w0 W1]; [done|].
  apply allOf_cons_inv in Hga as [Hw0 HW1].
  change ("id=" : str) with ("i"%char :: ("d=" : str)) in HK.
  pose proof (sameText_class plainChar _ _ plainChar_canon HK) as HKp.
  apply sameText_cons_r in HK as (k1 & K1 & EK & _ & _).
  rewrite EK in HKp. apply allOf_cons_inv in HKp as [Hk1 HK1];
    [|repeat constructor].
  by exists T1, w0, W1, k1, K1.
Qed.


(** The end of a placeholder (closing quote, white space, slash and [>])
    contains no [<] and does not begin with a plain character. *)
Lemma ending_notLt q V :
  (q = [] \/ q = [dq] \/ q = ["'"%char]) -> allOf isWhiteSpace V ->
  allOf notLt (q ++ V ++ "/>").
Proof.
  intros Hq HV. apply Forall_app. split.
  - destruct Hq as [-> | [-> | ->]]; repeat constructor.
  - apply Forall_app. split; [|repeat constructor].
    apply (allOf_impl isWhiteSpace); [apply space_notLt | done].
Qed.

Lemma ending_head q V rest :
  (q = [] \/ q = [dq] \/ q = ["'"%char]) -> allOf isWhiteSpace V ->
  stops plainChar ((q ++ V ++ "/>") ++ rest).
Proof.
  intros Hq HV. destruct Hq as [-> | [-> | ->]]; try reflexivity.
  destruct HV as [|c V Hc _]; [reflexivity|]. simpl. by apply space_not_plain.
Qed.

Lemma no_overlap p q u rest v :
  wellFormed p -> wellFormed q -> u <> [] ->
  placeholder p ++ rest = u ++ placeholder q ++ v ->
  exists z, u = placeholder p ++ z.
Proof.
  intros Hp Hq Hu E.
  destruct (wellFormed_parts p Hp) as (T1 & w0 & W1 & k1 & K1 & ET & HT1 & EW
    & Hw0 & HW1 & EK & Hk1 & HK1).
  destruct (wellFormed_parts q Hq) as (T1' & w0' & W1' & k1' & K1' & ET' & HT1'
    & EW' & Hw0' & HW1' & EK' & Hk1' & HK1').
  destruct Hp as (_ & _ & _ & _ & HQ & _ & HI & HV).
  destruct Hq as (_ & _ & _ & _ & HQ' & _ & HI' & HV').
  unfold placeholder, opening in *. rewrite ET, EW, EK in *.
  rewrite ET', EW', EK' in E. clear ET EW EK ET' EW' EK'.
  rewrite <- !app_assoc in E. cbn [app] in E.
  destruct u as [|u0 u]; [done|]. clear Hu. cbn [app] in E.
  injection E as <- E.
  remember (K1' ++ quote q ++ idText q ++ quote q ++ tail q
              ++ "/"%char :: ">"%char :: v) as Y eqn:EY. clear EY.
  symmetry in E.
  apply (lt_beyond T1) in E as (u1 & -> & E);
    [|by apply (allOf_impl plainChar); [apply plain_notLt|]].
  symmetry in E.
  apply (lt_beyond (w0 :: W1)) in E as (u2 & -> & E);
    [|by apply (allOf_impl isWhiteSpace); [apply space_notLt | constructor]].
  symmetry in E.
  apply (lt_beyond (k1 :: K1)) in E as (u3 & -> & E);
    [|by apply (allOf_impl plainChar); [apply plain_notLt | constructor]].
  symmetry in E.
  apply (lt_beyond (quote p)) in E as (u4 & -> & E).
  2:{ destruct HQ as [-> | [-> | ->]]; repeat constructor. }
  set (Z := quote p ++ tail p ++ "/>").
  assert (HZ : allOf notLt Z) by (by apply ending_notLt).
  assert (Hh : stops plainChar (Z ++ rest)) by (by apply ending_head).
  assert (EZ : quote p ++ tail p ++ "/"%char :: ">"%char :: rest = Z ++ rest).
  { unfold Z. by rewrite <- !app_assoc. }
  rewrite EZ in E. clear EZ.
  assert (Goal : exists z, u4 = idText p ++ Z ++ z).
  { apply app_eq_inv in E as [(l & EI & E) | (l & -> & E)].
    - (* the [<] would lie inside the id of the match *)
      exfalso. destruct l as [|l0 l1].
      + apply (lt_beyond Z rest [] _ HZ) in E as (u' & E1 & _).
        unfold Z in E1. destruct (quote p), (tail p); discriminate E1.
      + injection E as <- E. rewrite EI in HI.
        apply Forall_app in HI as [_ HI]. apply allOf_cons_inv in HI as [_ Hl1].
        assert (Hspace : w0' :: W1' ++ k1' :: Y <> Z ++ rest).
        { intros E2. unfold Z in E2. destruct HQ as [Eq | [Eq | Eq]];
            rewrite Eq in E2; cbn [app] in E2.
          - rewrite <- app_assoc in E2.
            change (w0' :: W1' ++ k1' :: Y) with ((w0' :: W1') ++ k1' :: Y) in E2.
            apply (run_unique isWhiteSpace) in E2 as [_ E2];
              [ | by constructor | done | | reflexivity].
            + injection E2 as -> _. discriminate Hk1'.
            + simpl. destruct (isWhiteSpace k1') eqn:Ek; [|done].
              by rewrite (space_not_plain _ Ek) in Hk1'.
          - injection E2 as -> _. discriminate Hw0'.
          - injection E2 as -> _. discriminate Hw0'. }
        apply app_eq_inv in E as [(l2 & ET & E) | (l2 & -> & E)].
        * destruct l2 as [|x l2]; [by simpl in E|].
          rewrite ET in HT1'.
          apply Forall_app in HT1' as [_ Hx]. apply allOf_cons_inv in Hx as [Hx _].
          rewrite E in Hh. simpl in Hh. congruence.
        * destruct l2 as [|x l2]; [by simpl in E|].
          apply Forall_app in Hl1 as [_ Hx]. apply allOf_cons_inv in Hx as [Hx _].
          injection E as <- _. by rewrite (space_not_idChar _ Hw0') in Hx.
    - symmetry in E. apply (lt_beyond Z) in E as (z & -> & _); [|done].
      by exists z. }
  destruct Goal as (z & ->). exists z. unfold Z.
  rewrite <- !app_assoc. reflexivity.
Qed.


(** ** The scan reaches every placeholder *)

Lemma scan_reaches q post :
  wellFormed q ->
  forall pre, exists pieces,
    sourceOf pieces = pre
    /\ scan true internalLinkRegex 0 (pre ++ placeholder q ++ post)
       = pieces
         ++ Hit (placeholder q) (<[2 := idText q]> (<[1 := quote q]> ∅))
            :: scan true internalLinkRegex 0 post.
Proof.
  intros Hq pre. remember (length pre) as n eqn:En. revert pre En.
  induction n as [n IH] using lt_wf_ind. intros pre En.
  destruct pre as [|c pre].
  - exists []. split; [done|]. cbn [app].
    apply scan_hit; [by apply placeholder_nonempty | by apply exec_placeholder].
  - destruct (exec true internalLinkRegex ((c :: pre) ++ placeholder q ++ post))
      as [[rest cs]|] eqn:E.
    + destruct (match_is_placeholder _ _ _ E) as (p & Hp & Es & Ecs).
      destruct (no_overlap p q (c :: pre) rest post Hp Hq) as (z & Ez);
        [done | by rewrite <- Es |].
      assert (Er : rest = z ++ placeholder q ++ post).
      { rewrite Ez, <- app_assoc in Es. by apply app_inv_head in Es. }
      destruct (IH (length z)) with (pre := z) as (ps & Hs & Hscan); [|done|].
      { subst n. rewrite Ez, length_app.
        apply placeholder_nonempty in Hp. destruct (placeholder p); [done|].
        simpl. lia. }
      exists (Hit (placeholder p) cs :: ps). split.
      * unfold sourceOf in *. cbn [flat_map]. by rewrite Hs.
      * rewrite Es. rewrite (scan_hit _ _ _ _ cs);
          [ | by apply placeholder_nonempty | by rewrite <- Es].
        rewrite Er, Hscan. reflexivity.
    + destruct (IH (length pre)) with (pre := pre) as (ps & Hs & Hscan);
        [subst n; simpl; lia | done |].
      exists (Keep c :: ps). split.
      * unfold sourceOf in *. cbn [flat_map]. by rewrite Hs.
      * change ((c :: pre) ++ placeholder q ++ post)
          with (c :: pre ++ placeholder q ++ post) in *.
        rewrite scan_miss by done. by rewrite Hscan.
Qed.

Lemma parse_reaches data q pre post :
  wellFormed q ->
  exists pieces,
    sourceOf pieces = pre
    /\ parseInternalLinks data (pre ++ placeholder q ++ post)
       = resolvePieces data pieces ++ resolution data (idText q)
           ++ parseInternalLinks data post.
Proof.
  intros Hq. destruct (scan_reaches q post Hq pre) as (ps & Hs & Hscan).
  exists ps. split; [done|]. unfold parseInternalLinks, replace.
  rewrite Hscan, flat_map_app. cbn [flat_map]. by rewrite lookup_insert_eq.
Qed.

(** ** Internal links: the claims *)

(** C1: a placeholder whose id is, up to letter case, the id of a table entry
    (the entry the table keeps for that key: no later entry has the same
    lower-cased id) is replaced by the anchor whose href is the entry's url,
    whose text is the entry's text and whose class is internal-link.  This
    holds wherever the placeholder stands in the body: the output is the
    resolution of the text before it, the anchor, and the resolution of the
    text after it; and when no placeholder begins in the text before it, that
    text is kept as it is. *)
Theorem C1_placeholder_becomes_anchor
    (data : blogData) (l1 l2 : list internalLink) (link : internalLink)
    (pre post : str) (p : shape) :
  internalLinks data = Some (l1 ++ link :: l2) ->
  (forall x, x ∈ l2 -> toLowerCase (id x) <> toLowerCase (id link)) ->
  wellFormed p ->
  toLowerCase (idText p) = toLowerCase (id link) ->
  (exists pieces,
     sourceOf pieces = pre
     /\ parseInternalLinks data (pre ++ placeholder p ++ post)
        = resolvePieces data pieces
          ++ ("<a href=" ++ quoted (url link) ++ " class="
                ++ quoted "internal-link" ++ ">" ++ text link ++ "</a>")
          ++ parseInternalLinks data post)
  /\ (clearOf true internalLinkRegex pre (placeholder p ++ post) ->
      parseInternalLinks data (pre ++ placeholder p ++ post)
        = pre
          ++ ("<a href=" ++ quoted (url link) ++ " class="
                ++ quoted "internal-link" ++ ">" ++ text link ++ "</a>")
          ++ parseInternalLinks data post).
Proof.
  intros Hd Hlast Hp Hid.
  assert (Hres : resolution data (idText p) = anchor link).
  { unfold resolution, resolveLink. rewrite Hd.
    cbn [default from_option Datatypes.id].
    by rewrite Hid, linkMap_entry. }
  split.
  - destruct (parse_reaches data p pre post Hp) as (ps & Hs & Hparse).
    exists ps. split; [done|]. rewrite Hparse, Hres. reflexivity.
  - intros Hclear. rewrite parse_placeholder_in_context by done.
    rewrite Hres. reflexivity.
Qed.

Lemma C1_placeholder_becomes_anchor_witness :
  parseInternalLinks sampleData
    ("<p>" ++ ("<InternalLink id=" ++ quoted "about" ++ "/>") ++ "</p>")
  = "<p>"
    ++ ("<a href=" ++ quoted "/about" ++ " class=" ++ quoted "internal-link"
          ++ ">About Us</a>")
    ++ parseInternalLinks sampleData "</p>".
Proof.
  apply (proj2 (C1_placeholder_becomes_anchor sampleData [] []
           {| id := "about"; url := "/about"; text := "About Us" |}
           "<p>" "</p>" aboutShape eq_refl
           ltac:(intros x Hx; by apply elem_of_nil in Hx)
           aboutShape_wellFormed eq_refl)).
  intros p1 c p2 Hpre.
  destruct p1 as [|a1 [|a2 [|a3 [|a4 p1]]]]; simplify_eq/=; reflexivity.
Defined.

(** The example of the specification, evaluated. *)
Lemma internal_link_example :
  parseInternalLinks sampleData ("<InternalLink id=" ++ quoted "about" ++ "/>")
    = "<a href=" ++ quoted "/about" ++ " class=" ++ quoted "internal-link"
        ++ ">About Us</a>".
Proof. vm_compute. reflexivity. Qed.

(** C1 as stated fails for an id the pattern does not read and for a
    placeholder without the self-closing slash: the table knows the ids
    [about us] and [about], yet neither placeholder becomes an anchor; both
    stay in the text as they were written. *)
Lemma C1_table_id_not_always_resolved :
  (exists link, link ∈ default [] (internalLinks spacedData)
                /\ id link = ("about us" : str))
  /\ parseInternalLinks spacedData
       ("<InternalLink id=" ++ quoted "about us" ++ "/>")
     = "<InternalLink id=" ++ quoted "about us" ++ "/>"
  /\ (exists link, link ∈ default [] (internalLinks spacedData)
                   /\ id link = ("about" : str))
  /\ parseInternalLinks spacedData "<InternalLink id='about'>"
     = "<InternalLink id='about'>"
  /\ parseInternalLinks spacedData "<InternalLink id='about'/>"
     = "<a href=" ++ quoted "/about" ++ " class=" ++ quoted "internal-link"
         ++ ">About</a>".
Proof.
  split; [eexists; split; [apply list_elem_of_In; simpl; left; reflexivity|
                           reflexivity]|].
  split; [vm_compute; reflexivity|].
  split; [eexists; split; [apply list_elem_of_In; simpl; right; left;
                           reflexivity| reflexivity]|].
  split; vm_compute; reflexivity.
Qed.

(** C2, as far as it holds: a placeholder written with the self-closing slash
    (id between double quotes, between single quotes or bare; optional white
    space before the slash; tag name and key in any letter case), wherever it
    stands in the body, is replaced by the anchor of the table entry for its
    lower-cased id when there is one, and otherwise by the broken-link marker
    that holds the id as written; the resolver is a total function, so
    nothing is thrown. *)
Theorem C2_closed_placeholder_resolved_or_marked
    (data : blogData) (pre post : str) (p : shape) :
  wellFormed p ->
  exists pieces,
    sourceOf pieces = pre
    /\ (clearOf true internalLinkRegex pre (placeholder p ++ post) ->
        resolvePieces data pieces = pre)
    /\ (forall link,
          linkMap (default [] (internalLinks data)) !! toLowerCase (idText p)
            = Some link ->
          parseInternalLinks data (pre ++ placeholder p ++ post)
            = resolvePieces data pieces ++ anchor link
                ++ parseInternalLinks data post)
    /\ (linkMap (default [] (internalLinks data)) !! toLowerCase (idText p)
          = None ->
        parseInternalLinks data (pre ++ placeholder p ++ post)
          = resolvePieces data pieces
            ++ ("<span class=" ++ quoted "broken-link" ++ ">[Broken Link: "
                  ++ idText p ++ "]</span>")
            ++ parseInternalLinks data post).
Proof.
  intros Hp. destruct (parse_reaches data p pre post Hp) as (ps & Hs & Hparse).
  exists ps. split; [done|]. split; [|split].
  - intros Hc. rewrite parse_placeholder_in_context in Hparse by done.
    apply app_inv_tail in Hparse. done.
  - intros link Hl. rewrite Hparse. unfold resolution, resolveLink.
    by rewrite Hl.
  - intros Hn. rewrite Hparse. unfold resolution, resolveLink. by rewrite Hn.
Qed.

Lemma C2_closed_placeholder_resolved_or_marked_witness :
  exists pieces,
    sourceOf pieces = "see "
    /\ (clearOf true internalLinkRegex "see " (placeholder bareShape ++ " now") ->
        resolvePieces sampleData pieces = "see ")
    /\ (forall link,
          linkMap (default [] (internalLinks sampleData))
            !! toLowerCase (idText bareShape) = Some link ->
          parseInternalLinks sampleData ("see " ++ placeholder bareShape ++ " now")
            = resolvePieces sampleData pieces ++ anchor link
                ++ parseInternalLinks sampleData " now")
    /\ (linkMap (default [] (internalLinks sampleData))
          !! toLowerCase (idText bareShape) = None ->
        parseInternalLinks sampleData ("see " ++ placeholder bareShape ++ " now")
          = resolvePieces sampleData pieces
            ++ ("<span class=" ++ quoted "broken-link" ++ ">[Broken Link: "
                  ++ idText bareShape ++ "]</span>")
            ++ parseInternalLinks sampleData " now").
Proof.
  apply (C2_closed_placeholder_resolved_or_marked sampleData "see " " now"
           bareShape bareShape_wellFormed).
Defined.

(** The same placeholder, evaluated. *)
Lemma broken_link_example :
  parseInternalLinks sampleData ("see " ++ placeholder bareShape ++ " now")
    = "see " ++ "<span class=" ++ quoted "broken-link"
        ++ ">[Broken Link: Missing/Page]</span>" ++ " now".
Proof. vm_compute. reflexivity. Qed.

(** C2 as stated fails when the self-closing slash is omitted, when the id
    holds a character the pattern does not read as part of an id, and when
    the id is empty: the pattern requires the slash, ends the id at white
    space and wants at least one id character, so such a placeholder is
    neither resolved nor marked; it is left in the text as it was written. *)
Lemma C2_unclosed_placeholder_untouched :
  wellFormed aboutShape
  /\ unclosed aboutShape = "<InternalLink id=" ++ quoted "about" ++ ">"
  /\ parseInternalLinks sampleData (unclosed aboutShape) = unclosed aboutShape
  /\ parseInternalLinks sampleData (unclosed aboutShape)
       <> resolution sampleData (idText aboutShape)
  /\ parseInternalLinks sampleData
       ("<InternalLink id=" ++ quoted "pet food" ++ "/>")
     = "<InternalLink id=" ++ quoted "pet food" ++ "/>"
  /\ parseInternalLinks sampleData
       ("<InternalLink id=" ++ quoted "pet food" ++ "/>")
       <> resolution sampleData "pet food"
  /\ parseInternalLinks sampleData ("<InternalLink id=" ++ quoted "" ++ "/>")
     = "<InternalLink id=" ++ quoted "" ++ "/>".
Proof.
  split; [apply aboutShape_wellFormed|]. split; [reflexivity|].
  split; [vm_compute; reflexivity|]. split; [vm_compute; discriminate|].
  split; [vm_compute; reflexivity|]. split; [vm_compute; discriminate|].
  vm_compute. reflexivity.
Qed.

(** ** FAQ extraction in general *)

Lemma search_from (needle s : str) (j start : nat) :
  search needle s = Some j -> start <= j ->
  search needle (drop start s) = Some (j - start).
Proof.
  revert s j. induction start as [|start IH]; intros s j Hs Hle.
  - by rewrite drop_0, Nat.sub_0_r.
  - destruct s as [|c s].
    + simpl in Hs. destruct needle; simplify_eq/=; lia.
    + cbn [search] in Hs. destruct (startsWith (c :: s) needle).
      * simplify_eq. lia.
      * destruct (search needle s) as [j'|] eqn:E; simplify_eq/=.
        apply (IH s j' E). lia.
Qed.

Lemma search_bound (needle s : str) (j : nat) :
  search needle s = Some j -> j <= length s.
Proof.
  revert j. induction s as [|c s IH]; intros j; cbn [search].
  - destruct needle; intros; simplify_eq/=; lia.
  - destruct (startsWith (c :: s) needle); [intros; simplify_eq/=; lia|].
    destruct (search needle s) as [j'|]; intros; simplify_eq/=.
    specialize (IH j' eq_refl). lia.
Qed.

Lemma indexOf_zero (s needle : str) (j : nat) :
  indexOf s needle 0 = Z.of_nat j -> search needle s = Some j.
Proof.
  unfold indexOf. replace (Z.to_nat _) with 0 by lia. rewrite drop_0.
  destruct (search needle s) as [k|]; [|lia]. intros H. f_equal. lia.
Qed.

(** A first occurrence is also the first one from any earlier position. *)
Lemma indexOf_from (s needle : str) (j start : nat) :
  indexOf s needle 0 = Z.of_nat j -> start <= j ->
  indexOf s needle (Z.of_nat start) = Z.of_nat j.
Proof.
  intros H Hle. apply indexOf_zero in H.
  pose proof (search_bound _ _ _ H) as Hb. unfold indexOf.
  replace (Z.to_nat _) with start by lia.
  rewrite (search_from _ _ _ _ H Hle). f_equal. lia.
Qed.

Lemma substring_middle (a b c : str) :
  substring (a ++ b ++ c) (Z.of_nat (length a)) (Z.of_nat (length (a ++ b))) = b.
Proof.
  unfold substring. rewrite !length_app.
  replace (Z.to_nat (Z.min (Z.max (Z.of_nat (length a)) 0) _)) with (length a)
    by lia.
  replace (Z.to_nat (Z.min (Z.max (Z.of_nat (length a + length b)) 0) _))
    with (length a + length b) by lia.
  rewrite Nat.min_l, Nat.max_r by lia.
  rewrite drop_app_length.
  replace (length a + length b - length a) with (length b) by lia.
  apply take_app_length.
Qed.

Section FaqLoop.

Variable lead : str.
Variable segs : list (str * str).

Let body : str := bodyOf lead segs.

Hypothesis Hfirst : firstAtOwnPlace lead segs.

Lemma bodyOf_split i hb :
  segs !! i = Some hb ->
  body = bodyOf lead (take i segs) ++ hb.1
           ++ (hb.2 ++ flat_map (fun hb => hb.1 ++ hb.2) (drop (S i) segs)).
Proof using Type.
  intros Hi. unfold body, bodyOf.
  rewrite <- (take_drop_middle segs i hb Hi) at 1.
  rewrite flat_map_app. cbn [flat_map]. by rewrite <- !app_assoc.
Qed.

Lemma offsetOf_next i hb :
  segs !! i = Some hb ->
  offsetOf lead segs (S i) = offsetOf lead segs i + length hb.1 + length hb.2.
Proof using Type.
  intros Hi. unfold offsetOf, bodyOf.
  rewrite (take_S_r segs i hb Hi), flat_map_app. cbn [flat_map].
  rewrite app_nil_r, !length_app. lia.
Qed.

Lemma offsetOf_all : offsetOf lead segs (length segs) = length body.
Proof using Type. unfold offsetOf, body. by rewrite firstn_all. Qed.

(** One turn of the loop, at a heading that is found at its own place. *)
Lemma faqStep_at i hb acc :
  segs !! i = Some hb ->
  faqStep body (segs.*1) acc i
    = acc ++ match faqOf hb with Some q => [q] | None => [] end.
Proof using Hfirst.
  intros Hi. unfold faqStep.
  rewrite list_lookup_fmap, Hi. cbn [fmap option_fmap option_map default
    from_option Datatypes.id].
  pose proof (Hfirst i hb Hi) as Hidx. fold body in Hidx. rewrite Hidx.
  assert (Hend :
    (if (Z.of_nat i <? Z.of_nat (length (segs.*1)) - 1)%Z
     then indexOf body (default [] (segs.*1 !! (i + 1)))
            (Z.of_nat (offsetOf lead segs i) + Z.of_nat (length hb.1))
     else Z.of_nat (length body))
    = Z.of_nat (offsetOf lead segs i + length hb.1 + length hb.2)).
  { rewrite length_fmap. apply lookup_lt_Some in Hi as Hlt.
    destruct (Z.ltb_spec (Z.of_nat i) (Z.of_nat (length segs) - 1)) as [Hl|Hl].
    - destruct (segs !! (i + 1)) as [hb'|] eqn:Hn.
      2:{ apply lookup_ge_None in Hn. lia. }
      rewrite list_lookup_fmap, Hn.
      cbn [fmap option_fmap option_map default from_option Datatypes.id].
      pose proof (Hfirst (i + 1) hb' Hn) as Hidx'. fold body in Hidx'.
      replace (i + 1) with (S i) in Hidx' by lia.
      rewrite (offsetOf_next i hb Hi) in Hidx'.
      rewrite <- Nat2Z.inj_add. apply indexOf_from; [done | lia].
    - assert (S i = length segs) as E by lia.
      rewrite <- offsetOf_all, <- E. by rewrite (offsetOf_next i hb Hi). }
  rewrite Hend. clear Hend Hidx.
  rewrite (bodyOf_split i hb Hi). rewrite <- Nat2Z.inj_add.
  replace (offsetOf lead segs i + length hb.1)
    with (length (bodyOf lead (take i segs) ++ hb.1))
    by (rewrite length_app; reflexivity).
  replace (length (bodyOf lead (take i segs) ++ hb.1) + length hb.2)
    with (length ((bodyOf lead (take i segs) ++ hb.1) ++ hb.2))
    by (rewrite !length_app; reflexivity).
  rewrite (app_assoc (bodyOf lead (take i segs)) hb.1).
  rewrite substring_middle. unfold faqOf. cbv zeta.
  destruct (truthy _); [reflexivity | by rewrite app_nil_r].
Qed.

Lemma faq_loop k :
  k <= length segs ->
  foldl (faqStep body (segs.*1)) [] (seq 0 k) = omap faqOf (take k segs).
Proof using Hfirst.
  induction k as [|k IH]; intros Hk; [done|].
  rewrite seq_S, foldl_app. cbn [foldl plus]. rewrite IH by lia.
  destruct (segs !! k) as [hb|] eqn:Hi.
  2:{ apply lookup_ge_None in Hi. lia. }
  rewrite (faqStep_at k hb _ Hi), (take_S_r segs k hb Hi), omap_app.
  simpl. reflexivity.
Qed.

(** When the headings of the body are the texts [segs.*1] and each of them
    first occurs at its own heading, the items are those of the headings in
    document order, a heading with an empty answer giving none. *)
Lemma faqItemsOf_general :
  matchAll true headingRegex body = segs.*1 ->
  faqItemsOf body = omap faqOf segs.
Proof using Hfirst.
  intros Hm. unfold faqItemsOf. rewrite Hm, length_fmap.
  rewrite faq_loop by done. by rewrite firstn_all.
Qed.

End FaqLoop.


(** The general lemma applies to the example of the specification. *)
Lemma faq_example_by_general_lemma :
  faqItemsOf (bodyOf [] exampleSegs)
    = [mkQuestion "Intro" "hello"; mkQuestion "FAQ" "ans"].
Proof.
  rewrite faqItemsOf_general.
  - vm_compute. reflexivity.
  - intros i hb Hi. destruct i as [|[|i]]; simplify_eq/=; vm_compute; reflexivity.
  - vm_compute. reflexivity.
Qed.

(** * Further properties of the page *)

(** ** Static parameters and the lookup *)

Lemma find_first {A : Type} (f : A -> bool) (l : list A) (a : A) :
  find f l = Some a ->
  exists l1 l2, l = l1 ++ a :: l2 /\ f a = true
                /\ forall x, x ∈ l1 -> f x = false.
Proof.
  induction l as [|y l IH]; [done|]. cbn [find].
  destruct (f y) eqn:E.
  - intros [= ->]. exists [], l. repeat split; [done|].
    intros x Hx. by apply elem_of_nil in Hx.
  - intros H. destruct (IH H) as (l1 & l2 & -> & Ha & Hl1).
    exists (y :: l1), l2. repeat split; [done|].
    intros x Hx. apply elem_of_cons in Hx as [-> | Hx]; auto.
Qed.

(** Every slug produced by [generateStaticParams] is found again by the page:
    the page built for it is never the not-found page, and the article shown
    has that slug up to trimming and letter case. *)
Theorem static_params_are_found
    (getKeywords : bool -> list str) (toLocaleDateString : str -> str)
    (dTags : list str)
    (dAttrs : gmap str (list str))
    (sanitizeHtml : options -> str -> result str)
    (data : blogData) (s : str) :
  s ∈ generateStaticParams data ->
  exists a,
    a ∈ articles data
    /\ normalizeSlug (slug a) = normalizeSlug s
    /\ BlogPostPage getKeywords toLocaleDateString dTags dAttrs sanitizeHtml data s
       = Rendered (articlePage getKeywords toLocaleDateString a
                     (renderArticleContent dTags dAttrs sanitizeHtml data a)).
Proof.
  intros Hs. unfold generateStaticParams in Hs.
  apply list_elem_of_fmap in Hs as (a0 & -> & Ha0).
  destruct (findArticle data (slug a0)) as [a|] eqn:E.
  - destruct (findArticle_Some _ _ _ E) as [Hin Heq].
    exists a. repeat split; [done | done |]. unfold BlogPostPage. by rewrite E.
  - by destruct (findArticle_None _ _ E a0 Ha0).
Qed.

Lemma static_params_are_found_witness :
  exists a,
    a ∈ articles sampleData
    /\ normalizeSlug (slug a) = normalizeSlug "Best-Feeder"
    /\ BlogPostPage sampleKeywords sampleDate [] ∅ identitySanitizer sampleData "Best-Feeder"
       = Rendered (articlePage sampleKeywords sampleDate a
                     (renderArticleContent [] ∅ identitySanitizer sampleData a)).
Proof.
  apply (static_params_are_found sampleKeywords sampleDate [] ∅ identitySanitizer
           sampleData "Best-Feeder").
  apply list_elem_of_In. simpl. left. reflexivity.
Defined.

(** The lookup returns the first article whose normalized slug is the
    normalized request: an article stored after another one with the same
    normalized slug is never the one returned for it. *)
Theorem lookup_returns_first_match (data : blogData) (requested : str)
    (a : article) :
  findArticle data requested = Some a ->
  exists l1 l2,
    articles data = l1 ++ a :: l2
    /\ forall x, x ∈ l1 -> normalizeSlug (slug x) <> normalizeSlug requested.
Proof.
  unfold findArticle. intros H.
  apply find_first in H as (l1 & l2 & E & _ & Hl1).
  exists l1, l2. split; [done|]. intros x Hx.
  specialize (Hl1 x Hx). by apply bool_decide_eq_false in Hl1.
Qed.

Lemma lookup_returns_first_match_witness :
  exists l1 l2,
    articles shadowedData = l1 ++ sampleArticle :: l2
    /\ forall x, x ∈ l1 ->
         normalizeSlug (slug x) <> normalizeSlug " best-feeder".
Proof.
  apply (lookup_returns_first_match shadowedData " best-feeder" sampleArticle).
  vm_compute. reflexivity.
Defined.

(** The page and its metadata agree on what exists: the page is the
    not-found page exactly when the metadata is the fallback. *)
Theorem page_and_metadata_agree
    (getKeywords : bool -> list str) (toLocaleDateString : str -> str)
    (dTags : list str)
    (dAttrs : gmap str (list str))
    (sanitizeHtml : options -> str -> result str)
    (data : blogData) (requested : str) (parentKeywords : option (list str)) :
  BlogPostPage getKeywords toLocaleDateString dTags dAttrs sanitizeHtml data requested = NotFound
  <-> generateMetadata getKeywords data requested parentKeywords
        = notFoundMetadata.
Proof.
  unfold BlogPostPage, generateMetadata.
  destruct (findArticle data requested); split; done.
Qed.


(** ** Fallbacks shared by the metadata and the structured data *)

Lemma orElse_nonempty a b : b <> [] -> orElse a b <> [].
Proof. unfold orElse. by destruct a. Qed.

Lemma optOrElse_nonempty a b : b <> [] -> optOrElse a b <> [].
Proof. destruct a as [a|]; [apply orElse_nonempty | done]. Qed.

(** The title of a found article is its title tag when that is present and
    not empty, and its page title otherwise (an empty title tag counts as
    absent); so the title is never empty when the page title is not. *)
Theorem metadata_title_fallback
    (getKeywords : bool -> list str) (data : blogData) (requested : str)
    (parentKeywords : option (list str)) (a : article) :
  findArticle data requested = Some a ->
  let md := generateMetadata getKeywords data requested parentKeywords in
  (forall t, titleTag a = Some t -> t <> [] -> md_title md = t)
  /\ (titleTag a = None \/ titleTag a = Some [] -> md_title md = pageTitle a)
  /\ (pageTitle a <> [] -> md_title md <> [])
  /\ (forall og, md_openGraph md = Some og -> og_title og = md_title md).
Proof.
  intros Hf. unfold generateMetadata. rewrite Hf. cbn. repeat split.
  - intros t -> Ht. by destruct t.
  - by intros [-> | ->].
  - apply optOrElse_nonempty.
  - by intros og [= <-].
Qed.

Lemma metadata_title_fallback_witness :
  md_title (generateMetadata sampleKeywords sampleData "best-feeder" None)
    = pageTitle sampleArticle.
Proof.
  apply (proj1 (proj2 (metadata_title_fallback sampleKeywords sampleData
                         "best-feeder" None sampleArticle eq_refl))).
  by left.
Defined.

(** One description everywhere: the meta description of the page, the Open
    Graph description, the BlogPosting description and the Product
    description are the same text, the article's meta description or, when
    that is empty, its description. *)
Theorem description_is_shared
    (getKeywords : bool -> list str) (toLocaleDateString : str -> str)
    (dTags : list str)
    (dAttrs : gmap str (list str))
    (sanitizeHtml : options -> str -> result str)
    (data : blogData) (requested : str)
    (parentKeywords : option (list str)) (a : article) (p : page) :
  findArticle data requested = Some a ->
  BlogPostPage getKeywords toLocaleDateString dTags dAttrs sanitizeHtml data requested
    = Rendered p ->
  let md := generateMetadata getKeywords data requested parentKeywords in
  bp_description (articleScript p) = md_description md
  /\ (forall og, md_openGraph md = Some og ->
        og_description og = md_description md)
  /\ (forall pr, productScript p = Some pr ->
        product_description pr = md_description md)
  /\ (metaDescription a <> [] -> md_description md = metaDescription a)
  /\ (metaDescription a = [] -> md_description md = description a).
Proof.
  intros Hf. unfold BlogPostPage, generateMetadata. rewrite Hf.
  intros [= <-]. cbn. repeat split.
  - by intros og [= <-].
  - unfold generateProductSchema. intros pr.
    destruct (amazon_link a) as [[|c l]|]; cbn; [done | | done].
    by intros [= <-].
  - unfold orElse. by destruct (metaDescription a).
  - by intros ->.
Qed.

Lemma description_is_shared_witness :
  md_description (generateMetadata sampleKeywords sampleData "best-feeder" None)
    = description sampleArticle.
Proof.
  apply (proj2 (proj2 (proj2 (proj2
    (description_is_shared sampleKeywords sampleDate [] ∅ identitySanitizer sampleData
       "best-feeder" None sampleArticle
       (articlePage sampleKeywords sampleDate sampleArticle
          (renderArticleContent [] ∅ identitySanitizer sampleData sampleArticle))
       eq_refl eq_refl))))).
  reflexivity.
Defined.

(** The modification date: the header shows an update date exactly when the
    article has one, namely that date as the runtime formats it; the
    structured data and the metadata then carry the stored date, and without
    one they fall back to the publication date. *)
Theorem modified_date_is_consistent
    (getKeywords : bool -> list str) (toLocaleDateString : str -> str)
    (dTags : list str) (dAttrs : gmap str (list str))
    (sanitizeHtml : options -> str -> result str)
    (data : blogData) (requested : str)
    (parentKeywords : option (list str)) (a : article) (p : page) :
  findArticle data requested = Some a ->
  BlogPostPage getKeywords toLocaleDateString dTags dAttrs sanitizeHtml data
    requested = Rendered p ->
  let md := generateMetadata getKeywords data requested parentKeywords in
  (forall og, md_openGraph md = Some og ->
     modifiedTime og = bp_dateModified (articleScript p))
  /\ (forall d, headerUpdated p = Some d ->
        dateModified a <> []
        /\ d = toLocaleDateString (dateModified a)
        /\ bp_dateModified (articleScript p) = dateModified a)
  /\ (headerUpdated p = None ->
        dateModified a = []
        /\ bp_dateModified (articleScript p) = datePublished a)
  /\ headerPublished p = toLocaleDateString (datePublished a).
Proof.
  intros Hf. unfold BlogPostPage, generateMetadata. rewrite Hf.
  intros [= <-]. cbn. split; [by intros og [= <-]|].
  destruct (dateModified a); cbn; repeat split; intros; simplify_eq/=; done.
Qed.

Lemma modified_date_is_consistent_witness :
  dateModified updatedArticle <> []
  /\ ("3 Feb 2025" : str) = sampleDate (dateModified updatedArticle)
  /\ bp_dateModified
       (articleScript
          (articlePage sampleKeywords sampleDate updatedArticle
             (renderArticleContent [] ∅ identitySanitizer updatedData
                updatedArticle)))
     = dateModified updatedArticle.
Proof.
  apply (proj1 (proj2
    (modified_date_is_consistent sampleKeywords sampleDate [] ∅
       identitySanitizer updatedData "feeder-update" None updatedArticle
       (articlePage sampleKeywords sampleDate updatedArticle
          (renderArticleContent [] ∅ identitySanitizer updatedData
             updatedArticle))
       eq_refl eq_refl))).
  reflexivity.
Defined.

(** The Product structured data and the visible affiliate block go together:
    the page has the one exactly when it has the other, and the offer url is
    the address of the affiliate link. *)
Theorem product_schema_matches_affiliate_block
    (getKeywords : bool -> list str) (toLocaleDateString : str -> str)
    (a : article) (body : rendered) :
  let p := articlePage getKeywords toLocaleDateString a body in
  (is_Some (productScript p) <-> is_Some (affiliate p))
  /\ (forall pr link, productScript p = Some pr -> affiliate p = Some link ->
        offer_url (offers pr) = link).
Proof.
  cbn. unfold generateProductSchema.
  destruct (amazon_link a) as [[|c l]|]; cbn.
  - split; [split; intros [? ?]; done | done].
  - split; [split; by eexists|]. intros pr link [= <-] [= <-]. reflexivity.
  - split; [split; intros [? ?]; done | done].
Qed.


(** ** The link table *)

Lemma linkMap_snoc (links : list internalLink) (x : internalLink) :
  linkMap (links ++ [x]) = <[toLowerCase (id x) := x]> (linkMap links).
Proof. by rewrite linkMap_app. Qed.

(** What a key finds in the table is an entry of the list whose lower-cased
    id is the key, and a key finds something exactly when the list has such
    an entry. *)
Theorem link_table_lookup (links : list internalLink) (key : str) :
  (forall l, linkMap links !! key = Some l ->
     l ∈ links /\ toLowerCase (id l) = key)
  /\ (is_Some (linkMap links !! key) <->
        exists l, l ∈ links /\ toLowerCase (id l) = key).
Proof.
  induction links as [|x links [IH1 IH2]] using rev_ind.
  - split; [done|]. split; [by intros [? ?] | intros (l & Hl & _)].
    by apply elem_of_nil in Hl.
  - rewrite linkMap_snoc. split.
    + intros l. rewrite lookup_insert. case_decide as E.
      * intros [= <-]. split; [|done]. apply elem_of_app. right. by left.
      * intros H. destruct (IH1 l H) as [Hin Hk]. split; [|done].
        apply elem_of_app. by left.
    + rewrite lookup_insert. case_decide as E.
      * split; [|by eexists]. intros _. exists x. split; [|done].
        apply elem_of_app. right. by left.
      * rewrite IH2. split; intros (l & Hl & Hk); exists l; (split; [|done]).
        -- apply elem_of_app. by left.
        -- apply elem_of_app in Hl as [Hl | Hl]; [done|].
           apply list_elem_of_singleton in Hl as ->. done.
Qed.

(** The replacer compares ids without regard to letter case: two spellings
    of an id that the table knows give the same anchor, while for an id the
    table does not know each spelling is echoed as written. *)
Theorem resolver_ignores_letter_case (mp : gmap str internalLink) (i i' : str) :
  toLowerCase i = toLowerCase i' ->
  (is_Some (mp !! toLowerCase i) -> resolveLink mp i = resolveLink mp i')
  /\ (mp !! toLowerCase i = None ->
      resolveLink mp i = brokenLink i /\ resolveLink mp i' = brokenLink i').
Proof.
  intros E. unfold resolveLink. rewrite <- E. split.
  - by intros [l ->].
  - by intros ->.
Qed.

Lemma resolver_ignores_letter_case_witness :
  resolveLink (linkMap (default [] (internalLinks sampleData))) "ABOUT"
    = resolveLink (linkMap (default [] (internalLinks sampleData))) "about".
Proof.
  apply (proj1 (resolver_ignores_letter_case
                  (linkMap (default [] (internalLinks sampleData)))
                  "ABOUT" "about" eq_refl)).
  vm_compute. by eexists.
Defined.

(** ** The scan covers its input *)

Lemma exec_consumed ic r s rest cs :
  exec ic r s = Some (rest, cs) ->
  s = take (length s - length rest) s ++ rest.
Proof.
  intros H. apply exec_sound in H as (mt & -> & _). by rewrite take_consumed.
Qed.

(** The pieces of a scan, read in order, are the text scanned. *)
Lemma scan_covers ic r s : forall k, sourceOf (scan ic r k s) = drop k s.
Proof.
  induction s as [|c s IH]; intros k.
  - destruct k; simpl; [|done]. destruct (exec ic r []) as [[rest cs]|] eqn:E;
      [|done].
    apply exec_consumed in E. destruct rest; [|by destruct (take _ _)].
    simpl. reflexivity.
  - destruct k as [|k]; [|simpl; apply IH].
    cbn [scan]. destruct (exec ic r (c :: s)) as [[rest cs]|] eqn:E.
    + pose proof (exec_consumed _ _ _ _ _ E) as Hs. cbv zeta.
      destruct (take (length (c :: s) - length rest) (c :: s)) as [|c' t] eqn:Et.
      * unfold sourceOf in *. cbn [flat_map app]. rewrite IH. by rewrite drop_0.
      * cbn [app] in Hs. injection Hs as <- Hs.
        unfold sourceOf in *. cbn [flat_map]. rewrite IH.
        rewrite Hs at 1. rewrite drop_app_length. rewrite drop_0.
        cbn [app]. by rewrite <- Hs.
    + unfold sourceOf in *. cbn [flat_map app]. rewrite IH. by rewrite drop_0.
Qed.

(** A property of every match is a property of every hit of a scan. *)
Lemma scan_hits ic r (P : str -> caps -> Prop) :
  (forall s mt rest cs,
     s = mt ++ rest -> exec ic r s = Some (rest, cs) -> P mt cs) ->
  forall s k,
    Forall (fun pc => match pc with Keep _ => True | Hit mt cs => P mt cs end)
           (scan ic r k s).
Proof.
  intros HP s. induction s as [|c s IH]; intros k.
  - destruct k; simpl; [|constructor].
    destruct (exec ic r []) as [[rest cs]|] eqn:E; [|constructor].
    constructor; [|constructor].
    apply (HP [] _ rest cs); [|done]. by apply exec_consumed in E.
  - destruct k as [|k]; [|simpl; apply IH].
    cbn [scan]. destruct (exec ic r (c :: s)) as [[rest cs]|] eqn:E.
    + constructor.
      * apply (HP (c :: s) _ rest cs); [|done]. by apply exec_consumed in E.
      * destruct (take _ _); [constructor; [done | apply IH] | apply IH].
    + constructor; [done | apply IH].
Qed.

(** ** What the resolver rewrites *)

(** The resolver cuts the body into kept characters and well-formed
    placeholders, keeps the former and replaces each of the latter by what
    its id resolves to: nothing but well-formed placeholders is rewritten. *)
Theorem resolver_rewrites_only_placeholders (data : blogData) (body : str) :
  exists pieces,
    sourceOf pieces = body
    /\ Forall placeholderPiece pieces
    /\ parseInternalLinks data body = resolvePieces data pieces.
Proof.
  exists (scan true internalLinkRegex 0 body). split; [|split].
  - by rewrite scan_covers, drop_0.
  - apply (scan_hits true internalLinkRegex
             (fun mt cs => exists p, wellFormed p /\ mt = placeholder p
                                     /\ cs !! 2 = Some (idText p))).
    intros s mt rest cs -> E.
    destruct (match_is_placeholder _ _ _ E) as (p & Hp & Es & ->).
    exists p. apply app_inv_tail in Es. split; [done|]. split; [done|].
    apply lookup_insert_eq.
  - reflexivity.
Qed.

(** A body without [<] holds no placeholder and no heading tag: the resolver
    and the heading decorator return it as it is. *)
Theorem plain_text_is_untouched (data : blogData) (s : str) :
  noLt s -> parseInternalLinks data s = s /\ addHeadingClass s = s.
Proof.
  intros Hs. split.
  - rewrite <- (app_nil_r s) at 1. rewrite parse_clear by (by apply clearOf_no_lt).
    by rewrite app_nil_r.
  - unfold addHeadingClass. induction Hs as [|c s Hc _ IH]; [done|].
    rewrite replace_miss; [by rewrite IH|].
    unfold exec. rewrite h2OpenRegex_parts, m_Seq. cbn [m].
    change ("<h2" : str) with ("<"%char :: ("h2" : str)). cbn [eat].
    replace (eqChar true c "<") with false; [done|].
    revert Hc. destruct c as [[] [] [] [] [] [] [] []]; intros Hc;
      try reflexivity. by destruct Hc.
Qed.

Lemma plain_text_is_untouched_witness :
  parseInternalLinks sampleData "Tom & Jerry > mice" = "Tom & Jerry > mice"
  /\ addHeadingClass "Tom & Jerry > mice" = "Tom & Jerry > mice".
Proof.
  apply (plain_text_is_untouched sampleData "Tom & Jerry > mice").
  repeat constructor; discriminate.
Defined.

(** Without a link table, or with an empty one, every placeholder becomes a
    broken-link marker. *)
Theorem no_table_marks_every_placeholder
    (data : blogData) (p : shape) (post : str) :
  internalLinks data = None \/ internalLinks data = Some [] ->
  wellFormed p ->
  parseInternalLinks data (placeholder p ++ post)
    = brokenLink (idText p) ++ parseInternalLinks data post.
Proof.
  intros Hd Hp. rewrite parse_at_placeholder by done.
  unfold resolution, resolveLink. by destruct Hd as [-> | ->].
Qed.

Lemma no_table_marks_every_placeholder_witness :
  parseInternalLinks shadowedData (placeholder aboutShape ++ "!")
    = brokenLink "about" ++ parseInternalLinks shadowedData "!".
Proof.
  apply (no_table_marks_every_placeholder shadowedData aboutShape "!").
  - by left.
  - apply aboutShape_wellFormed.
Defined.


(** ** The top-pick annotator *)

Lemma sameText_exact l' l : sameText false l' l -> l' = l.
Proof.
  induction 1 as [|c a l' l Hc _ IH]; [done|].
  apply Ascii.eqb_eq in Hc. by subst.
Qed.

Lemma exec_topPick rest :
  exec false topPickRegex (topPickPhrase ++ rest)
    = Some (rest, <[1 := topPickPhrase]> ∅).
Proof.
  unfold exec, topPickRegex. rewrite m_Group.
  rewrite (m_Lit false topPickPhrase) by apply sameText_refl.
  by rewrite take_consumed.
Qed.

Lemma exec_topPick_inv s rest cs :
  exec false topPickRegex s = Some (rest, cs) ->
  s = topPickPhrase ++ rest /\ cs = <[1 := topPickPhrase]> ∅.
Proof.
  intros H. apply exec_sound in H as (mt & -> & M).
  unfold topPickRegex in M. cbn [Matches] in M.
  destruct M as (cs1 & [Hmt ->] & ->). apply sameText_exact in Hmt as ->. done.
Qed.

(** No proper end of the phrase is a beginning of it. *)
Lemma phrase_has_no_border n :
  0 < n < length topPickPhrase ->
  startsWith topPickPhrase (drop n topPickPhrase) = false.
Proof.
  intros [H0 Hn].
  do 29 (destruct n as [|n]; [first [lia | vm_compute; reflexivity]|]).
  exfalso. revert Hn. vm_compute. lia.
Qed.

Lemma startsWith_app s pre rest : s = pre ++ rest -> startsWith s pre = true.
Proof.
  intros ->. induction pre as [|c pre IH]; [by destruct rest|].
  simpl. by rewrite Ascii.eqb_refl, IH.
Qed.

Lemma phrase_no_overlap u rest v :
  u <> [] -> topPickPhrase ++ rest = u ++ topPickPhrase ++ v ->
  exists z, u = topPickPhrase ++ z.
Proof.
  intros Hu E. apply app_eq_inv in E as [(k & Ek & E) | (k & -> & E)].
  - destruct k as [|k0 k]; [exists []; by rewrite Ek, !app_nil_r|].
    exfalso.
    assert (Hlen : 0 < length u < length topPickPhrase).
    { rewrite Ek, length_app. destruct u; [done|]. simpl. lia. }
    pose proof (phrase_has_no_border (length u) Hlen) as Hb.
    rewrite Ek in Hb at 2. rewrite drop_app_length in Hb.
    (* [k0 :: k] begins the phrase, since it begins [phrase ++ v] and is
       shorter than the phrase *)
    assert (Hk : length (k0 :: k) <= length topPickPhrase).
    { rewrite Ek, length_app. lia. }
    assert (Hp : topPickPhrase
                 = (k0 :: k) ++ drop (length (k0 :: k)) topPickPhrase).
    { rewrite <- (take_drop (length (k0 :: k)) topPickPhrase) at 1. f_equal.
      apply (f_equal (take (length (k0 :: k)))) in E.
      rewrite take_app_le in E by done. rewrite E.
      by rewrite take_app_length. }
    by rewrite (startsWith_app _ _ _ Hp) in Hb.
  - by exists k.
Qed.

Lemma scan_reaches_phrase post :
  forall pre, exists pieces,
    sourceOf pieces = pre
    /\ scan false topPickRegex 0 (pre ++ topPickPhrase ++ post)
       = pieces ++ Hit topPickPhrase (<[1 := topPickPhrase]> ∅)
                   :: scan false topPickRegex 0 post.
Proof.
  intros pre. remember (length pre) as n eqn:En. revert pre En.
  induction n as [n IH] using lt_wf_ind. intros pre En.
  destruct pre as [|c pre].
  - exists []. split; [done|]. cbn [app].
    apply scan_hit; [done | apply exec_topPick].
  - destruct (exec false topPickRegex ((c :: pre) ++ topPickPhrase ++ post))
      as [[rest cs]|] eqn:E.
    + destruct (exec_topPick_inv _ _ _ E) as [Es ->].
      destruct (phrase_no_overlap (c :: pre) rest post) as (z & Ez);
        [done | by rewrite <- Es |].
      assert (Er : rest = z ++ topPickPhrase ++ post).
      { rewrite Ez, <- app_assoc in Es. by apply app_inv_head in Es. }
      destruct (IH (length z)) with (pre := z) as (ps & Hs & Hscan); [|done|].
      { subst n. rewrite Ez, length_app. simpl. lia. }
      exists (Hit topPickPhrase (<[1 := topPickPhrase]> ∅) :: ps). split.
      * unfold sourceOf in *. cbn [flat_map]. by rewrite Hs.
      * rewrite Es. rewrite (scan_hit _ _ _ _ (<[1 := topPickPhrase]> ∅));
          [ | done | by rewrite <- Es].
        rewrite Er, Hscan. reflexivity.
    + destruct (IH (length pre)) with (pre := pre) as (ps & Hs & Hscan);
        [subst n; simpl; lia | done |].
      exists (Keep c :: ps). split.
      * unfold sourceOf in *. cbn [flat_map]. by rewrite Hs.
      * change ((c :: pre) ++ topPickPhrase ++ post)
          with (c :: pre ++ topPickPhrase ++ post) in *.
        rewrite scan_miss by done. by rewrite Hscan.
Qed.

Lemma annotate_is_annotatePieces s :
  addAsteriskToTopPick s = annotatePieces (scan false topPickRegex 0 s).
Proof.
  unfold addAsteriskToTopPick, replace, annotatePieces.
  pose proof (scan_hits false topPickRegex
    (fun mt cs => cs !! 1 = Some mt)) as H.
  specialize (H ltac:(intros s' mt rest cs -> E;
    destruct (exec_topPick_inv _ _ _ E) as [Es ->];
    apply app_inv_tail in Es as <-; apply lookup_insert_eq) s 0).
  induction H as [|pc ps Hpc _ IH]; [done|]. cbn [flat_map]. rewrite IH.
  f_equal. destruct pc as [c|mt cs]; [done|]. unfold expand. cbn [flat_map].
  rewrite Hpc. cbn [default from_option Datatypes.id]. by rewrite app_nil_r.
Qed.

Lemma annotate_at_phrase (pre post : str) :
  exists pieces,
    sourceOf pieces = pre
    /\ addAsteriskToTopPick (pre ++ topPickPhrase ++ post)
       = annotatePieces pieces ++ topPickPhrase ++ "*"
           ++ addAsteriskToTopPick post
    /\ (clearOf false topPickRegex pre (topPickPhrase ++ post) ->
        annotatePieces pieces = pre).
Proof.
  destruct (scan_reaches_phrase post pre) as (ps & Hs & Hscan).
  exists ps. split; [done|].
  assert (E : addAsteriskToTopPick (pre ++ topPickPhrase ++ post)
              = annotatePieces ps ++ topPickPhrase ++ "*"
                  ++ addAsteriskToTopPick post).
  { rewrite !annotate_is_annotatePieces, Hscan. unfold annotatePieces.
    rewrite flat_map_app. cbn [flat_map]. by rewrite <- !app_assoc. }
  split; [done|]. intros Hc.
  unfold addAsteriskToTopPick in E at 1. rewrite replace_clear in E by done.
  rewrite (replace_hit _ _ _ _ _ (<[1 := topPickPhrase]> ∅)) in E;
    [ | done | apply exec_topPick].
  unfold expand in E. cbn [flat_map] in E. rewrite lookup_insert_eq in E.
  cbn [default from_option Datatypes.id] in E.
  rewrite app_nil_r, <- !app_assoc in E.
  fold (addAsteriskToTopPick post) in E. symmetry.
  by apply app_inv_tail in E.
Qed.

Lemma annotate_length (s : str) :
  length (addAsteriskToTopPick s)
    = length s + length (matchAll false topPickRegex s).
Proof.
  rewrite annotate_is_annotatePieces. unfold matchAll.
  rewrite <- (drop_0 s) at 2. rewrite <- (scan_covers false topPickRegex s 0).
  induction (scan false topPickRegex 0 s) as [|pc ps IH]; [done|].
  unfold annotatePieces, sourceOf in *. cbn [flat_map].
  rewrite !length_app, IH. clear IH.
  set (n := length (flat_map _ ps)). set (h := length (omap _ ps)).
  destruct pc as [c|mt cs].
  - change (length [c] + (n + h) = length [c] + n + h). lia.
  - change (length (mt ++ "*") + (n + h) = length mt + n + S h).
    rewrite length_app. simpl. lia.
Qed.


Lemma annotatePieces_length ps :
  length (sourceOf ps) <= length (annotatePieces ps).
Proof.
  unfold sourceOf, annotatePieces.
  induction ps as [|pc ps IH]; [done|]. cbn [flat_map]. rewrite !length_app.
  destruct pc as [c|mt cs]; [lia|]. rewrite length_app. lia.
Qed.

(** Every occurrence of the phrase, wherever it stands, is followed by an
    asterisk in the output, and the text after it is annotated on its own;
    when the phrase does not begin in the text before it, that text is kept
    as it is. *)
Theorem every_top_pick_gets_an_asterisk (pre post : str) :
  exists pieces,
    sourceOf pieces = pre
    /\ addAsteriskToTopPick (pre ++ topPickPhrase ++ post)
       = annotatePieces pieces ++ topPickPhrase ++ "*"
           ++ addAsteriskToTopPick post
    /\ (clearOf false topPickRegex pre (topPickPhrase ++ post) ->
        annotatePieces pieces = pre).
Proof. exact (annotate_at_phrase pre post). Qed.

(** The output is longer than the input by one character for each match of
    the phrase; nothing is removed. *)
Theorem annotation_adds_one_character_per_match (s : str) :
  length (addAsteriskToTopPick s)
    = length s + length (matchAll false topPickRegex s).
Proof. exact (annotate_length s). Qed.

(** The annotator is not idempotent: on a text in which the phrase occurs, a
    second pass makes the output longer again (each occurrence gets a
    further asterisk). *)
Theorem annotation_is_not_idempotent (pre post : str) :
  length (addAsteriskToTopPick (pre ++ topPickPhrase ++ post))
    < length (addAsteriskToTopPick
                (addAsteriskToTopPick (pre ++ topPickPhrase ++ post))).
Proof.
  destruct (annotate_at_phrase pre post) as (ps & _ & -> & _).
  destruct (annotate_at_phrase (annotatePieces ps)
              ("*" ++ addAsteriskToTopPick post)) as (ps' & Hs' & -> & _).
  pose proof (annotatePieces_length ps') as H1. rewrite Hs' in H1.
  pose proof (annotate_length ("*" ++ addAsteriskToTopPick post)) as H2.
  rewrite !length_app in *. simpl in *. lia.
Qed.

(** ** The heading decorator *)

Lemma headingClass_notGt : allOf notGt headingClass.
Proof. repeat constructor. Qed.

Lemma addHeadingClass_tag t attrs rest :
  sameText true t "<h2" -> attributeText attrs ->
  addHeadingClass (t ++ attrs ++ ">" ++ rest)
    = "<h2" ++ attrs ++ headingClass ++ ">" ++ addHeadingClass rest.
Proof.
  intros Ht [Ha Hc]. destruct attrs as [|c w].
  - by apply addHeadingClass_plain.
  - apply allOf_cons_inv in Ha as [_ Hw]. by apply addHeadingClass_attributes.
Qed.

(** At an opening tag [<h2 ...>] (in any letter case, with attribute text
    that holds no [>]) the decorator writes the tag name in lower case, keeps
    the attribute text character for character and puts its class
    declaration after it; the text after the tag is decorated on its own. *)
Theorem heading_class_follows_the_attributes (t attrs rest : str) :
  sameText true t "<h2" -> attributeText attrs ->
  addHeadingClass (t ++ attrs ++ ">" ++ rest)
    = "<h2" ++ attrs ++ (" class=" ++ quoted "blog-heading") ++ ">"
        ++ addHeadingClass rest.
Proof. apply addHeadingClass_tag. Qed.

Lemma heading_class_follows_the_attributes_witness :
  addHeadingClass ("<H2" ++ (" id=" ++ quoted "faq") ++ ">" ++ "Questions</H2>")
    = "<h2" ++ (" id=" ++ quoted "faq") ++ (" class=" ++ quoted "blog-heading")
        ++ ">" ++ addHeadingClass "Questions</H2>".
Proof.
  apply (heading_class_follows_the_attributes "<H2" (" id=" ++ quoted "faq")
           "Questions</H2>").
  - repeat constructor.
  - split; [repeat constructor | reflexivity].
Defined.

(** The decorator is not idempotent: a second pass over its own output writes
    a second class declaration into every opening tag it decorated. *)
Theorem heading_decoration_is_not_idempotent (t attrs rest : str) :
  sameText true t "<h2" -> attributeText attrs ->
  addHeadingClass (addHeadingClass (t ++ attrs ++ ">" ++ rest))
    = "<h2" ++ attrs ++ headingClass ++ headingClass ++ ">"
        ++ addHeadingClass (addHeadingClass rest).
Proof.
  intros Ht Ha. rewrite (addHeadingClass_tag t attrs rest Ht Ha).
  rewrite (app_assoc attrs headingClass).
  rewrite (addHeadingClass_tag "<h2" (attrs ++ headingClass));
    [by rewrite <- !app_assoc | apply sameText_refl |].
  destruct Ha as [Ha Hc]. split.
  - apply Forall_app. split; [done | apply headingClass_notGt].
  - destruct attrs; [reflexivity | done].
Qed.

Lemma heading_decoration_is_not_idempotent_witness :
  addHeadingClass (addHeadingClass ("<h2" ++ [] ++ ">" ++ "Intro</h2>"))
    = "<h2" ++ [] ++ headingClass ++ headingClass ++ ">"
        ++ addHeadingClass (addHeadingClass "Intro</h2>").
Proof.
  apply (heading_decoration_is_not_idempotent "<h2" [] "Intro</h2>").
  - repeat constructor.
  - split; [constructor | exact I].
Defined.


(** ** White space in extracted text *)

Lemma dropWhile_stops p s : stops p (dropWhile p s).
Proof.
  induction s as [|c s IH]; [done|]. simpl. destruct (p c) eqn:E; [done|].
  simpl. done.
Qed.

Lemma dropWhile_suffix p s :
  exists w, s = w ++ dropWhile p s /\ allOf p w.
Proof.
  induction s as [|c s (w & IH & Hw)];
    [exists []; split; [done | constructor]|]. simpl.
  destruct (p c) eqn:E.
  - exists (c :: w). split; [by rewrite IH at 1 | by constructor].
  - exists []. split; [done | constructor].
Qed.

Lemma dropWhile_length p s : length (dropWhile p s) <= length s.
Proof.
  destruct (dropWhile_suffix p s) as (w & E & _). rewrite E at 2.
  rewrite length_app. lia.
Qed.

Lemma star_greedy_always p s (k : str -> option outcome) :
  (forall x, is_Some (k x)) -> star true p s k = k (dropWhile p s).
Proof.
  intros Hk. induction s as [|c s IH]; [done|]. simpl.
  destruct (p c); [|done]. rewrite IH. by destruct (Hk (dropWhile p s)) as [o ->].
Qed.

Lemma exec_spaces_hit c s :
  isWhiteSpace c = true ->
  exec false spacesRegex (c :: s) = Some (dropWhile isWhiteSpace s, ∅).
Proof.
  intros Hc. unfold exec, spacesRegex, Plus. rewrite m_Seq, m_Cls_hit by done.
  cbn [m]. by rewrite star_greedy_always by (intros; by eexists).
Qed.

Lemma exec_spaces_miss c s :
  isWhiteSpace c = false -> exec false spacesRegex (c :: s) = None.
Proof. intros Hc. unfold exec, spacesRegex, Plus. cbn [m]. by rewrite Hc. Qed.

Lemma collapse_space c s :
  isWhiteSpace c = true ->
  collapseSpaces (c :: s) = " "%char :: collapseSpaces (dropWhile isWhiteSpace s).
Proof.
  intros Hc. pose proof (exec_spaces_hit c s Hc) as E.
  destruct (exec_sound _ _ _ _ _ E) as (mt & Es & _).
  unfold collapseSpaces. rewrite Es.
  rewrite (replace_hit _ _ _ _ _ ∅); [reflexivity | | by rewrite <- Es].
  intros ->. simpl in Es. pose proof (dropWhile_length isWhiteSpace s) as Hl.
  rewrite <- Es in Hl. simpl in Hl. lia.
Qed.

Lemma collapse_other c s :
  isWhiteSpace c = false -> collapseSpaces (c :: s) = c :: collapseSpaces s.
Proof.
  intros Hc. unfold collapseSpaces. by rewrite replace_miss by (by apply exec_spaces_miss).
Qed.

Lemma collapse_stops s :
  stops isWhiteSpace s -> stops isWhiteSpace (collapseSpaces s).
Proof.
  destruct s as [|c s]; [done|]. simpl. intros Hc. by rewrite collapse_other.
Qed.

(** After collapsing, white space occurs only as single spaces. *)
Lemma collapse_singleSpaced s : singleSpaced (collapseSpaces s).
Proof.
  remember (length s) as n eqn:En. revert s En.
  induction n as [n IH] using lt_wf_ind. intros s En.
  destruct s as [|c s]; [done|]. destruct (isWhiteSpace c) eqn:Hc.
  - rewrite collapse_space by done. split.
    + intros _. split; [done|]. apply collapse_stops, dropWhile_stops.
    + apply (IH (length (dropWhile isWhiteSpace s))); [|done].
      pose proof (dropWhile_length isWhiteSpace s). subst n. simpl. lia.
  - rewrite collapse_other by done. split; [congruence|].
    apply (IH (length s)); [subst n; simpl; lia | done].
Qed.

Lemma singleSpaced_suffix w s : singleSpaced (w ++ s) -> singleSpaced s.
Proof. induction w as [|c w IH]; [done|]. intros [_ H]. by apply IH. Qed.

Lemma singleSpaced_prefix s w : singleSpaced (s ++ w) -> singleSpaced s.
Proof.
  induction s as [|c s IH]; [done|]. intros [Hc H]. split; [|by apply IH].
  intros Hw. destruct (Hc Hw) as [-> Hs]. split; [done|]. by destruct s.
Qed.

Lemma trimEnd_prefix s : exists w, s = trimEnd s ++ w /\ allOf isWhiteSpace w.
Proof.
  unfold trimEnd. destruct (dropWhile_suffix isWhiteSpace (rev s)) as (w & E & Hw).
  exists (rev w). split; [|by apply Forall_rev].
  rewrite <- (rev_involutive s), E at 1. by rewrite rev_app_distr.
Qed.

Lemma trim_segment s :
  exists w1 w2, s = w1 ++ trim s ++ w2.
Proof.
  unfold trim, trimStart.
  destruct (dropWhile_suffix isWhiteSpace s) as (w1 & E1 & _).
  destruct (trimEnd_prefix (dropWhile isWhiteSpace s)) as (w2 & E2 & _).
  exists w1, w2. by rewrite <- E2.
Qed.

Lemma trim_trimmed s : trimmed (trim s).
Proof.
  unfold trimmed, trim, trimStart. split.
  - destruct (trimEnd_prefix (dropWhile isWhiteSpace s)) as (w & E & _).
    pose proof (dropWhile_stops isWhiteSpace s) as Hs. rewrite E in Hs.
    by destruct (trimEnd (dropWhile isWhiteSpace s)).
  - unfold trimEnd. rewrite rev_involutive. apply dropWhile_stops.
Qed.

Lemma trim_singleSpaced s : singleSpaced s -> singleSpaced (trim s).
Proof.
  intros H. destruct (trim_segment s) as (w1 & w2 & E). rewrite E in H.
  by apply singleSpaced_suffix, singleSpaced_prefix in H.
Qed.

(** ** Invariants of the FAQ items *)

Lemma faqStep_invariant (P : question -> Prop) body hm acc i :
  (forall h ans, trim (collapseSpaces ans) <> [] ->
     P (mkQuestion (trim h) (trim (collapseSpaces ans)))) ->
  Forall P acc -> Forall P (faqStep body hm acc i).
Proof.
  intros HP Hacc. unfold faqStep.
  destruct (trim (collapseSpaces (stripTags " " _))) as [|c t] eqn:E; [done|].
  cbn [truthy]. apply Forall_app. split; [done|]. constructor; [|constructor].
  rewrite <- E. apply HP. by rewrite E.
Qed.

Lemma faqItems_invariant (P : question -> Prop) body :
  (forall h ans, trim (collapseSpaces ans) <> [] ->
     P (mkQuestion (trim h) (trim (collapseSpaces ans)))) ->
  Forall P (faqItemsOf body).
Proof.
  intros HP. unfold faqItemsOf.
  generalize (seq 0 (length (matchAll true headingRegex body))).
  intros l. assert (Hnil : Forall P []) by constructor. revert Hnil.
  generalize (@nil question). induction l as [|i l IH]; intros acc Hacc; [done|].
  cbn [foldl]. apply IH. by apply faqStep_invariant.
Qed.

(** Whatever the body, a FAQ result is never empty, and in each of its items
    the answer is not empty, has no white space at its ends and holds white
    space only as single spaces; the question has no white space at its
    ends. *)
Theorem faq_items_are_normalized (a : article) (p : faqPage) :
  generateFAQSchema a = Some p ->
  mainEntity p <> []
  /\ Forall (fun q => normalizedText (answer_text (acceptedAnswer q))
                      /\ trimmed (name q))
            (mainEntity p).
Proof.
  unfold generateFAQSchema. destruct (truthy (htmlBody a)); [|done]. cbn [negb].
  destruct (faqItemsOf (htmlBody a)) as [|q l] eqn:E; [done|].
  cbn. intros [= <-]. cbn [mainEntity]. split; [done|]. rewrite <- E.
  apply faqItems_invariant. intros h ans Hne. cbn. split; [|apply trim_trimmed].
  split; [done|]. split; [apply trim_trimmed|].
  apply trim_singleSpaced, collapse_singleSpaced.
Qed.

Lemma faq_items_are_normalized_witness :
  mainEntity {| faq_context := "https://schema.org"; faq_type := "FAQPage";
                mainEntity := [mkQuestion "Intro" "hello world"] |} <> []
  /\ Forall (fun q => normalizedText (answer_text (acceptedAnswer q))
                      /\ trimmed (name q))
            (mainEntity {| faq_context := "https://schema.org";
                           faq_type := "FAQPage";
                           mainEntity := [mkQuestion "Intro" "hello world"] |}).
Proof.
  apply (faq_items_are_normalized
           (articleWithBody "<h2> Intro </h2><p>hello   <b>world</b></p>")).
  vm_compute. reflexivity.
Defined.

Lemma exec_heading_needs_lt c s :
  c <> "<"%char -> exec true headingRegex (c :: s) = None.
Proof.
  intros Hc. unfold exec, headingRegex. cbn [seqs m].
  change ("<h2" : str) with ("<"%char :: ("h2" : str)). cbn [eat].
  replace (eqChar true c "<") with false; [done|].
  revert Hc. destruct c as [[] [] [] [] [] [] [] []]; intros Hc;
    try reflexivity. by destruct Hc.
Qed.

(** A body without [<] has no heading, so it yields no FAQ result. *)
Theorem plain_body_has_no_faq (a : article) :
  noLt (htmlBody a) -> generateFAQSchema a = None.
Proof.
  intros Hs. apply generateFAQSchema_None. right. unfold faqItemsOf.
  assert (matchAll true headingRegex (htmlBody a) = []) as ->; [|done].
  induction Hs as [|c s Hc _ IH]; [done|].
  by rewrite matchAll_miss by (by apply exec_heading_needs_lt).
Qed.

Lemma plain_body_has_no_faq_witness :
  generateFAQSchema (articleWithBody "just text, no markup") = None.
Proof.
  apply (plain_body_has_no_faq (articleWithBody "just text, no markup")).
  repeat constructor; discriminate.
Defined.

(** *** The headings the scan finds *)

Lemma eat_app_None ic l (u v : str) :
  eat ic l u = None -> length l <= length u -> eat ic l (u ++ v) = None.
Proof.
  revert u. induction l as [|a l IH]; intros [|c u]; cbn [eat app length];
    try done; try lia.
  destruct (eqChar ic c a); [|done]. intros H Hl. apply IH; [done | lia].
Qed.

Lemma eat_short x l (u v : str) :
  Forall (fun a => eqChar true x a = false) l -> length u < length l ->
  eat true l (u ++ x :: v) = None.
Proof.
  intros Hl. revert u. induction Hl as [|a l Ha _ IH]; intros u Hu.
  - cbn [length] in Hu. lia.
  - destruct u as [|c u]; cbn [eat app].
    + by rewrite Ha.
    + destruct (eqChar true c a); [|done]. apply IH. cbn [length] in Hu. lia.
Qed.

Lemma freeOf_suffix l (s p1 p2 : str) :
  freeOf l s = true -> s = p1 ++ p2 -> eat true l p2 = None.
Proof.
  revert s. induction p1 as [|c p1 IH]; intros s Hf ->.
  - destruct p2 as [|c p2]; cbn [freeOf app] in Hf |- *;
      by destruct (eat true l _).
  - cbn [freeOf app] in Hf. destruct (eat true l (c :: p1 ++ p2)); [done|].
    by apply (IH (p1 ++ p2)).
Qed.

(** A text that nowhere begins the pattern text does not begin it either
    when it is followed by the end of the document or by a [<]. *)
Lemma eat_beyond (l' s rest p1 : str) c (p2 : str) :
  freeOf ("<"%char :: l') s = true ->
  Forall (fun a => eqChar true "<"%char a = false) l' ->
  rest = [] \/ (exists v, rest = "<"%char :: v) ->
  s = p1 ++ c :: p2 ->
  eat true ("<"%char :: l') (c :: p2 ++ rest) = None.
Proof.
  intros Hf Hl Hrest Hs.
  pose proof (freeOf_suffix _ _ _ _ Hf Hs) as He.
  destruct Hrest as [-> | [v ->]]; [by rewrite app_nil_r|].
  destruct (decide (length ("<"%char :: l') <= length (c :: p2))) as [Hlen|Hlen].
  - by apply (eat_app_None true _ (c :: p2)).
  - cbn [eat]. destruct (eqChar true c "<"); [|done].
    apply eat_short; [done|]. cbn [length] in Hlen. lia.
Qed.

Lemma sameText_head_lt (t l : str) :
  sameText true t ("<"%char :: l) -> exists t', t = "<"%char :: t'.
Proof.
  intros H. apply sameText_cons_r in H as (c & t' & -> & Hc & _).
  exists t'. f_equal. apply canon_is_lt. by rewrite (eqChar_canon _ _ Hc).
Qed.

Lemma headingText_head h :
  wellFormedHeading h -> forall rest,
  exists v, headingText h ++ rest = "<"%char :: v.
Proof.
  intros (Ho & _) rest. change ("<h2" : str) with ("<"%char :: ("h2" : str)) in Ho.
  destruct (sameText_head_lt _ _ Ho) as [t' E]. unfold headingText.
  rewrite E. eexists. reflexivity.
Qed.

Lemma exec_heading_None (s : str) :
  eat true "<h2" s = None -> exec true headingRegex s = None.
Proof.
  intros H. unfold exec, headingRegex. cbn [seqs]. rewrite m_Seq.
  cbn [m]. by rewrite H.
Qed.

(** At a well-formed heading the pattern matches exactly the heading, with
    the text between the tags in group 1. *)
Lemma exec_heading h rest :
  wellFormedHeading h ->
  exec true headingRegex (headingText h ++ rest)
    = Some (rest, <[1 := innerText h]> ∅).
Proof.
  intros (Ho & Ha & Hd & Hfree & Hc).
  unfold exec, headingRegex, headingText. cbn [seqs].
  rewrite <- !app_assoc. rewrite m_Seq, (m_Lit true _ _ _ _ _ Ho).
  rewrite m_Seq. apply m_Star_run; [done | reflexivity |].
  rewrite m_Seq.
  change ((">" : str) ++ innerText h ++ closeText h ++ rest)
    with ((">" : str) ++ (innerText h ++ closeText h ++ rest)).
  rewrite (m_Lit true ">" ">") by apply sameText_refl.
  rewrite m_Seq, m_Group. cbn [m].
  apply star_lazy_first; [done | |].
  - rewrite (take_consumed (innerText h) (closeText h ++ rest)).
    by rewrite (eat_same true _ _ _ Hc).
  - intros w1 c w2 Hw.
    change ("</h2>" : str) with ("<"%char :: ("/h2>" : str)) in *.
    destruct (sameText_head_lt _ _ Hc) as [cl' Ecl].
    rewrite (eat_beyond ("/h2>" : str) (innerText h) (closeText h ++ rest)
               w1 c w2); [done | done | | | done].
    + repeat constructor.
    + right. rewrite Ecl. eexists. reflexivity.
Qed.

Lemma headingText_nonempty h : wellFormedHeading h -> headingText h <> [].
Proof.
  intros Hh E. destruct (headingText_head h Hh []) as [v Hv].
  rewrite app_nil_r in Hv. congruence.
Qed.

Lemma heading_clear (s rest : str) :
  freeOf "<h2" s = true ->
  rest = [] \/ (exists v, rest = "<"%char :: v) ->
  clearOf true headingRegex s rest.
Proof.
  intros Hf Hrest p1 c p2 Hs. apply exec_heading_None.
  change ("<h2" : str) with ("<"%char :: ("h2" : str)) in *.
  apply (eat_beyond _ s rest p1 c p2); [done | repeat constructor | done | done].
Qed.

Lemma matchAll_clear ic r (pre rest : str) :
  clearOf ic r pre rest -> matchAll ic r (pre ++ rest) = matchAll ic r rest.
Proof.
  intros Hc. unfold matchAll. rewrite scan_clear by done.
  rewrite omap_app. induction pre as [|c pre IH]; [done|]. apply IH.
  intros p1 c' p2 ->. apply (Hc (c :: p1) c' p2). done.
Qed.

Lemma bodyOf_cons lead hb segs :
  bodyOf lead (hb :: segs) = lead ++ hb.1 ++ bodyOf hb.2 segs.
Proof. unfold bodyOf. cbn [flat_map]. by rewrite <- !app_assoc. Qed.

(** The scan finds exactly the headings of a body that is cut at its
    well-formed headings. *)
Lemma matchAll_body (hs : list (headingShape * str)) : forall lead,
  freeOf "<h2" lead = true ->
  Forall (fun ha => wellFormedHeading ha.1 /\ freeOf "<h2" ha.2 = true) hs ->
  matchAll true headingRegex (bodyOf lead (cut hs)) = (cut hs).*1.
Proof.
  induction hs as [|[h a] hs IH]; intros lead Hlead Hhs.
  - unfold bodyOf. cbn [cut map flat_map]. rewrite matchAll_clear.
    + reflexivity.
    + apply heading_clear; [done | by left].
  - apply Forall_cons in Hhs as [[Hh Ha] Hhs]. cbn [fst snd] in Hh, Ha.
    cbn [cut map]. rewrite bodyOf_cons. cbn [fst snd].
    rewrite matchAll_clear.
    2:{ apply heading_clear; [done|]. right. apply headingText_head. done. }
    rewrite (matchAll_hit true headingRegex _ _ (<[1 := innerText h]> ∅)).
    + cbn [fmap list_fmap fst]. f_equal. by apply IH.
    + by apply headingText_nonempty.
    + by apply exec_heading.
Qed.

(** In a body that is cut at well-formed headings (opening tag [<h2 ...>] and
    closing tag in any letter case, no line break and no closing tag inside
    the heading, no opening [<h2] in the text before, between and after the
    headings), each of which first occurs at its own place, the pattern finds
    exactly the headings, and the items are those of the headings in document
    order: the question is the heading without its tags, trimmed; the answer
    is the text up to the next heading without its tags, with white space
    collapsed, trimmed; a heading whose answer is empty gives no item. *)
Theorem faq_items_follow_the_headings
    (lead : str) (hs : list (headingShape * str)) :
  freeOf "<h2" lead = true ->
  Forall (fun ha => wellFormedHeading ha.1 /\ freeOf "<h2" ha.2 = true) hs ->
  firstAtOwnPlace lead (cut hs) ->
  matchAll true headingRegex (bodyOf lead (cut hs)) = (cut hs).*1
  /\ faqItemsOf (bodyOf lead (cut hs)) = omap faqOf (cut hs).
Proof.
  intros Hlead Hhs Hfirst.
  pose proof (matchAll_body hs lead Hlead Hhs) as Hm.
  split; [done|]. by apply faqItemsOf_general.
Qed.

Lemma faq_items_follow_the_headings_witness :
  matchAll true headingRegex (bodyOf "<p>Guide</p>" (cut exampleHeadings))
    = (cut exampleHeadings).*1
  /\ faqItemsOf (bodyOf "<p>Guide</p>" (cut exampleHeadings))
     = omap faqOf (cut exampleHeadings).
Proof.
  apply (faq_items_follow_the_headings "<p>Guide</p>" exampleHeadings).
  - reflexivity.
  - repeat constructor.
  - intros i hb Hi.
    destruct i as [|[|[|i]]]; simplify_eq/=; vm_compute; reflexivity.
Defined.


(** ** The anchor transform *)

(** The transform touches nothing but the relation and the target: the
    address and every other attribute are handed back as they came; and for
    an external address a relation or target the author wrote is replaced by
    the fixed values. *)
Theorem anchor_transform_touches_only_rel_and_target
    (tagName : str) (at_ : attribs) :
  (forall k, k <> ("rel" : str) -> k <> ("target" : str) ->
     (transformAnchor tagName at_).2 !! k = at_ !! k)
  /\ (forall href, at_ !! ("href" : str) = Some href ->
        externalHref href = true ->
        (transformAnchor tagName at_).1 = ("a" : str)
        /\ (transformAnchor tagName at_).2 !! ("rel" : str)
             = Some ("noopener noreferrer nofollow" : str)
        /\ (transformAnchor tagName at_).2 !! ("target" : str)
             = Some ("_blank" : str)).
Proof.
  split.
  - intros k Hr Ht. unfold transformAnchor.
    destruct (at_ !! ("href" : str)) as [href|]; [|done].
    destruct (truthy href && startsWith href "http"); [|done]. cbn [snd].
    by rewrite !lookup_insert_ne.
  - intros href Hh He. rewrite (transformAnchor_external _ _ _ Hh He). cbn.
    split; [done|]. split; [|apply lookup_insert_eq].
    rewrite lookup_insert_ne by discriminate. apply lookup_insert_eq.
Qed.

Lemma anchor_transform_touches_only_rel_and_target_witness :
  (transformAnchor "a" sponsoredAnchor).2 !! ("rel" : str)
    = Some ("noopener noreferrer nofollow" : str).
Proof.
  apply (proj2 (anchor_transform_touches_only_rel_and_target "a" sponsoredAnchor)
           "https://example.com/x").
  - reflexivity.
  - reflexivity.
Defined.

(** Transforming an anchor twice is the same as transforming it once. *)
Theorem anchor_transform_is_idempotent (tagName : str) (at_ : attribs) :
  transformAnchor (transformAnchor tagName at_).1 (transformAnchor tagName at_).2
    = transformAnchor tagName at_.
Proof.
  destruct (at_ !! ("href" : str)) as [href|] eqn:Hh.
  - destruct (externalHref href) eqn:He.
    + rewrite (transformAnchor_external _ _ _ Hh He). cbn [fst snd].
      rewrite (transformAnchor_external _ _ href); [|by rewrite !lookup_insert_ne | done].
      f_equal. apply map_eq. intros k. rewrite !lookup_insert.
      repeat case_decide; done.
    + rewrite (transformAnchor_internal tagName at_) by (intros h Hh'; congruence).
      cbn [fst snd]. apply transformAnchor_internal. intros h Hh'. congruence.
  - rewrite (transformAnchor_internal tagName at_) by (intros h Hh'; congruence).
    cbn [fst snd]. apply transformAnchor_internal. intros h Hh'. congruence.
Qed.

(** ** The sanitizer options *)

Lemma foldl_insert_listed (l : list (str * list str)) :
  NoDup l.*1 ->
  forall (mp : gmap str (list str)) k v, (k, v) ∈ l ->
    foldl (fun mp kv => <[kv.1 := kv.2]> mp) mp l !! k = Some v.
Proof.
  induction l as [|[k' v'] l IH]; intros Hnd mp k v Hin.
  - by apply elem_of_nil in Hin.
  - rewrite fmap_cons in Hnd. apply NoDup_cons in Hnd as [Hk' Hnd].
    apply elem_of_cons in Hin as [[= -> ->] | Hin].
    + by apply foldl_insert_first.
    + cbn [foldl]. by apply IH.
Qed.

(** Whatever the package defaults are: every default tag stays allowed; a
    tag for which the page sets an attribute list gets exactly that list,
    the default list for it being dropped; any other tag keeps its default
    list. *)
Theorem page_attribute_lists_replace_defaults
    (dTags : list str) (dAttrs : gmap str (list str)) (tag : str) :
  (forall t, t ∈ dTags -> t ∈ allowedTags (sanitizeOptions dTags dAttrs))
  /\ (forall names, (tag, names) ∈ extraAttributes ->
        allowedAttributes (sanitizeOptions dTags dAttrs) !! tag = Some names)
  /\ (tag ∉ extraAttributes.*1 ->
        allowedAttributes (sanitizeOptions dTags dAttrs) !! tag = dAttrs !! tag).
Proof.
  unfold sanitizeOptions. cbn [allowedTags allowedAttributes]. split; [|split].
  - intros t Ht. apply elem_of_app. by left.
  - intros names Hin. apply foldl_insert_listed; [decide_by_compute | done].
  - intros Hn. by apply foldl_insert_other.
Qed.

Lemma page_attribute_lists_replace_defaults_witness :
  allowedAttributes (sanitizeOptions sampleDefaultTags sampleDefaultAttributes)
    !! ("img" : str)
  = Some (strs ["src"; "alt"; "width"; "height"; "class"; "style"]).
Proof.
  apply (proj1 (proj2 (page_attribute_lists_replace_defaults
                         sampleDefaultTags sampleDefaultAttributes "img"))).
  decide_by_compute.
Defined.

(** ** Preformatted articles *)

(** A preformatted article is rendered without looking at the link table:
    its body goes to the annotator as it is, placeholders included. *)
Theorem preformatted_ignores_the_link_table
    (dTags : list str) (dAttrs : gmap str (list str))
    (sanitizeHtml : options -> str -> result str)
    (data data' : blogData) (a : article) :
  isPreformatted a = true ->
  renderArticleContent dTags dAttrs sanitizeHtml data a
    = renderArticleContent dTags dAttrs sanitizeHtml data' a
  /\ renderArticleContent dTags dAttrs sanitizeHtml data a
     = match sanitizeHtml (sanitizeOptions dTags dAttrs)
               (addHeadingClass (addAsteriskToTopPick (htmlBody a))) with
       | Ok html => {| region := ArticleHtml html; consoleError := [] |}
       | Throw e => errorRegion e
       end.
Proof.
  intros Hp. rewrite !renderArticleContent_chain, Hp. done.
Qed.

Lemma preformatted_ignores_the_link_table_witness :
  renderArticleContent [] ∅ identitySanitizer sampleData preformattedArticle
    = {| region := ArticleHtml (placeholder aboutShape); consoleError := [] |}.
Proof.
  rewrite (proj2 (preformatted_ignores_the_link_table [] ∅ identitySanitizer
                    sampleData sampleData preformattedArticle eq_refl)).
  vm_compute. reflexivity.
Defined.


(** * The search form *)

Import SearchBar.

Local Open Scope N_scope.

Ltac Zify.zify_post_hook ::= Z.to_euclidean_division_equations.

(** Boolean tests on code units as arithmetic. *)
Ltac units_to_arith :=
  repeat match goal with
         | H : _ && _ = true |- _ => apply andb_true_iff in H as [? ?]
         | H : _ || _ = true |- _ => apply orb_true_iff in H
         | H : _ && _ = false |- _ => apply andb_false_iff in H
         | H : _ || _ = false |- _ => apply orb_false_iff in H as [? ?]
         | H : (_ <=? _) = true |- _ => apply N.leb_le in H
         | H : (_ <=? _) = false |- _ => apply N.leb_gt in H
         | H : (_ <? _) = true |- _ => apply N.ltb_lt in H
         | H : (_ <? _) = false |- _ => apply N.ltb_ge in H
         | H : (_ =? _) = true |- _ => apply N.eqb_eq in H
         | H : (_ =? _) = false |- _ => apply N.eqb_neq in H
         | H : _ \/ _ |- _ => destruct H
         end.

(** ** Blank queries *)

Lemma dropWhile_blank w : blank w -> dropWhile isWhiteSpace w = [].
Proof.
  intros Hw. induction Hw as [|c w Hc _ IH]; [done|].
  cbn [dropWhile]. by rewrite Hc.
Qed.

Lemma trim_blank w : blank w -> trim w = [].
Proof.
  intros Hw. unfold trim, trimEnd, trimStart.
  rewrite (dropWhile_blank w Hw). reflexivity.
Qed.

Lemma pushed_spec (push : ustr -> result unit) (st : state) :
  pushed (handleSearch push st)
    = match trim (query st) with
      | [] => []
      | t =>
          match encodeURIComponent t with
          | Ok e => [unitsOf "/search?q=" ++ e]
          | Throw _ => []
          end
      end.
Proof.
  unfold handleSearch. destruct (trim (query st)) as [|c t]; [done|].
  cbn [truthy]. destruct (encodeURIComponent (c :: t)) as [e|err]; [|done].
  by destruct (push _).
Qed.

(** A query of white space only (or an empty one) does nothing: no
    navigation, no state update, nothing logged. *)
Theorem blank_query_does_nothing (push : ustr -> result unit) (st : state) :
  blank (query st) -> handleSearch push st = idle st.
Proof.
  intros Hw. unfold handleSearch. by rewrite trim_blank.
Qed.

Lemma blank_query_does_nothing_witness :
  handleSearch failingPush (typed [0x20; 0x09; 0x3000; 0xFEFF])
    = idle (typed [0x20; 0x09; 0x3000; 0xFEFF]).
Proof.
  apply (blank_query_does_nothing failingPush
           (typed [0x20; 0x09; 0x3000; 0xFEFF])).
  repeat constructor.
Defined.

(** ** Successful encodings *)

Lemma encode_cons c rest e :
  encodeURIComponent (c :: rest) = Ok e ->
  (isUnreserved c = true
   /\ exists r, encodeURIComponent rest = Ok r /\ e = c :: r)
  \/ (isUnreserved c = false /\ isLeadingSurrogate c = true
      /\ exists d rest' r,
           rest = d :: rest' /\ isTrailingSurrogate d = true
           /\ encodeURIComponent rest' = Ok r
           /\ e = escape (codePoint c d) ++ r)
  \/ (isUnreserved c = false /\ isLeadingSurrogate c = false
      /\ isTrailingSurrogate c = false
      /\ exists r, encodeURIComponent rest = Ok r /\ e = escape c ++ r).
Proof.
  cbn [encodeURIComponent]. destruct (isUnreserved c).
  - destruct (encodeURIComponent rest) as [r|] eqn:Er; [|done].
    intros [= <-]. left. split; [done|]. by exists r.
  - destruct (isTrailingSurrogate c); [done|].
    destruct (isLeadingSurrogate c).
    + destruct rest as [|d rest']; [done|].
      destruct (isTrailingSurrogate d) eqn:Ed; [|done].
      destruct (encodeURIComponent rest') as [r|] eqn:Er; [|done].
      intros [= <-]. right. left. split; [done|]. split; [done|].
      by exists d, rest', r.
    + destruct (encodeURIComponent rest) as [r|] eqn:Er; [|done].
      intros [= <-]. right. right. split; [done|]. split; [done|].
      split; [done|]. by exists r.
Qed.

Section EncodeInduction.

Variable P : ustr -> ustr -> Prop.
Hypothesis Hnil : P [] [].
Hypothesis Hplain : forall c rest r,
  isUnreserved c = true -> encodeURIComponent rest = Ok r -> P rest r ->
  P (c :: rest) (c :: r).
Hypothesis Hpair : forall c d rest r,
  isUnreserved c = false -> isLeadingSurrogate c = true ->
  isTrailingSurrogate d = true -> encodeURIComponent rest = Ok r -> P rest r ->
  P (c :: d :: rest) (escape (codePoint c d) ++ r).
Hypothesis Hone : forall c rest r,
  isUnreserved c = false -> isLeadingSurrogate c = false ->
  isTrailingSurrogate c = false -> encodeURIComponent rest = Ok r ->
  P rest r -> P (c :: rest) (escape c ++ r).

Lemma encode_ind s e : encodeURIComponent s = Ok e -> P s e.
Proof using Hnil Hplain Hpair Hone.
  assert (H : forall n s e, (length s <= n)%nat ->
                encodeURIComponent s = Ok e -> P s e).
  { clear s e. induction n as [|n IH]; intros s e Hn He.
    - destruct s; [|cbn [length] in Hn; lia]. by injection He as <-.
    - destruct s as [|c rest]; [by injection He as <-|].
      cbn [length] in Hn.
      destruct (encode_cons _ _ _ He)
        as [(Hu & r & Hr & ->) | [(Hu & Hl & d & rest' & r & -> & Hd & Hr & ->)
           | (Hu & Hl & Ht & r & Hr & ->)]].
      + apply Hplain; [done | done |]. apply IH; [lia | done].
      + apply Hpair; [done | done | done | done |].
        apply IH; [cbn [length] in Hn; lia | done].
      + apply Hone; [done | done | done | done |]. apply IH; [lia | done]. }
  apply (H (length s)). done.
Qed.

End EncodeInduction.

(** ** The encoded query *)

Lemma isMark_true u :
  isMark u = true ->
  u = 45 \/ u = 95 \/ u = 46 \/ u = 33 \/ u = 126 \/ u = 42 \/ u = 39
  \/ u = 40 \/ u = 41.
Proof.
  unfold isMark. rewrite existsb_exists. intros (x & Hin & Hx).
  apply N.eqb_eq in Hx. subst x. simpl in Hin. intuition lia.
Qed.

Lemma urlSafe_lt u : urlSafe u = true -> u < 128.
Proof.
  unfold urlSafe, isUnreserved, isAlnum. intros H. units_to_arith; try lia.
  apply isMark_true in H. lia.
Qed.

Lemma urlSafe_not_delimiter u : urlSafe u = true -> isDelimiter u = false.
Proof.
  intros H. apply not_true_iff_false. intros Hd.
  unfold isDelimiter in Hd. apply orb_true_iff in Hd as [Hd|Hd].
  - apply urlSafe_lt in H as Hlt. unfold urlSafe, isUnreserved, isAlnum in H.
    unfold isWhiteSpace in Hd. units_to_arith; try lia;
      match goal with H : isMark _ = true |- _ => apply isMark_true in H end;
      lia.
  - rewrite existsb_exists in Hd. destruct Hd as (x & Hin & Hx).
    apply N.eqb_eq in Hx. subst x. simpl in Hin.
    unfold urlSafe, isUnreserved, isAlnum in H.
    units_to_arith; try (intuition lia);
      match goal with H : isMark _ = true |- _ => apply isMark_true in H end;
      intuition lia.
Qed.

Lemma hexDigit_alnum n : n < 16 -> isAlnum (hexDigit n) = true.
Proof.
  intros Hn. unfold hexDigit, isAlnum.
  destruct (N.ltb_spec n 10).
  - apply orb_true_iff. left. apply orb_true_iff. left.
    apply andb_true_iff. split; apply N.leb_le; lia.
  - apply orb_true_iff. left. apply orb_true_iff. right.
    apply andb_true_iff. split; apply N.leb_le; lia.
Qed.

Lemma percent_safe b :
  b < 256 -> Forall (fun u => urlSafe u = true) (percent b).
Proof.
  intros Hb. unfold percent, urlSafe, isUnreserved.
  repeat constructor; rewrite ?hexDigit_alnum; try done; lia.
Qed.

Lemma utf8_octets cp :
  cp < 0x110000 -> Forall (fun b => b < 256) (utf8 cp).
Proof.
  intros Hcp. unfold utf8.
  destruct (N.ltb_spec cp 0x80); [repeat constructor; lia|].
  destruct (N.ltb_spec cp 0x800); [repeat constructor; lia|].
  destruct (N.ltb_spec cp 0x10000); repeat constructor; lia.
Qed.

Lemma escape_safe cp :
  cp < 0x110000 -> Forall (fun u => urlSafe u = true) (escape cp).
Proof.
  intros Hcp. unfold escape. apply Forall_flat_map.
  eapply Forall_impl; [by apply utf8_octets|]. intros b Hb.
  by apply percent_safe.
Qed.

Lemma escape_nonempty cp : escape cp <> [].
Proof.
  unfold escape, utf8.
  destruct (cp <? 0x80); [done|]. destruct (cp <? 0x800); [done|].
  by destruct (cp <? 0x10000).
Qed.

Lemma codePoint_range c d :
  isLeadingSurrogate c = true -> isTrailingSurrogate d = true ->
  0x10000 <= codePoint c d < 0x110000.
Proof.
  unfold isLeadingSurrogate, isTrailingSurrogate, codePoint. intros Hc Hd.
  units_to_arith. lia.
Qed.

Lemma encode_safe s e :
  utf16 s -> encodeURIComponent s = Ok e ->
  Forall (fun u => urlSafe u = true) e /\ (s <> [] -> e <> []).
Proof.
  intros Hs He. revert Hs. revert s e He.
  apply (encode_ind (fun s e =>
    utf16 s -> Forall (fun u => urlSafe u = true) e /\ (s <> [] -> e <> [])));
    [|intros c rest r Hu Hr IH Hs|intros c d rest r Hu Hl Hd Hr IH Hs
     |intros c rest r Hu Hl Ht Hr IH Hs].
  - done.
  - apply Forall_cons in Hs as [_ Hs]. split; [|done].
    constructor; [|by apply IH]. unfold urlSafe. by rewrite Hu.
  - apply Forall_cons in Hs as [_ Hs]. apply Forall_cons in Hs as [_ Hs].
    split.
    + apply Forall_app. split; [|by apply IH].
      apply escape_safe. by apply codePoint_range.
    + intros _ E. apply app_eq_nil in E as [E _]. by apply escape_nonempty in E.
  - apply Forall_cons in Hs as [Hc Hs]. split.
    + apply Forall_app. split; [|by apply IH]. apply escape_safe. lia.
    + intros _ E. apply app_eq_nil in E as [E _]. by apply escape_nonempty in E.
Qed.

Lemma dropWhile_utf16 p s : utf16 s -> utf16 (dropWhile p s).
Proof.
  induction 1 as [|c s Hc Hs IH]; cbn [dropWhile]; [constructor|].
  destruct (p c); [done | by constructor].
Qed.

Lemma trim_utf16 s : utf16 s -> utf16 (trim s).
Proof.
  intros Hs. unfold trim, trimEnd, trimStart, utf16.
  apply Forall_rev, dropWhile_utf16, Forall_rev. by apply dropWhile_utf16.
Qed.


(** What is handed to the router is [/search?q=] followed by the encoding of
    the trimmed query, a non-empty text made of letters, digits, the marks
    [- _ . ! ~ * ' ( )] and percent escapes only: no white space and none of
    [& # ? = / +] can end or split the parameter. *)
Theorem pushed_path_is_well_formed (push : ustr -> result unit) (st : state)
    (target : ustr) :
  utf16 (query st) ->
  target ∈ pushed (handleSearch push st) ->
  exists e,
    target = unitsOf "/search?q=" ++ e
    /\ encodeURIComponent (trim (query st)) = Ok e
    /\ e <> []
    /\ Forall (fun u => urlSafe u = true /\ isDelimiter u = false) e.
Proof.
  intros Hq. rewrite pushed_spec.
  pose proof (trim_utf16 _ Hq) as Ht.
  destruct (trim (query st)) as [|c t] eqn:E.
  { intros H. by apply elem_of_nil in H. }
  destruct (encodeURIComponent (c :: t)) as [e|err] eqn:Ee.
  2:{ intros H. by apply elem_of_nil in H. }
  intros H. apply list_elem_of_singleton in H as ->.
  destruct (encode_safe _ _ Ht Ee) as [Hsafe Hne].
  exists e. split; [done|]. split; [done|]. split; [by apply Hne|].
  eapply Forall_impl; [exact Hsafe|]. intros u Hu. split; [done|].
  by apply urlSafe_not_delimiter.
Qed.

Lemma pushed_path_is_well_formed_witness :
  exists e,
    unitsOf "/search?q=cat%20%F0%9F%90%88" = unitsOf "/search?q=" ++ e
    /\ encodeURIComponent (trim (query (typed catQuery))) = Ok e
    /\ e <> []
    /\ Forall (fun u => urlSafe u = true /\ isDelimiter u = false) e.
Proof.
  apply (pushed_path_is_well_formed workingPush (typed catQuery)).
  - repeat constructor.
  - vm_compute. left.
Defined.

(** ** Distinct queries go to distinct paths *)

Lemma hexValue_hexDigit n : n < 16 -> hexValue (hexDigit n) = n.
Proof.
  intros Hn. unfold hexValue, hexDigit.
  destruct (N.ltb_spec n 10).
  - destruct (N.ltb_spec (48 + n) 58); lia.
  - destruct (N.ltb_spec (55 + n) 58); lia.
Qed.

Lemma octetOf_percent b :
  b < 256 -> octetOf (hexDigit (b / 16)) (hexDigit (b mod 16)) = b.
Proof.
  intros Hb. unfold octetOf. rewrite !hexValue_hexDigit by lia. lia.
Qed.

Lemma unreserved_not_percent c : isUnreserved c = true -> (c =? 37) = false.
Proof.
  intros H. apply N.eqb_neq. intros ->. revert H. vm_compute. discriminate.
Qed.

Lemma decode_plain c rest :
  isUnreserved c = true -> decodeHead (c :: rest) = Some ([c], rest).
Proof. intros H. unfold decodeHead. by rewrite unreserved_not_percent. Qed.

Lemma decode_escape1 cp rest :
  cp < 0x80 -> decodeHead (escape cp ++ rest) = Some ([cp], rest).
Proof.
  intros H. unfold escape, utf8. rewrite (proj2 (N.ltb_lt _ _) H).
  unfold decodeHead. cbn [flat_map percent app]. change (37 =? 37) with true.
  cbv beta iota zeta. rewrite octetOf_percent by lia.
  by rewrite (proj2 (N.ltb_lt _ _) H).
Qed.

Lemma decode_escape2 cp rest :
  0x80 <= cp < 0x800 -> decodeHead (escape cp ++ rest) = Some ([cp], rest).
Proof.
  intros H. unfold escape, utf8.
  rewrite (proj2 (N.ltb_ge _ _)) by lia. rewrite (proj2 (N.ltb_lt _ _)) by lia.
  unfold decodeHead. cbn [flat_map percent app]. change (37 =? 37) with true.
  cbv beta iota zeta. rewrite !octetOf_percent by lia.
  rewrite (proj2 (N.ltb_ge _ 0x80)) by lia.
  rewrite (proj2 (N.ltb_lt _ 0xE0)) by lia.
  do 2 f_equal. f_equal. lia.
Qed.

Lemma decode_escape3 cp rest :
  0x800 <= cp < 0x10000 -> decodeHead (escape cp ++ rest) = Some ([cp], rest).
Proof.
  intros H. unfold escape, utf8.
  rewrite (proj2 (N.ltb_ge _ 0x80)) by lia.
  rewrite (proj2 (N.ltb_ge _ 0x800)) by lia.
  rewrite (proj2 (N.ltb_lt _ _)) by lia.
  unfold decodeHead. cbn [flat_map percent app]. change (37 =? 37) with true.
  cbv beta iota zeta. rewrite !octetOf_percent by lia.
  rewrite (proj2 (N.ltb_ge _ 0x80)) by lia.
  rewrite (proj2 (N.ltb_ge _ 0xE0)) by lia.
  rewrite (proj2 (N.ltb_lt _ 0xF0)) by lia.
  do 2 f_equal. f_equal. lia.
Qed.

Lemma decode_escape4 c d rest :
  isLeadingSurrogate c = true -> isTrailingSurrogate d = true ->
  decodeHead (escape (codePoint c d) ++ rest) = Some ([c; d], rest).
Proof.
  intros Hc Hd. pose proof (codePoint_range c d Hc Hd) as Hcp.
  assert (Hv : codePoint c d = (c - 0xD800) * 0x400 + (d - 0xDC00) + 0x10000)
    by reflexivity.
  unfold isLeadingSurrogate, isTrailingSurrogate in Hc, Hd. units_to_arith.
  set (cp := codePoint c d) in *. unfold escape, utf8.
  rewrite (proj2 (N.ltb_ge _ 0x80)) by lia.
  rewrite (proj2 (N.ltb_ge _ 0x800)) by lia.
  rewrite (proj2 (N.ltb_ge _ 0x10000)) by lia.
  unfold decodeHead. cbn [flat_map percent app]. change (37 =? 37) with true.
  cbv beta iota zeta. rewrite !octetOf_percent by lia.
  rewrite (proj2 (N.ltb_ge _ 0x80)) by lia.
  rewrite (proj2 (N.ltb_ge _ 0xE0)) by lia.
  rewrite (proj2 (N.ltb_ge _ 0xF0)) by lia.
  do 2 f_equal. f_equal; [lia|]. f_equal. lia.
Qed.


(** Reading an encoded component back gives the query. *)
Lemma unescape_encode s e :
  utf16 s -> encodeURIComponent s = Ok e ->
  forall n, (length s <= n)%nat -> unescape n e = s.
Proof.
  intros Hs He. revert Hs. revert s e He.
  apply (encode_ind (fun s e =>
    utf16 s -> forall n, (length s <= n)%nat -> unescape n e = s));
    [intros _ n _|intros c rest r Hu Hr IH Hs n Hn
     |intros c d rest r Hu Hl Hd Hr IH Hs n Hn
     |intros c rest r Hu Hl Ht Hr IH Hs n Hn].
  - by destruct n.
  - apply Forall_cons in Hs as [_ Hs]. cbn [length] in Hn.
    destruct n as [|n]; [lia|]. cbn [unescape].
    rewrite decode_plain by done. cbn [app]. f_equal. apply IH; [done | lia].
  - apply Forall_cons in Hs as [_ Hs]. apply Forall_cons in Hs as [_ Hs].
    cbn [length] in Hn. destruct n as [|n]; [lia|]. cbn [unescape].
    rewrite decode_escape4 by done. cbn [app]. do 2 f_equal.
    apply IH; [done | lia].
  - apply Forall_cons in Hs as [Hc Hs]. cbn [length] in Hn.
    destruct n as [|n]; [lia|]. cbn [unescape].
    assert (Hd : decodeHead (escape c ++ r) = Some ([c], r)).
    { destruct (N.ltb_spec c 0x80); [by apply decode_escape1|].
      destruct (N.ltb_spec c 0x800); [by apply decode_escape2|].
      by apply decode_escape3. }
    rewrite Hd. cbn [app]. f_equal. apply IH; [done | lia].
Qed.

Lemma encode_injective s s' e :
  utf16 s -> utf16 s' ->
  encodeURIComponent s = Ok e -> encodeURIComponent s' = Ok e -> s = s'.
Proof.
  intros Hs Hs' He He'.
  pose proof (unescape_encode s e Hs He (length s + length s')%nat) as H.
  pose proof (unescape_encode s' e Hs' He' (length s + length s')%nat) as H'.
  specialize (H ltac:(lia)). specialize (H' ltac:(lia)). congruence.
Qed.

(** The encoding loses nothing: when a query is sent to a path, another
    query is sent to the same path exactly when the two are equal after
    trimming. *)
Theorem distinct_queries_get_distinct_paths
    (push : ustr -> result unit) (st st' : state) :
  utf16 (query st) -> utf16 (query st') ->
  pushed (handleSearch push st) <> [] ->
  (pushed (handleSearch push st) = pushed (handleSearch push st')
   <-> trim (query st) = trim (query st')).
Proof.
  intros Hq Hq'. rewrite !pushed_spec.
  pose proof (trim_utf16 _ Hq) as Ht. pose proof (trim_utf16 _ Hq') as Ht'.
  destruct (trim (query st)) as [|c t] eqn:E; [done|].
  destruct (encodeURIComponent (c :: t)) as [e|err] eqn:Ee; [|done].
  intros _. split.
  - destruct (trim (query st')) as [|c' t'] eqn:E'; [done|].
    destruct (encodeURIComponent (c' :: t')) as [e'|err'] eqn:Ee'; [|done].
    intros [= H]. subst e'.
    by apply (encode_injective _ _ e).
  - intros <-. by rewrite Ee.
Qed.

Lemma distinct_queries_get_distinct_paths_witness :
  pushed (handleSearch workingPush (typed catQuery))
    = pushed (handleSearch workingPush
                (typed ([0x20; 0x20] ++ catQuery ++ [0x09])))
  <-> trim (query (typed catQuery))
        = trim (query (typed ([0x20; 0x20] ++ catQuery ++ [0x09]))).
Proof.
  apply (distinct_queries_get_distinct_paths workingPush (typed catQuery)
           (typed ([0x20; 0x20] ++ catQuery ++ [0x09]))).
  - repeat constructor.
  - repeat constructor.
  - vm_compute. discriminate.
Defined.

(** ** The loading flag and the errors *)

(** For a query that is not blank the loading flag is raised and lowered
    again and ends lowered, and the typed query stays, whatever happens in
    between.  The router is called at most once: not at all when the
    encoding throws (a surrogate without its partner in the query), and then
    that error is logged; once, with the encoded path, otherwise, and then an
    error of the router is logged.  Nothing is passed on to the caller. *)
Theorem loading_flag_is_always_lowered (push : ustr -> result unit) (st : state) :
  trim (query st) <> [] ->
  let r := handleSearch push st in
  isLoading (final r) = false
  /\ query (final r) = query st
  /\ loadingUpdates r = [true; false]
  /\ (forall err, encodeURIComponent (trim (query st)) = Throw err ->
        pushed r = [] /\ logged r = [err])
  /\ (forall e, encodeURIComponent (trim (query st)) = Ok e ->
        pushed r = [unitsOf "/search?q=" ++ e]
        /\ (forall err, push (unitsOf "/search?q=" ++ e) = Throw err ->
              logged r = [err])
        /\ (forall u, push (unitsOf "/search?q=" ++ e) = Ok u ->
              logged r = [])).
Proof.
  intros Hne. unfold handleSearch.
  destruct (trim (query st)) as [|c t] eqn:E; [done|]. cbn [truthy].
  destruct (encodeURIComponent (c :: t)) as [e|err] eqn:Ee.
  - destruct (push _) as [u|err] eqn:Ep;
      cbn [final isLoading query pushed logged loadingUpdates];
      (split; [done|]); (split; [done|]); (split; [done|]);
      (split; [intros ? [=]|]); intros e0 [= <-]; (split; [done|]);
      split; intros ? Hp; rewrite Ep in Hp; by simplify_eq.
  - cbn [final isLoading query pushed logged loadingUpdates].
    split; [done|]. split; [done|]. split; [done|].
    split; [by intros ? [= <-] | intros ? [=]].
Qed.

Lemma loading_flag_is_always_lowered_witness :
  isLoading (final (handleSearch workingPush (typed brokenQuery))) = false
  /\ pushed (handleSearch workingPush (typed brokenQuery)) = []
  /\ logged (handleSearch workingPush (typed brokenQuery)) = [uriError].
Proof.
  pose proof (loading_flag_is_always_lowered workingPush (typed brokenQuery)
                ltac:(vm_compute; discriminate)) as H.
  cbv zeta in H. destruct H as (H1 & _ & _ & H4 & _).
  split; [exact H1 | exact (H4 uriError eq_refl)].
Defined.

(** A surrogate without its partner anywhere in the trimmed query makes the
    encoding throw, so such a query never reaches the router. *)
Lemma lone_surrogate_throws (pre post : ustr) (c : N) :
  isTrailingSurrogate c = true
  \/ (isLeadingSurrogate c = true
      /\ match post with
         | [] => True
         | d :: _ => isTrailingSurrogate d = false
         end) ->
  (forall e, encodeURIComponent pre = Ok e ->
     encodeURIComponent (pre ++ c :: post) = Throw uriError).
Proof.
  intros Hc e He. revert pre e He.
  apply (encode_ind (fun pre e =>
    encodeURIComponent (pre ++ c :: post) = Throw uriError));
    [|intros c0 rest r Hu Hr IH|intros c0 d rest r Hu Hl Hd Hr IH
     |intros c0 rest r Hu Hl Ht Hr IH].
  - cbn [app encodeURIComponent].
    assert (Hu : isUnreserved c = false).
    { apply not_true_iff_false. intros Hu.
      unfold isUnreserved, isAlnum, isTrailingSurrogate, isLeadingSurrogate
        in *.
      destruct Hc as [Hc | [Hc _]]; units_to_arith; try lia;
        match goal with H : isMark _ = true |- _ => apply isMark_true in H end;
        lia. }
    rewrite Hu. destruct Hc as [-> | [Hl Hp]]; [done|].
    destruct (isTrailingSurrogate c); [done|]. rewrite Hl.
    destruct post as [|d post]; [done|]. by rewrite Hp.
  - cbn [app encodeURIComponent]. by rewrite Hu, IH.
  - cbn [app encodeURIComponent]. rewrite Hu.
    assert (Ht : isTrailingSurrogate c0 = false).
    { unfold isTrailingSurrogate, isLeadingSurrogate in *.
      apply not_true_iff_false. intros Ht. clear Hc. units_to_arith; lia. }
    by rewrite Ht, Hl, Hd, IH.
  - cbn [app encodeURIComponent]. by rewrite Hu, Ht, Hl, IH.
Qed.


(** A query with a surrogate that has no partner, after a part that encodes
    well, never reaches the router: the encoding throws inside the [try], the
    error is logged, and the loading flag is lowered again. *)
Theorem lone_surrogate_is_not_sent
    (push : ustr -> result unit) (st : state) (pre post : ustr) (c : N) (e : ustr) :
  trim (query st) = pre ++ c :: post ->
  encodeURIComponent pre = Ok e ->
  isTrailingSurrogate c = true
  \/ (isLeadingSurrogate c = true
      /\ match post with
         | [] => True
         | d :: _ => isTrailingSurrogate d = false
         end) ->
  handleSearch push st
    = {| final := {| query := query st; isLoading := false |};
         pushed := []; logged := [uriError];
         loadingUpdates := [true; false] |}.
Proof.
  intros Ht He Hc. unfold handleSearch.
  rewrite Ht, (lone_surrogate_throws pre post c Hc e He).
  by destruct pre.
Qed.

Lemma lone_surrogate_is_not_sent_witness :
  handleSearch workingPush (typed brokenQuery)
    = {| final := typed brokenQuery; pushed := []; logged := [uriError];
         loadingUpdates := [true; false] |}.
Proof.
  apply (lone_surrogate_is_not_sent workingPush (typed brokenQuery)
           (unitsOf "toy ") [] 0xD83D (unitsOf "toy%20")).
  - reflexivity.
  - reflexivity.
  - right. split; [reflexivity | exact I].
Defined.

(** Every text of code units below 256 is a string of UTF-16 code units, so
    the statements above cover in particular the queries typed in Latin-1. *)
Lemma latin1_utf16 (l : list ascii) : utf16 (map N_of_ascii l).
Proof.
  unfold utf16. apply Forall_map, Forall_forall. intros a _. cbn.
  pose proof (N_ascii_bounded a). lia.
Qed.
